(** * games-calendar: the calendar reconciliation engine

    A shallow embedding of the synchronisation core of [calendar-scripts]:

    - [utils/hashUtils.js]        (module [HashUtils], over [Js] and [MD5]);
    - [utils/syncStateManager.js] (module [SyncStateManager]);
    - [services/syncService.js]   (module [SyncService], over [JsDate]);
    - [utils/storageManager.js]   ([saveWithRetry], module [StorageManager]);
    - [adapters/bwfAdapter.js]    ([_parseDate], module [BwfAdapter]);
    - [index.js]                  ([main], module [Main]).

    The effects of the code (file system, clock, Google Calendar client) act
    on an abstract world, the class [World.Env]; the definitions come first,
    the properties after them.

    JavaScript values are modelled by the inductive type [Js.value]; a
    JavaScript object is an association list in property insertion order with
    pairwise distinct keys.  Strings are byte strings holding the UTF-8
    encoding of well-formed text, which is what [crypto]'s [update] digests. *)

From Stdlib Require Import ZArith NArith List String Ascii Bool Lia Permutation.
Import ListNotations.

Set Implicit Arguments.

(* ================================================================== *)
(** ** JavaScript values, property access and [JSON.stringify] *)

Module Js.

Local Open Scope string_scope.

(** The values canonical events are made of.  Numbers do not occur in the
    projected fields of a canonical event and are left out. *)
#[warnings="-register-all"]
Inductive value : Type :=
| VUndefined
| VNull
| VBool (b : bool)
| VString (s : string)
| VObject (props : list (string * value)).

(** Own enumerable properties in insertion order. *)
Definition object : Type := list (string * value).

(** [ToBoolean]. *)
Definition truthy (v : value) : bool :=
  match v with
  | VUndefined | VNull => false
  | VBool b => b
  | VString s => negb (String.eqb s "")
  | VObject _ => true
  end.

(** [a || b]. *)
Definition or (a b : value) : value := if truthy a then a else b.

(** [o.k]: the value of property [k], [undefined] when [o] has none. *)
Fixpoint get (o : object) (k : string) : value :=
  match o with
  | [] => VUndefined
  | (k', v) :: rest => if String.eqb k' k then v else get rest k
  end.

(** [Object.keys(o)]. *)
Definition keys (o : object) : list string := map fst o.

(** [o[k] = v]: overwrite in place, or append a new property. *)
Fixpoint set (o : object) (k : string) (v : value) : object :=
  match o with
  | [] => [(k, v)]
  | (k', v') :: rest =>
      if String.eqb k' k then (k', v) :: rest else (k', v') :: set rest k v
  end.

(** [Array.prototype.sort] with the default comparison, on strings. *)
Fixpoint insert_sorted (k : string) (l : list string) : list string :=
  match l with
  | [] => [k]
  | k' :: rest => if String.leb k k' then k :: l else k' :: insert_sorted k rest
  end.

Definition sort (l : list string) : list string :=
  fold_right insert_sorted [] l.

(** *** [JSON.stringify] *)

Definition dquote : ascii := ascii_of_N 34.
Definition backslash : ascii := ascii_of_N 92.

Definition hex_digit (n : N) : ascii :=
  if (n <? 10)%N then ascii_of_N (48 + n) else ascii_of_N (87 + n).

(** [QuoteJSONString] on one code unit. *)
Definition escape_char (c : ascii) : string :=
  let n := N_of_ascii c in
  let esc (x : ascii) := String backslash (String x EmptyString) in
  if (n =? 34)%N then esc dquote
  else if (n =? 92)%N then esc backslash
  else if (n =? 8)%N then esc "b"%char
  else if (n =? 9)%N then esc "t"%char
  else if (n =? 10)%N then esc "n"%char
  else if (n =? 12)%N then esc "f"%char
  else if (n =? 13)%N then esc "r"%char
  else if (n <? 32)%N then
    String backslash
      (String "u" (String "0" (String "0"
         (String (hex_digit (n / 16)) (String (hex_digit (n mod 16)) EmptyString)))))
  else String c EmptyString.

Fixpoint escape (s : string) : string :=
  match s with
  | EmptyString => EmptyString
  | String c rest => escape_char c ++ escape rest
  end.

Definition quote (s : string) : string :=
  String dquote (escape s ++ String dquote EmptyString).

(** [SerializeJSONProperty]: [None] stands for [undefined]; a property whose
    value serialises to [undefined] is left out of its object. *)
Fixpoint stringify (v : value) : option string :=
  match v with
  | VUndefined => None
  | VNull => Some "null"
  | VBool true => Some "true"
  | VBool false => Some "false"
  | VString s => Some (quote s)
  | VObject props =>
      let fix members (ps : list (string * value)) : list string :=
        match ps with
        | [] => []
        | (k, v') :: rest =>
            match stringify v' with
            | None => members rest
            | Some s => (quote k ++ ":" ++ s) :: members rest
            end
        end in
      Some ("{" ++ String.concat "," (members props) ++ "}")
  end.

(** The names of the properties every plain object inherits from
    [Object.prototype].  A lookup [o[k]] on a plain object finds the
    inherited member under such a name when [o] has no property of its own
    called [k], and [o["__proto__"] = v] sets the prototype of [o]. *)
Definition prototype_names : list string :=
  [ "constructor"; "__defineGetter__"; "__defineSetter__"; "hasOwnProperty";
    "__lookupGetter__"; "__lookupSetter__"; "isPrototypeOf"; "propertyIsEnumerable";
    "toString"; "valueOf"; "__proto__"; "toLocaleString" ].

(** A name under which a plain object holds what was stored in it and
    nothing else. *)
Definition ordinary (k : string) : bool :=
  negb (existsb (String.eqb k) prototype_names).

(** [ToString], as used by template literals. *)
Definition to_string (v : value) : string :=
  match v with
  | VUndefined => "undefined"
  | VNull => "null"
  | VBool true => "true"
  | VBool false => "false"
  | VString s => s
  | VObject _ => "[object Object]"
  end.

End Js.

(* ================================================================== *)
(** ** MD5 (RFC 1321), the digest [crypto.createHash('md5')] computes *)

Module MD5.

Local Open Scope Z_scope.

Definition two32 : Z := 4294967296.

Definition add32 (a b : Z) : Z := (a + b) mod two32.

Definition not32 (a : Z) : Z := Z.lxor a 0xffffffff.

Definition rotl32 (x c : Z) : Z :=
  Z.lor (Z.shiftl x c mod two32) (Z.shiftr x (32 - c)).

(** Per-round shift amounts. *)
Definition S_table : list Z :=
  [ 7; 12; 17; 22; 7; 12; 17; 22; 7; 12; 17; 22; 7; 12; 17; 22;
    5; 9; 14; 20; 5; 9; 14; 20; 5; 9; 14; 20; 5; 9; 14; 20;
    4; 11; 16; 23; 4; 11; 16; 23; 4; 11; 16; 23; 4; 11; 16; 23;
    6; 10; 15; 21; 6; 10; 15; 21; 6; 10; 15; 21; 6; 10; 15; 21 ].

(** [K_table[i] = floor (2^32 * abs (sin (i + 1)))]. *)
Definition K_table : list Z :=
  [ 0xd76aa478; 0xe8c7b756; 0x242070db; 0xc1bdceee; 0xf57c0faf; 0x4787c62a; 0xa8304613; 0xfd469501;
    0x698098d8; 0x8b44f7af; 0xffff5bb1; 0x895cd7be; 0x6b901122; 0xfd987193; 0xa679438e; 0x49b40821;
    0xf61e2562; 0xc040b340; 0x265e5a51; 0xe9b6c7aa; 0xd62f105d; 0x02441453; 0xd8a1e681; 0xe7d3fbc8;
    0x21e1cde6; 0xc33707d6; 0xf4d50d87; 0x455a14ed; 0xa9e3e905; 0xfcefa3f8; 0x676f02d9; 0x8d2a4c8a;
    0xfffa3942; 0x8771f681; 0x6d9d6122; 0xfde5380c; 0xa4beea44; 0x4bdecfa9; 0xf6bb4b60; 0xbebfbc70;
    0x289b7ec6; 0xeaa127fa; 0xd4ef3085; 0x04881d05; 0xd9d4d039; 0xe6db99e5; 0x1fa27cf8; 0xc4ac5665;
    0xf4292244; 0x432aff97; 0xab9423a7; 0xfc93a039; 0x655b59c3; 0x8f0ccc92; 0xffeff47d; 0x85845dd1;
    0x6fa87e4f; 0xfe2ce6e0; 0xa3014314; 0x4e0811a1; 0xf7537e82; 0xbd3af235; 0x2ad7d2bb; 0xeb86d391 ].

(** The four chaining words. *)
Record state : Type := mkState { sA : Z; sB : Z; sC : Z; sD : Z }.

Definition init : state :=
  mkState 0x67452301 0xefcdab89 0x98badcfe 0x10325476.

(** Message padding: a 1 bit, zeros up to 56 mod 64 bytes, then the bit
    length as a 64-bit little-endian integer. *)
Fixpoint le_bytes (n : nat) (x : Z) : list Z :=
  match n with
  | O => []
  | S n' => (x mod 256) :: le_bytes n' (x / 256)
  end.

Definition pad (msg : list Z) : list Z :=
  let len := Z.of_nat (List.length msg) in
  let zeros := (55 - len) mod 64 in
  msg ++ [128] ++ repeat 0 (Z.to_nat zeros) ++ le_bytes 8 ((8 * len) mod 2 ^ 64).

Fixpoint word_of_le (bs : list Z) : Z :=
  match bs with
  | [] => 0
  | b :: rest => b + 256 * word_of_le rest
  end.

(** Sixteen little-endian words of one 64-byte block. *)
Fixpoint words (n : nat) (bs : list Z) : list Z :=
  match n with
  | O => []
  | S n' => word_of_le (firstn 4 bs) :: words n' (skipn 4 bs)
  end.

Definition round (M : list Z) (st : state) (i : nat) : state :=
  let '(mkState a b c d) := st in
  let iz := Z.of_nat i in
  let '(f, g) :=
    if iz <? 16 then (Z.lor (Z.land b c) (Z.land (not32 b) d), iz)
    else if iz <? 32 then (Z.lor (Z.land d b) (Z.land (not32 d) c), (5 * iz + 1) mod 16)
    else if iz <? 48 then (Z.lxor (Z.lxor b c) d, (3 * iz + 5) mod 16)
    else (Z.lxor c (Z.lor b (not32 d)), (7 * iz) mod 16) in
  let f' := add32 (add32 (add32 f a) (nth i K_table 0)) (nth (Z.to_nat g) M 0) in
  mkState d (add32 b (rotl32 f' (nth i S_table 0))) b c.

Definition process_block (st : state) (block : list Z) : state :=
  let M := words 16 block in
  let st' := fold_left (round M) (seq 0 64) st in
  mkState (add32 (sA st) (sA st')) (add32 (sB st) (sB st'))
          (add32 (sC st) (sC st')) (add32 (sD st) (sD st')).

Fixpoint blocks (n : nat) (st : state) (bs : list Z) : state :=
  match n with
  | O => st
  | S n' => blocks n' (process_block st (firstn 64 bs)) (skipn 64 bs)
  end.

Definition digest (msg : list Z) : list Z :=
  let p := pad msg in
  let st := blocks (List.length p / 64) init p in
  le_bytes 4 (sA st) ++ le_bytes 4 (sB st) ++ le_bytes 4 (sC st) ++ le_bytes 4 (sD st).

Definition bytes_of_string (s : string) : list Z :=
  map (fun c => Z.of_N (N_of_ascii c)) (list_ascii_of_string s).

Definition hex_of_byte (b : Z) : string :=
  String (Js.hex_digit (Z.to_N (b / 16)))
    (String (Js.hex_digit (Z.to_N (b mod 16))) EmptyString).

(** [createHash('md5').update(s).digest('hex')]. *)
Definition md5_hex (s : string) : string :=
  String.concat "" (map hex_of_byte (digest (bytes_of_string s))).

End MD5.

(* ================================================================== *)
(** ** [utils/hashUtils.js] *)

Module HashUtils.

Import Js.
Local Open Scope string_scope.

(** The projection of the fields that show in the remote calendar. *)
Definition hashFields (event : object) : object :=
  [ ("name", or (get event "name") (VString ""));
    ("dateStart", or (get event "dateStart") (VString ""));
    ("dateEnd", or (get event "dateEnd") (VString ""));
    ("location", or (get event "location") (VObject []));
    ("category", or (get event "category") (VString ""));
    ("level", or (get event "level") (VString ""));
    ("prize", or (get event "prize") (VString ""));
    ("url", or (get event "url") (VString "")) ].

(** The loop copying [hashFields] into [sortedFields] key by key, in the
    order of [Object.keys(hashFields).sort()]. *)
Definition sortedFields (event : object) : object :=
  let fields := hashFields event in
  fold_left (fun acc key => set acc key (get fields key)) (sort (keys fields)) [].

(** [JSON.stringify(sortedFields)]; an object never serialises to
    [undefined], so the second branch is not taken. *)
Definition hashInput (event : object) : string :=
  match stringify (VObject (sortedFields event)) with
  | Some s => s
  | None => "undefined"
  end.

(** The first sixteen hexadecimal digits of the MD5 digest. *)
Definition calculateEventHash (event : object) : string :=
  String.substring 0 16 (MD5.md5_hex (hashInput event)).

End HashUtils.

Arguments MD5.md5_hex : simpl never.
Arguments HashUtils.calculateEventHash : simpl never.

(* ================================================================== *)
(** ** The parts of the built-in [Date] that [formatDate] relies on

    Time values are integral milliseconds since the epoch; [None] is the
    time value [NaN] of an invalid date.  The definitions follow the
    abstract operations of ECMA-262 (Day, DayFromYear, YearFromTime,
    MonthFromTime, DateFromTime, MakeDay, MakeDate, TimeClip). *)

Module JsDate.

Local Open Scope string_scope.
Local Open Scope Z_scope.

Definition msPerDay : Z := 86400000.

Definition Day (t : Z) : Z := t / msPerDay.

Definition TimeWithinDay (t : Z) : Z := t mod msPerDay.

Definition DaysInYear (y : Z) : Z :=
  if negb (y mod 4 =? 0) then 365
  else if negb (y mod 100 =? 0) then 366
  else if negb (y mod 400 =? 0) then 365
  else 366.

Definition DayFromYear (y : Z) : Z :=
  365 * (y - 1970) + (y - 1969) / 4 - (y - 1901) / 100 + (y - 1601) / 400.

(** The largest year [y <= c] with [DayFromYear y <= d], looking at most
    [fuel] years below [c]. *)
Fixpoint year_down (fuel : nat) (c d : Z) : Z :=
  match fuel with
  | O => c
  | S fuel' => if DayFromYear c <=? d then c else year_down fuel' (c - 1) d
  end.

(** The year day number [d] falls in: the search starts from an upper
    estimate that is at most [|d| / 100000 + 1] years too late. *)
Definition YearFromDay (d : Z) : Z :=
  year_down (Z.to_nat (Z.abs d / 100000 + 1))
            (1970 + Z.max (d / 365) (d / 366)) d.

Definition YearFromTime (t : Z) : Z := YearFromDay (Day t).

Definition InLeapYear (t : Z) : Z :=
  if DaysInYear (YearFromTime t) =? 366 then 1 else 0.

Definition DayWithinYear (t : Z) : Z := Day t - DayFromYear (YearFromTime t).

(** Month numbers run from 0 (January) to 11 (December). *)
Definition MonthFromTime (t : Z) : Z :=
  let d := DayWithinYear t in
  let l := InLeapYear t in
  if d <? 31 then 0
  else if d <? 59 + l then 1
  else if d <? 90 + l then 2
  else if d <? 120 + l then 3
  else if d <? 151 + l then 4
  else if d <? 181 + l then 5
  else if d <? 212 + l then 6
  else if d <? 243 + l then 7
  else if d <? 273 + l then 8
  else if d <? 304 + l then 9
  else if d <? 334 + l then 10
  else 11.

Definition DateFromTime (t : Z) : Z :=
  let d := DayWithinYear t in
  let l := InLeapYear t in
  match MonthFromTime t with
  | 0 => d + 1
  | 1 => d - 30
  | 2 => d - 58 - l
  | 3 => d - 89 - l
  | 4 => d - 119 - l
  | 5 => d - 150 - l
  | 6 => d - 180 - l
  | 7 => d - 211 - l
  | 8 => d - 242 - l
  | 9 => d - 272 - l
  | 10 => d - 303 - l
  | _ => d - 333 - l
  end.

(** Day number of the first day of month [m] within a year. *)
Definition MonthStart (m : Z) (leap : Z) : Z :=
  match m with
  | 0 => 0
  | 1 => 31
  | 2 => 59 + leap
  | 3 => 90 + leap
  | 4 => 120 + leap
  | 5 => 151 + leap
  | 6 => 181 + leap
  | 7 => 212 + leap
  | 8 => 243 + leap
  | 9 => 273 + leap
  | 10 => 304 + leap
  | _ => 334 + leap
  end.

(** [MakeDay (year, month, date)]: the day number of the first of the
    month, plus [date - 1]; a [date] outside the month carries over. *)
Definition MakeDay (year month date : Z) : Z :=
  let ym := year + month / 12 in
  let mn := month mod 12 in
  DayFromYear ym + MonthStart mn (if DaysInYear ym =? 366 then 1 else 0) + date - 1.

Definition MakeDate (day time : Z) : Z := day * msPerDay + time.

Definition MakeTime (hour min sec ms : Z) : Z :=
  hour * 3600000 + min * 60000 + sec * 1000 + ms.

Definition TimeClip (t : Z) : option Z :=
  if Z.abs t <=? 8640000000000000 then Some t else None.

(** *** Reading a date-time string *)

Definition digit_val (c : ascii) : option Z :=
  let n := Z.of_N (N_of_ascii c) in
  if (48 <=? n) && (n <=? 57) then Some (n - 48) else None.

Fixpoint digits_val (acc : Z) (cs : list ascii) : option Z :=
  match cs with
  | [] => Some acc
  | c :: rest =>
      match digit_val c with
      | Some v => digits_val (10 * acc + v) rest
      | None => None
      end
  end.

(** A calendar date written [YYYY-MM-DD], with the month in 01..12 and the
    day in 01..31 as the date-time string format bounds them. *)
Definition parse_ymd (s : string) : option (Z * Z * Z) :=
  match list_ascii_of_string s with
  | [y1; y2; y3; y4; c1; m1; m2; c2; d1; d2] =>
      if Ascii.eqb c1 "-"%char && Ascii.eqb c2 "-"%char then
        match digits_val 0 [y1; y2; y3; y4], digits_val 0 [m1; m2], digits_val 0 [d1; d2] with
        | Some y, Some m, Some d =>
            if (1 <=? m) && (m <=? 12) && (1 <=? d) && (d <=? 31)
            then Some (y, m, d) else None
        | _, _, _ => None
        end
      else None
  | _ => None
  end.

(** [s.split('T')]: the piece before the first [T] and, when there is a
    [T], what follows it. *)
Fixpoint split_T (s : string) : string * option string :=
  match s with
  | EmptyString => (EmptyString, None)
  | String c rest =>
      if Ascii.eqb c "T"%char then (EmptyString, Some rest)
      else let '(a, b) := split_T rest in (String c a, b)
  end.

(** [s.split('T')[0]]. *)
Definition before_T (s : string) : string := fst (split_T s).

(** [new Date(s)] for a string [s] of the form [YYYY-MM-DDT00:00:00Z], the
    only form under which the results below are stated.  V8 lets a day of
    29..31 that the month does not have run into the next month.  Every
    other string is taken to give an invalid date; the further forms of the
    date-time string format and V8's fallback parser are not modelled. *)
Definition parse (s : string) : option Z :=
  match split_T s with
  | (d, Some tm) =>
      if String.eqb tm "00:00:00Z" then
        match parse_ymd d with
        | Some (y, m, dd) => TimeClip (MakeDate (MakeDay y (m - 1) dd) (MakeTime 0 0 0 0))
        | None => None
        end
      else None
  | (_, None) => None
  end.

(** [date.getUTCDate()] ([None] is [NaN]). *)
Definition getUTCDate (t : option Z) : option Z := option_map DateFromTime t.

(** [date.setUTCDate(dt)]. *)
Definition setUTCDate (t : option Z) (dt : option Z) : option Z :=
  match t, dt with
  | Some t, Some dt =>
      TimeClip (MakeDate (MakeDay (YearFromTime t) (MonthFromTime t) dt) (TimeWithinDay t))
  | _, _ => None
  end.

(** *** Writing a date *)

Definition digit_char (n : Z) : ascii := ascii_of_N (48 + Z.to_N (n mod 10)).

(** [x] in decimal on [width] digits, padded with zeros. *)
Fixpoint pad_num (width : nat) (x : Z) : string :=
  match width with
  | O => EmptyString
  | S w => pad_num w (x / 10) ++ String (digit_char x) EmptyString
  end.

(** The year of [toISOString]: four digits from 0 to 9999, otherwise a sign
    and six digits. *)
Definition iso_year (y : Z) : string :=
  if (0 <=? y) && (y <=? 9999) then pad_num 4 y
  else String (if y <? 0 then "-"%char else "+"%char) (pad_num 6 (Z.abs y)).

(** The [YYYY-MM-DD] part of [toISOString], month counted from 1. *)
Definition iso_date (y m d : Z) : string :=
  iso_year y ++ "-" ++ pad_num 2 m ++ "-" ++ pad_num 2 d.

(** [date.toISOString()]; [None] is the [RangeError] of an invalid date. *)
Definition toISOString (t : option Z) : option string :=
  match t with
  | None => None
  | Some t =>
      let w := TimeWithinDay t in
      Some (iso_date (YearFromTime t) (MonthFromTime t + 1) (DateFromTime t)
            ++ "T" ++ pad_num 2 (w / 3600000) ++ ":" ++ pad_num 2 ((w / 60000) mod 60)
            ++ ":" ++ pad_num 2 ((w / 1000) mod 60) ++ "." ++ pad_num 3 (w mod 1000) ++ "Z")
  end.

(** *** The civil calendar, for stating results *)

(** The number of days of month [m] (1 to 12) of year [y]. *)
Definition DaysInMonth (y m : Z) : Z :=
  match m with
  | 2 => if DaysInYear y =? 366 then 29 else 28
  | 4 | 6 | 9 | 11 => 30
  | _ => 31
  end.

(** The calendar day after day [d] of month [m] of year [y]. *)
Definition next_day (y m d : Z) : Z * Z * Z :=
  if d <? DaysInMonth y m then (y, m, d + 1)
  else if m <? 12 then (y, m + 1, 1)
  else (y + 1, 1, 1).

(** The calendar day after [(y, m, d)], as [toISOString] writes it. *)
Definition iso_next_day (y m d : Z) : string :=
  let '(y', m', d') := next_day y m d in iso_date y' m' d'.

(** No [T] occurs in the string. *)
Fixpoint no_T (s : string) : bool :=
  match s with
  | EmptyString => true
  | String c rest => negb (Ascii.eqb c "T"%char) && no_T rest
  end.

End JsDate.

(* ================================================================== *)
(** ** Exceptions and effectful computations *)

Module Effects.

(** The [code] property of a thrown error: absent on the built-in errors,
    a number on HTTP errors of the calendar client, a string on file-system
    errors. *)
Inductive ErrorCode : Type :=
| NoCode
| NumCode (n : Z)
| StrCode (s : string).

Record JsError : Type := mkError { code : ErrorCode; message : string }.

Definition TypeError : JsError := mkError NoCode "TypeError".
Definition RangeError : JsError := mkError NoCode "RangeError".

(** [error.code === c]. *)
Definition code_is (e : JsError) (c : ErrorCode) : bool :=
  match code e, c with
  | NoCode, NoCode => true
  | NumCode a, NumCode b => Z.eqb a b
  | StrCode a, StrCode b => String.eqb a b
  | _, _ => false
  end.

(** A computation either throws or returns. *)
Definition result (A : Type) : Type := (JsError + A)%type.

(** An awaited call: it acts on the outside world [W]. *)
Definition Eff (W A : Type) : Type := W -> W * result A.

Definition ret {W A : Type} (a : A) : Eff W A := fun w => (w, inr a).

Definition throw {W A : Type} (e : JsError) : Eff W A := fun w => (w, inl e).

Definition bind {W A B : Type} (c : Eff W A) (k : A -> Eff W B) : Eff W B :=
  fun w =>
    match c w with
    | (w', inr a) => k a w'
    | (w', inl e) => (w', inl e)
    end.

(** [try { c } catch (error) { h error }]. *)
Definition try_catch {W A : Type} (c : Eff W A) (h : JsError -> Eff W A) : Eff W A :=
  fun w =>
    match c w with
    | (w', inr a) => (w', inr a)
    | (w', inl e) => h e w'
    end.

(** A pure computation that may throw, run inside an effectful one. *)
Definition lift {W A : Type} (r : result A) : Eff W A := fun w => (w, r).

End Effects.

Declare Scope eff_scope.
Delimit Scope eff_scope with eff.
Notation "x <- c ;; k" := (Effects.bind c (fun x => k))
  (at level 61, c at next level, right associativity) : eff_scope.

(* ================================================================== *)
(** ** Objects used as dictionaries, and [Map]

    [sportSyncState.events] is an object keyed by event id and
    [localEventsMap] a [Map]; both enumerate their keys in insertion order
    (event ids such as [bwf-5222-BD7DDFAC] are not array indices, which an
    object would enumerate first, nor names of properties inherited from
    [Object.prototype]).  Keys are pairwise distinct.

    [get], [set] and [delete] act on the properties the object has of its
    own.  For a [Map] that is all there is.  For a plain object it is what
    [m[k]], [m[k] = v] and [delete m[k]] do under every key that is
    [Js.ordinary]; under the twelve names of [Js.prototype_names] the
    lookup of the code also finds the inherited member, and the results
    that depend on such a lookup are stated for ordinary keys. *)

Module Dict.

Section Dict.

Variable A : Type.

Definition t : Type := list (string * A).

(** [m[k]] / [m.get(k)]. *)
Fixpoint get (m : t) (k : string) : option A :=
  match m with
  | [] => None
  | (k', v) :: rest => if String.eqb k' k then Some v else get rest k
  end.

(** [m.has(k)]. *)
Definition has (m : t) (k : string) : bool :=
  match get m k with
  | Some _ => true
  | None => false
  end.

(** [m[k] = v] / [m.set(k, v)]: an existing key keeps its place. *)
Fixpoint set (m : t) (k : string) (v : A) : t :=
  match m with
  | [] => [(k, v)]
  | (k', v') :: rest =>
      if String.eqb k' k then (k', v) :: rest else (k', v') :: set rest k v
  end.

(** [delete m[k]]. *)
Definition delete (m : t) (k : string) : t :=
  filter (fun kv => negb (String.eqb (fst kv) k)) m.

(** [Object.keys(m)]. *)
Definition keys (m : t) : list string := map fst m.

End Dict.

End Dict.

(* ================================================================== *)
(** ** The sync-state document and the calendar event payload *)

Module Data.

(** One entry of [sportSyncState.events]. *)
Record SyncRecord : Type := mkSyncRecord {
  googleEventId : string;
  lastSynced : string;
  hash : string
}.

Record SportStats : Type := mkSportStats {
  totalEvents : option nat;
  lastUpdate : option string
}.

Record SportSyncState : Type := mkSportSyncState {
  calendarId : option string;
  events : Dict.t SyncRecord;
  stats : SportStats
}.

(** The root document [sync-state.json]. *)
Record SyncState : Type := mkSyncState {
  version : string;
  lastSync : option string;
  sports : Dict.t SportSyncState
}.

(** A standardised event: its id and its other properties. *)
Record Event : Type := mkEvent {
  id : string;
  fields : Js.object
}.

Record DateSpec : Type := mkDateSpec { date : string; timeZone : string }.

Record SourceSpec : Type := mkSourceSpec { title : string; url : Js.value }.

(** The request body [buildEventData] returns. *)
Record EventData : Type := mkEventData {
  summary : Js.value;
  location : string;
  description : Js.value;
  start : DateSpec;
  end_ : DateSpec;
  transparency : string;
  visibility : string;
  source : SourceSpec
}.

End Data.

(* ================================================================== *)
(** ** The outside world: file system, clock and Google Calendar client *)

Module World.

Import Effects Data.

Class Env (W : Type) : Type := {
  (** [fs.readFile(SYNC_STATE_FILE, 'utf-8')] *)
  fs_readFile : Eff W string;
  (** [JSON.parse] of the document's text *)
  JSON_parse : string -> result SyncState;
  (** [fs.mkdir] of the directory, then [fs.writeFile] of
      [JSON.stringify(syncState, null, 2)] *)
  fs_writeState : SyncState -> Eff W unit;
  (** waiting [ms] milliseconds with [setTimeout] *)
  sleep : Z -> W -> W;
  (** [new Date().toISOString()] *)
  now : W -> W * string;
  (** [authorize()] and the construction of the client *)
  authorize : Eff W unit;
  (** [getOrCreateCalendar(calendar, sportId)] *)
  getOrCreateCalendar : string -> Eff W string;
  (** [calendar.events.insert]; returns [response.data.id] *)
  events_insert : string -> EventData -> Eff W string;
  (** [calendar.events.update] *)
  events_update : string -> string -> EventData -> Eff W unit;
  (** [calendar.events.delete] *)
  events_delete : string -> string -> Eff W unit;
  (** [calendar.events.get] *)
  events_get : option string -> string -> Eff W unit
}.

End World.

(* ================================================================== *)
(** ** [utils/syncStateManager.js] *)

Module SyncStateManager.

Import Effects Data World.
Local Open Scope string_scope.
Local Open Scope eff_scope.

Section WithEnv.

Context {W : Type} {env : Env W}.

(** The state returned when the file does not exist. *)
Definition emptyState : SyncState :=
  mkSyncState "1.0" None [].

Definition loadSyncState : Eff W SyncState :=
  try_catch
    (data <- fs_readFile ;; lift (JSON_parse data))
    (fun error =>
       if code_is error (StrCode "ENOENT") then ret emptyState
       else throw error).

Definition retries : Z := 3.

(** The iterations [i, i + 1, ...] of the retry loop, [n] of them. *)
Fixpoint saveSyncState_loop (n : nat) (i : Z) (syncState : SyncState) : Eff W unit :=
  match n with
  | O => ret tt
  | S n' =>
      try_catch (fs_writeState syncState)
        (fun error =>
           if (i =? retries - 1)%Z then throw error
           else fun w => saveSyncState_loop n' (i + 1) syncState (sleep (1000 * (i + 1)) w))
  end.

Definition saveSyncState (syncState : SyncState) : Eff W unit :=
  saveSyncState_loop (Z.to_nat retries) 0 syncState.

(** [updateSyncState(sportId, eventId, syncData)], returned with the state
    it saved.  A sport the state does not have is first entered as
    [{ events: {}, stats: {} }]. *)
Definition updateSyncState_state (sportId eventId : string) (syncData : SyncRecord)
  : Eff W SyncState :=
  state <- loadSyncState ;;
  fun w =>
    let sportState :=
      match Dict.get (sports state) sportId with
      | Some sportState => sportState
      | None => mkSportSyncState None [] (mkSportStats None None)
      end in
    let sportState' :=
      mkSportSyncState (calendarId sportState)
        (Dict.set (events sportState) eventId syncData) (stats sportState) in
    let '(w1, ts) := now w in
    let state' :=
      mkSyncState (version state) (Some ts) (Dict.set (sports state) sportId sportState') in
    match saveSyncState state' w1 with
    | (w2, inr _) => (w2, inr state')
    | (w2, inl error) => (w2, inl error)
    end.

Definition updateSyncState (sportId eventId : string) (syncData : SyncRecord) : Eff W unit :=
  _ <- updateSyncState_state sportId eventId syncData ;; ret tt.

(** [removeSyncState(sportId, eventId)], returned with the state it saved,
    if it saved one. *)
Definition removeSyncState_state (sportId eventId : string) : Eff W (option SyncState) :=
  state <- loadSyncState ;;
  match Dict.get (sports state) sportId with
  | Some sportState =>
      match Dict.get (events sportState) eventId with
      | Some _ =>
          fun w =>
            let sportState' :=
              mkSportSyncState (calendarId sportState)
                (Dict.delete (events sportState) eventId) (stats sportState) in
            let '(w1, ts) := now w in
            let state' :=
              mkSyncState (version state) (Some ts)
                (Dict.set (sports state) sportId sportState') in
            match saveSyncState state' w1 with
            | (w2, inr _) => (w2, inr (Some state'))
            | (w2, inl error) => (w2, inl error)
            end
      | None => ret None
      end
  | None => ret None
  end.

Definition removeSyncState (sportId eventId : string) : Eff W unit :=
  _ <- removeSyncState_state sportId eventId ;; ret tt.

End WithEnv.

End SyncStateManager.

(* ================================================================== *)
(** ** [services/syncService.js] *)

Module SyncService.

Import Effects Data World.
Local Open Scope string_scope.
Local Open Scope eff_scope.

(** *** Building the request body *)

(** [v.k] on a value that is not [null] or [undefined]. *)
Definition prop (v : Js.value) (k : string) : Js.value :=
  match v with
  | Js.VObject o => Js.get o k
  | _ => Js.VUndefined
  end.

Definition formatLocation (location : Js.value) : string :=
  if negb (Js.truthy location) then ""
  else
    String.concat ", "
      (map Js.to_string
         (filter Js.truthy
            [prop location "venue"; prop location "city"; prop location "country"])).

(** [dateString.split] is a [TypeError] unless [dateString] is a string;
    [toISOString] is a [RangeError] on an invalid date. *)
Definition formatDate (dateString : Js.value) (isEndDate : bool) : result string :=
  match dateString with
  | Js.VString s =>
      let dateStr := JsDate.before_T s in
      if isEndDate then
        let date := JsDate.parse (dateStr ++ "T00:00:00Z") in
        let date' :=
          JsDate.setUTCDate date (option_map (fun d => (d + 1)%Z) (JsDate.getUTCDate date)) in
        match JsDate.toISOString date' with
        | Some iso => inr (JsDate.before_T iso)
        | None => inl RangeError
        end
      else inr dateStr
  | _ => inl TypeError
  end.

Definition buildEventData (event : Event) : result EventData :=
  let e := fields event in
  match formatDate (Js.get e "dateStart") false with
  | inl err => inl err
  | inr startDate =>
      match formatDate (Js.get e "dateEnd") true with
      | inl err => inl err
      | inr endDate =>
          inr {| summary := Js.get e "name";
                 location := formatLocation (Js.get e "location");
                 description := Js.or (Js.get e "description") (Js.VString "");
                 start := mkDateSpec startDate "UTC";
                 end_ := mkDateSpec endDate "UTC";
                 transparency := "transparent";
                 visibility := "public";
                 source := mkSourceSpec (Js.to_string (Js.get e "source") ++ " Calendar")
                                        (Js.or (Js.get e "url") (Js.VString "")) |}
      end
  end.

(** *** Statistics and the trace of a pass *)

Record Stats : Type := mkStats {
  created : nat;
  updated : nat;
  deleted : nat;
  unchanged : nat
}.

(** What the pass decided for one event id: the branch taken, with the
    event and the record read from the state at that moment. *)
Inductive Decision : Type :=
| CREATE (event : Event)
| UPDATE (existingSync : SyncRecord) (event : Event)
| SKIP (event : Event)
| DELETE (eventId : string) (syncData : option SyncRecord).

(** How the [try] block of the branch ended. *)
Inductive Outcome : Type :=
| Done
| Threw (error : JsError).

Definition succeeded (o : Outcome) : bool :=
  match o with
  | Done => true
  | Threw _ => false
  end.

Definition Trace : Type := list (Decision * Outcome).

(** [{ success: true, calendarId, stats }]. *)
Record SyncResult : Type := mkSyncResult {
  success : bool;
  resultCalendarId : string;
  resultStats : Stats
}.

(** [{ repaired, total }]. *)
Record RepairResult : Type := mkRepairResult {
  repaired : nat;
  total : nat
}.

Section WithEnv.

Context {W : Type} {env : Env W}.

Definition createCalendarEvent (calendarId : string) (event : Event) : Eff W string :=
  eventData <- lift (buildEventData event) ;;
  events_insert calendarId eventData.

Definition updateCalendarEvent (calendarId googleEventId : string) (event : Event)
  : Eff W unit :=
  eventData <- lift (buildEventData event) ;;
  events_update calendarId googleEventId eventData.

Definition deleteCalendarEvent (calendarId googleEventId : string) : Eff W unit :=
  events_delete calendarId googleEventId.

(** The variables the two loops of [syncWithCalendar] update, with the
    world and the trace. *)
Record Loop : Type := mkLoop {
  loopWorld : W;
  loopEvents : Dict.t SyncRecord;
  loopStats : Stats;
  trace : Trace
}.

(** [4.] [localEventsMap]. *)
Definition localEventsMap (localEvents : list Event) : Dict.t Event :=
  fold_left (fun m event => Dict.set m (id event) event) localEvents [].

(** [6.] One iteration over [localEventsMap.entries()]. *)
Definition syncLocalEvent (calendarId : string) (st : Loop) (entry : string * Event) : Loop :=
  let '(eventId, event) := entry in
  let '(mkLoop w evs sts tr) := st in
  let eventHash := HashUtils.calculateEventHash (fields event) in
  match Dict.get evs eventId with
  | None =>
      match createCalendarEvent calendarId event w with
      | (w1, inr googleEventId) =>
          let '(w2, ts) := now w1 in
          mkLoop w2
            (Dict.set evs eventId (mkSyncRecord googleEventId ts eventHash))
            (mkStats (S (created sts)) (updated sts) (deleted sts) (unchanged sts))
            (tr ++ [(CREATE event, Done)])%list
      | (w1, inl error) =>
          mkLoop w1 evs sts (tr ++ [(CREATE event, Threw error)])%list
      end
  | Some existingSync =>
      if negb (String.eqb (hash existingSync) eventHash) then
        match updateCalendarEvent calendarId (googleEventId existingSync) event w with
        | (w1, inr _) =>
            let '(w2, ts) := now w1 in
            mkLoop w2
              (Dict.set evs eventId (mkSyncRecord (googleEventId existingSync) ts eventHash))
              (mkStats (created sts) (S (updated sts)) (deleted sts) (unchanged sts))
              (tr ++ [(UPDATE existingSync event, Done)])%list
        | (w1, inl error) =>
            mkLoop w1 evs sts (tr ++ [(UPDATE existingSync event, Threw error)])%list
        end
      else
        mkLoop w evs
          (mkStats (created sts) (updated sts) (deleted sts) (S (unchanged sts)))
          (tr ++ [(SKIP event, Done)])%list
  end.

(** [7.] One iteration over [existingEventIds].  Reading [googleEventId]
    off a missing record is the [TypeError] of the [None] branch. *)
Definition deleteOrphan (calendarId : string) (localMap : Dict.t Event)
  (st : Loop) (eventId : string) : Loop :=
  let '(mkLoop w evs sts tr) := st in
  if negb (Dict.has localMap eventId) then
    let syncData := Dict.get evs eventId in
    match syncData with
    | Some rec =>
        match deleteCalendarEvent calendarId (googleEventId rec) w with
        | (w1, inr _) =>
            mkLoop w1 (Dict.delete evs eventId)
              (mkStats (created sts) (updated sts) (S (deleted sts)) (unchanged sts))
              (tr ++ [(DELETE eventId syncData, Done)])%list
        | (w1, inl error) =>
            mkLoop w1 evs sts (tr ++ [(DELETE eventId syncData, Threw error)])%list
        end
    | None => mkLoop w evs sts (tr ++ [(DELETE eventId syncData, Threw TypeError)])%list
    end
  else st.

(** Steps [4.] to [6.]: the loop over the local events. *)
Definition syncLocalEvents (calendarId : string) (evs : Dict.t SyncRecord)
  (localEvents : list Event) (w : W) : Loop :=
  fold_left (syncLocalEvent calendarId) (localEventsMap localEvents)
    (mkLoop w evs (mkStats 0 0 0 0) []).

(** Steps [4.] to [7.]: both loops, from the records [evs] of the sport. *)
Definition reconcile (calendarId : string) (evs : Dict.t SyncRecord)
  (localEvents : list Event) (w : W) : Loop :=
  let st := syncLocalEvents calendarId evs localEvents w in
  let existingEventIds := Dict.keys (loopEvents st) in
  fold_left (deleteOrphan calendarId (localEventsMap localEvents)) existingEventIds st.

(** [syncWithCalendar(sportId, localEvents)].  The trace is returned next
    to the result for the statements below; the state that was written is
    what [fs_writeState] received. *)
Definition syncWithCalendar_traced (sportId : string) (localEvents : list Event)
  : Eff W (SyncResult * SyncState * Trace) :=
  _ <- authorize ;;
  calendarId <- getOrCreateCalendar sportId ;;
  syncState <- SyncStateManager.loadSyncState ;;
  fun w =>
    let '(w, evs) :=
      match Dict.get (sports syncState) sportId with
      | Some sportSyncState => (w, events sportSyncState)
      | None => let '(w', _) := now w in (w', [])
      end in
    let st := reconcile calendarId evs localEvents w in
    let '(w1, ts1) := now (loopWorld st) in
    let sportSyncState :=
      mkSportSyncState
        (match Dict.get (sports syncState) sportId with
         | Some sportSyncState => Data.calendarId sportSyncState
         | None => Some calendarId
         end)
        (loopEvents st)
        (mkSportStats (Some (List.length localEvents)) (Some ts1)) in
    let '(w2, ts2) := now w1 in
    let syncState' :=
      mkSyncState (version syncState) (Some ts2)
        (Dict.set (sports syncState) sportId sportSyncState) in
    match SyncStateManager.saveSyncState syncState' w2 with
    | (w3, inr _) =>
        (w3, inr (mkSyncResult true calendarId (loopStats st), syncState', trace st))
    | (w3, inl error) => (w3, inl error)
    end.

Definition syncWithCalendar (sportId : string) (localEvents : list Event)
  : Eff W SyncResult :=
  r <- syncWithCalendar_traced sportId localEvents ;;
  ret (fst (fst r)).

(** *** Repair *)

(** The variables the loop of [repairSyncState] updates, with the world
    and, for each record examined, how [calendar.events.get] ended. *)
Record RepairLoop : Type := mkRepairLoop {
  repairWorld : W;
  repairEvents : Dict.t SyncRecord;
  repairedCount : nat;
  repairTrace : list (string * Outcome)
}.

(** One iteration over [Object.entries(sportState.events)]. *)
Definition verifyEntry (calendarId : option string) (st : RepairLoop)
  (entry : string * SyncRecord) : RepairLoop :=
  let '(eventId, syncData) := entry in
  let '(mkRepairLoop w evs n tr) := st in
  match events_get calendarId (googleEventId syncData) w with
  | (w1, inr _) => mkRepairLoop w1 evs n (tr ++ [(eventId, Done)])%list
  | (w1, inl error) =>
      if code_is error (NumCode 404) then
        mkRepairLoop w1 (Dict.delete evs eventId) (S n) (tr ++ [(eventId, Threw error)])%list
      else mkRepairLoop w1 evs n (tr ++ [(eventId, Threw error)])%list
  end.

(** The loop of [repairSyncState] over the records of one sport. *)
Definition verifyEntries (calendarId : option string) (evs : Dict.t SyncRecord) (w : W)
  : RepairLoop :=
  fold_left (verifyEntry calendarId) evs (mkRepairLoop w evs 0 []).

(** [repairSyncState(sportId)], returned with the state it leaves. *)
Definition repairSyncState_state (sportId : string) : Eff W (RepairResult * SyncState) :=
  _ <- authorize ;;
  syncState <- SyncStateManager.loadSyncState ;;
  match Dict.get (sports syncState) sportId with
  | None => ret (mkRepairResult 0 0, syncState)
  | Some sportState =>
      fun w =>
        let totalCount := List.length (Dict.keys (events sportState)) in
        let st := verifyEntries (calendarId sportState) (events sportState) w in
        let syncState' :=
          mkSyncState (version syncState) (lastSync syncState)
            (Dict.set (sports syncState) sportId
               (mkSportSyncState (calendarId sportState) (repairEvents st) (stats sportState))) in
        if (0 <? repairedCount st)%nat then
          match SyncStateManager.saveSyncState syncState' (repairWorld st) with
          | (w1, inr _) => (w1, inr (mkRepairResult (repairedCount st) totalCount, syncState'))
          | (w1, inl error) => (w1, inl error)
          end
        else (repairWorld st, inr (mkRepairResult (repairedCount st) totalCount, syncState'))
  end.

Definition repairSyncState (sportId : string) : Eff W RepairResult :=
  r <- repairSyncState_state sportId ;;
  ret (fst r).

End WithEnv.

End SyncService.

(* ================================================================== *)
(** ** [utils/storageManager.js]: writing a data file *)

Module StorageManager.

Import Effects World.
Local Open Scope eff_scope.

Section WithFiles.

Context {W : Type} {env : Env W}.

(** The content of a data file. *)
Variable Data : Type.

(** [fs.writeFile(filePath, JSON.stringify(data, null, 2), 'utf-8')]. *)
Variable fs_writeFile : string -> Data -> Eff W unit.

(** The iterations [i, i + 1, ...] of the loop of [saveWithRetry], [n] of
    them. *)
Fixpoint saveWithRetry_loop (n : nat) (i retries : Z) (filePath : string) (data : Data)
  : Eff W unit :=
  match n with
  | O => ret tt
  | S n' =>
      try_catch (fs_writeFile filePath data)
        (fun error =>
           if (i =? retries - 1)%Z then throw error
           else fun w =>
                  saveWithRetry_loop n' (i + 1) retries filePath data
                    (sleep (1000 * (i + 1)) w))
  end.

(** [saveWithRetry(filePath, data, retries)]: the loop runs for
    [i = 0, ..., retries - 1]. *)
Definition saveWithRetry (filePath : string) (data : Data) (retries : Z) : Eff W unit :=
  saveWithRetry_loop (Z.to_nat retries) 0 retries filePath data.

End WithFiles.

End StorageManager.

(* ================================================================== *)
(** ** A scripted world, to run the definitions on examples

    The world holds a clock, the outcome of reading the state file and the
    outcomes of the successive calendar calls: [None] lets a call succeed,
    [Some error] makes it throw; calls beyond the script succeed.  Writing
    the state file succeeds, and the only document read back is the empty
    one. *)

Module Scripted.

Import Effects Data World.
Local Open Scope string_scope.

Record world : Type := mkWorld {
  clock : nat;
  readOutcome : result string;
  script : list (option JsError)
}.

Definition stamp (prefix : string) (n : nat) : string :=
  prefix ++ JsDate.pad_num 4 (Z.of_nat n).

Definition call {A : Type} (answer : nat -> A) : Eff world A :=
  fun w =>
    match script w with
    | Some error :: rest => (mkWorld (S (clock w)) (readOutcome w) rest, inl error)
    | None :: rest => (mkWorld (S (clock w)) (readOutcome w) rest, inr (answer (clock w)))
    | [] => (mkWorld (S (clock w)) (readOutcome w) [], inr (answer (clock w)))
    end.

#[export]
Instance env : Env world := {|
  fs_readFile := fun w => (w, readOutcome w);
  JSON_parse := fun _ => inr SyncStateManager.emptyState;
  fs_writeState := fun _ => ret tt;
  sleep := fun _ w => w;
  now := fun w => (mkWorld (S (clock w)) (readOutcome w) (script w), stamp "t" (clock w));
  authorize := ret tt;
  getOrCreateCalendar := fun sportId => ret ("cal-" ++ sportId);
  events_insert := fun _ _ => call (stamp "g");
  events_update := fun _ _ _ => call (fun _ => tt);
  events_delete := fun _ _ => call (fun _ => tt);
  events_get := fun _ _ => call (fun _ => tt)
|}.

(** The same world, with a state file whose text parses as given. *)
Definition holding (parsed : result SyncState) : Env world := {|
  fs_readFile := fun w => (w, readOutcome w);
  JSON_parse := fun _ => parsed;
  fs_writeState := fun _ => ret tt;
  sleep := fun _ w => w;
  now := fun w => (mkWorld (S (clock w)) (readOutcome w) (script w), stamp "t" (clock w));
  authorize := ret tt;
  getOrCreateCalendar := fun sportId => ret ("cal-" ++ sportId);
  events_insert := fun _ _ => call (stamp "g");
  events_update := fun _ _ _ => call (fun _ => tt);
  events_delete := fun _ _ => call (fun _ => tt);
  events_get := fun _ _ => call (fun _ => tt)
|}.

(** A world whose state file does not exist yet. *)
Definition fresh (outcomes : list (option JsError)) : world :=
  mkWorld 0 (inl (mkError (StrCode "ENOENT") "no such file or directory")) outcomes.

Definition serverError : JsError := mkError (NumCode 500) "Backend Error".
Definition notFound : JsError := mkError (NumCode 404) "Not Found".
Definition timedOut : JsError := mkError (StrCode "ETIMEDOUT") "timeout".

(** Example events. *)
Definition event (eventId name dateStart dateEnd : string) : Event :=
  mkEvent eventId
    [ ("name", Js.VString name);
      ("dateStart", Js.VString dateStart);
      ("dateEnd", Js.VString dateEnd) ].

Definition eventA : Event := event "A" "X" "2025-01-07" "2025-01-12".
Definition eventA' : Event := event "A" "Y" "2025-01-07" "2025-01-12".
Definition eventB : Event := event "B" "Open" "2025-02-27T00:00:00.000Z" "2025-02-28T00:00:00.000Z".
Definition eventC : Event := event "C" "Masters" "2024-12-30T00:00:00.000Z" "2024-12-31T00:00:00.000Z".

(** The record a completed sync of event [e] leaves. *)
Definition synced (remoteId : string) (e : Event) : SyncRecord :=
  mkSyncRecord remoteId "2025-11-28T08:26:52.830Z" (HashUtils.calculateEventHash (fields e)).

End Scripted.

(* ================================================================== *)
(** ** A world that keeps a log of the calls made on it *)

Module Logged.

Import Effects Data World.

(** The calls of [World.Env], with the outcome of the calls whose failure
    the code looks at. *)
Inductive Step : Type :=
| ReadFile
| WriteState (syncState : SyncState) (ok : bool)
| WriteFile (filePath : string) (ok : bool)
| Sleep (ms : Z)
| Now
| Authorize
| GetOrCreateCalendar (sportId : string)
| EventsInsert (calendarId : string) (eventData : EventData)
| EventsUpdate (calendarId googleEventId : string) (eventData : EventData)
| EventsDelete (calendarId googleEventId : string)
| EventsGet (calendarId : option string) (googleEventId : string).

Definition is_ok {A : Type} (r : result A) : bool :=
  match r with
  | inr _ => true
  | inl _ => false
  end.

(** Runs [c] on the world and appends the step to the log. *)
Definition logging {W A : Type} (step : result A -> Step) (c : Eff W A)
  : Eff (W * list Step) A :=
  fun wl =>
    let '(w', r) := c (fst wl) in
    ((w', (snd wl ++ [step r])%list), r).

(** Any world, with a log beside it. *)
Definition env {W : Type} (base : Env W) : Env (W * list Step) := {|
  fs_readFile := logging (fun _ => ReadFile) fs_readFile;
  JSON_parse := JSON_parse;
  fs_writeState := fun syncState =>
    logging (fun r => WriteState syncState (is_ok r)) (fs_writeState syncState);
  sleep := fun ms wl => (sleep ms (fst wl), (snd wl ++ [Sleep ms])%list);
  now := fun wl => let '(w', ts) := now (fst wl) in ((w', (snd wl ++ [Now])%list), ts);
  authorize := logging (fun _ => Authorize) authorize;
  getOrCreateCalendar := fun sportId =>
    logging (fun _ => GetOrCreateCalendar sportId) (getOrCreateCalendar sportId);
  events_insert := fun calendarId eventData =>
    logging (fun _ => EventsInsert calendarId eventData) (events_insert calendarId eventData);
  events_update := fun calendarId googleEventId eventData =>
    logging (fun _ => EventsUpdate calendarId googleEventId eventData)
      (events_update calendarId googleEventId eventData);
  events_delete := fun calendarId googleEventId =>
    logging (fun _ => EventsDelete calendarId googleEventId)
      (events_delete calendarId googleEventId);
  events_get := fun calendarId googleEventId =>
    logging (fun _ => EventsGet calendarId googleEventId)
      (events_get calendarId googleEventId)
|}.

(** A file write of [storageManager.js], logged. *)
Definition logged_writeFile {W Data : Type} (fs_writeFile : string -> Data -> Eff W unit)
  : string -> Data -> Eff (W * list Step) unit :=
  fun filePath data => logging (fun r => WriteFile filePath (is_ok r)) (fs_writeFile filePath data).

(** The writes of the state file in a log, and the time waited. *)
Definition writes (log : list Step) : list (SyncState * bool) :=
  flat_map (fun step => match step with
                        | WriteState syncState ok => [(syncState, ok)]
                        | _ => []
                        end) log.

(** The step is a write of the state file, or the wait between two. *)
Definition saving (step : Step) : bool :=
  match step with
  | WriteState _ _ | Sleep _ => true
  | _ => false
  end.

(** The step creates, changes or deletes something in Google Calendar. *)
Definition calendar_write (step : Step) : bool :=
  match step with
  | GetOrCreateCalendar _ | EventsInsert _ _ | EventsUpdate _ _ _ | EventsDelete _ _ => true
  | _ => false
  end.

Definition waited (log : list Step) : Z :=
  fold_right (fun step acc => match step with
                              | Sleep ms => (ms + acc)%Z
                              | _ => acc
                              end) 0%Z log.

End Logged.

(* ================================================================== *)
(** ** [adapters/bwfAdapter.js]: the date of a tournament *)

Module BwfAdapter.

Import Effects.
Local Open Scope string_scope.

(** [s.split(' ')[0]]. *)
Fixpoint before_space (s : string) : string :=
  match s with
  | EmptyString => EmptyString
  | String c rest => if Ascii.eqb c " "%char then EmptyString else String c (before_space rest)
  end.

(** [_parseDate(dateString)]: [null] for a falsy argument, a [TypeError]
    for a truthy one that is not a string (it has no [split]). *)
Definition _parseDate (dateString : Js.value) : result Js.value :=
  if negb (Js.truthy dateString) then inr Js.VNull
  else
    match dateString with
    | Js.VString s => inr (Js.VString (before_space s ++ "T00:00:00.000Z"))
    | _ => inl TypeError
    end.

End BwfAdapter.

(* ================================================================== *)
(** ** [index.js]: the run over the sports *)

Module Main.

Import Effects Data World SyncService.
Local Open Scope eff_scope.

(** How the [try] block of one sport ended. *)
Inductive SportOutcome : Type :=
| Synced (syncResult : SyncResult)
| NoAdapter
| SportFailed (error : JsError).

Section WithPipeline.

Context {W : Type} {env : Env W}.

(** The raw data of a source, the data read back from the local files and
    the adapters of [adapterFactory.js]. *)
Variables Raw Local Adapter : Type.

(** [fetchApiIndex()] followed by [apiIndex.apis.map(api => api.id)]. *)
Variable fetchSportIds : Eff W (list string).
(** [fetchTournamentData(sportId)]. *)
Variable fetchTournamentData : string -> Eff W Raw.
(** [saveRawTournamentData(sportId, rawTournamentData)]. *)
Variable saveRawTournamentData : string -> Raw -> Eff W unit.
(** [getAdapter(sportId)]; [None] is a falsy adapter. *)
Variable getAdapter : string -> result (option Adapter).
(** [loadLocalTournamentData(sportId)]. *)
Variable loadLocalTournamentData : string -> Eff W Local.
(** [adapter.standardize(localData)]. *)
Variable standardize : Adapter -> Local -> result (list Event).

(** The body of the loop of [main] for one sport, with its [try] and
    [catch]. *)
Definition processSport (sportId : string) : Eff W SportOutcome :=
  try_catch
    (rawTournamentData <- fetchTournamentData sportId ;;
     _ <- saveRawTournamentData sportId rawTournamentData ;;
     adapter <- lift (getAdapter sportId) ;;
     match adapter with
     | None => ret NoAdapter
     | Some adapter =>
         localData <- loadLocalTournamentData sportId ;;
         standardizedData <- lift (standardize adapter localData) ;;
         syncResult <- syncWithCalendar sportId standardizedData ;;
         ret (Synced syncResult)
     end)
    (fun error => ret (SportFailed error)).

(** The loop of [main], returned with how each sport ended. *)
Fixpoint processSports (sportIds : list string) : Eff W (list (string * SportOutcome)) :=
  match sportIds with
  | [] => ret []
  | sportId :: rest =>
      outcome <- processSport sportId ;;
      outcomes <- processSports rest ;;
      ret ((sportId, outcome) :: outcomes)
  end.

(** [main(sportIds)]: it returns [{ success: true }], here with how each
    sport ended, or throws. *)
Definition main (sportIds : list string) : Eff W (list (string * SportOutcome)) :=
  sportIds <- (match sportIds with
               | [] => fetchSportIds
               | _ :: _ => ret sportIds
               end) ;;
  processSports sportIds.

End WithPipeline.

End Main.

(* ================================================================== *)
(** ** Reading the extra properties *)

Module ExtraSpec.

Import Data.
Local Open Scope string_scope.

(** A lowercase hexadecimal digit. *)
Definition is_hex (c : ascii) : bool :=
  let n := N_of_ascii c in
  ((48 <=? n) && (n <=? 57) || (97 <=? n) && (n <=? 102))%N.

(** Every character of the string is a lowercase hexadecimal digit. *)
Fixpoint all_hex (s : string) : bool :=
  match s with
  | EmptyString => true
  | String c rest => is_hex c && all_hex rest
  end.

(** [state.sports[sportId]?.events[eventId]]. *)
Definition record (state : SyncState) (sportId eventId : string) : option SyncRecord :=
  match Dict.get (sports state) sportId with
  | Some sportState => Dict.get (events sportState) eventId
  | None => None
  end.

(** The calendar date V8 reads in [YYYY-MM-DD]: a day the month does not
    have is carried into the next month. *)
Definition carried (y m d : Z) : Z * Z * Z :=
  if (d <=? JsDate.DaysInMonth y m)%Z then (y, m, d)
  else (y, (m + 1)%Z, (d - JsDate.DaysInMonth y m)%Z).

(** [k] failed writes of a file from iteration [i] on, each with the wait
    that follows it. *)
Fixpoint failed_attempts (filePath : string) (i : Z) (k : nat) : list Logged.Step :=
  match k with
  | O => []
  | S k' =>
      Logged.WriteFile filePath false :: Logged.Sleep (1000 * (i + 1))
        :: failed_attempts filePath (i + 1)%Z k'
  end.

(** The last event of the list with the given id. *)
Definition last_with_id (k : string) (localEvents : list Event) : option Event :=
  find (fun e => String.eqb (id e) k) (rev localEvents).

(** The ids of the list, each at its first place. *)
Fixpoint first_ids (seen : list string) (localEvents : list Event) : list string :=
  match localEvents with
  | [] => []
  | e :: rest =>
      if existsb (String.eqb (id e)) seen then first_ids seen rest
      else id e :: first_ids (id e :: seen) rest
  end.

(** No [undefined] inside the value: [JSON.stringify] leaves nothing out. *)
Fixpoint defined (v : Js.value) : bool :=
  match v with
  | Js.VUndefined => false
  | Js.VNull | Js.VBool _ | Js.VString _ => true
  | Js.VObject props =>
      (fix all (ps : list (string * Js.value)) : bool :=
         match ps with
         | [] => true
         | (_, v') :: rest => defined v' && all rest
         end) props
  end.

(** The members [JSON.stringify] writes for the properties of an object. *)
Fixpoint members (ps : list (string * Js.value)) : list string :=
  match ps with
  | [] => []
  | (k, v) :: rest =>
      match Js.stringify v with
      | None => members rest
      | Some s => (Js.quote k ++ ":" ++ s) :: members rest
      end
  end.

(** What follows the first member of an object. *)
Definition rest_of (ms : list string) : string :=
  match ms with
  | [] => ""
  | _ :: _ => "," ++ String.concat "," ms
  end.

(** Reading one escaped code unit back. *)
Definition unhex (c : ascii) : option N :=
  let n := N_of_ascii c in
  if ((48 <=? n) && (n <=? 57))%N then Some (n - 48)%N
  else if ((97 <=? n) && (n <=? 102))%N then Some (n - 87)%N
  else None.

Definition unescape (s : string) : option (ascii * string) :=
  match s with
  | EmptyString => None
  | String c rest =>
      if Ascii.eqb c Js.dquote then None
      else if Ascii.eqb c Js.backslash then
        match rest with
        | EmptyString => None
        | String x rest' =>
            if Ascii.eqb x Js.dquote then Some (Js.dquote, rest')
            else if Ascii.eqb x Js.backslash then Some (Js.backslash, rest')
            else if Ascii.eqb x "b" then Some (ascii_of_N 8, rest')
            else if Ascii.eqb x "t" then Some (ascii_of_N 9, rest')
            else if Ascii.eqb x "n" then Some (ascii_of_N 10, rest')
            else if Ascii.eqb x "f" then Some (ascii_of_N 12, rest')
            else if Ascii.eqb x "r" then Some (ascii_of_N 13, rest')
            else if Ascii.eqb x "u" then
              match rest' with
              | String _ (String _ (String h1 (String h2 rest''))) =>
                  match unhex h1, unhex h2 with
                  | Some a, Some b => Some (ascii_of_N (16 * a + b), rest'')
                  | _, _ => None
                  end
              | _ => None
              end
            else None
        end
      else Some (c, rest)
  end.

End ExtraSpec.

(* ================================================================== *)
(** ** Reading the hash: projected and excluded fields, examples *)

Module HashSpec.

Import Js.
Local Open Scope string_scope.

(** The fields the hash projects, and the value each takes when the event
    has none. *)
Definition projectedFields : list string :=
  ["name"; "dateStart"; "dateEnd"; "location"; "category"; "level"; "prize"; "url"].

Definition absentDefault (field : string) : value :=
  if String.eqb field "location" then VObject [] else VString "".

(** The fields the hash leaves out. *)
Definition excludedFields : list string := ["description"; "lastUpdated"; "source"].

(** A tournament and the same tournament with the properties of its
    [location] listed in another order. *)
Definition tournament (location : object) : object :=
  [ ("name", VString "PETRONAS Malaysia Open 2025");
    ("dateStart", VString "2025-01-07T00:00:00.000Z");
    ("dateEnd", VString "2025-01-12T00:00:00.000Z");
    ("location", VObject location);
    ("category", VString "HSBC BWF World Tour Super 1000");
    ("level", VString "Super 1000");
    ("prize", VString "1,450,000");
    ("url", VString "https://bwf.example/5222") ].

Definition locationA : object :=
  [ ("city", VString "Kuala Lumpur"); ("country", VString "Malaysia");
    ("venue", VString "Kuala Lumpur, Malaysia") ].

Definition locationB : object :=
  [ ("venue", VString "Kuala Lumpur, Malaysia"); ("city", VString "Kuala Lumpur");
    ("country", VString "Malaysia") ].

End HashSpec.

(* ================================================================== *)
(** ** Reading a trace *)

Module TraceSpec.

Import Effects Data SyncService.

Definition is_create (d : Decision) : bool :=
  match d with CREATE _ => true | _ => false end.

Definition is_update (d : Decision) : bool :=
  match d with UPDATE _ _ => true | _ => false end.

Definition is_skip (d : Decision) : bool :=
  match d with SKIP _ => true | _ => false end.

Definition is_delete (d : Decision) : bool :=
  match d with DELETE _ _ => true | _ => false end.

(** The number of entries of kind [p] whose [try] block completed. *)
Definition count_done (p : Decision -> bool) (T : Trace) : nat :=
  List.length (filter (fun x => p (fst x) && succeeded (snd x)) T).

(** The number of entries whose [try] block threw. *)
Definition failures (T : Trace) : nat :=
  List.length (filter (fun x => negb (succeeded (snd x))) T).

(** The statistics a trace amounts to. *)
Definition tally (T : Trace) : Stats :=
  mkStats (count_done is_create T) (count_done is_update T)
          (count_done is_delete T) (count_done is_skip T).

Definition add_stats (a b : Stats) : Stats :=
  mkStats (created a + created b) (updated a + updated b)
          (deleted a + deleted b) (unchanged a + unchanged b).

(** What a second pass over the same events has to decide for an entry of
    the first: a failed operation again, [SKIP] for an event that was
    created, updated or skipped, nothing for an orphan that was deleted. *)
Definition retry (x : Decision * Outcome) : list Decision :=
  match x with
  | (d, Threw _) => [d]
  | (CREATE e, Done) => [SKIP e]
  | (UPDATE _ e, Done) => [SKIP e]
  | (SKIP e, Done) => [SKIP e]
  | (DELETE _ _, Done) => []
  end.

(** The relation between the record [prior] of an event before its
    iteration of the first loop, the trace entry [d] of that iteration and
    the record [post] after it. *)
Definition local_rel (prior : option SyncRecord) (e : Event)
  (d : Decision * Outcome) (post : option SyncRecord) : Prop :=
  let h := HashUtils.calculateEventHash (fields e) in
  match prior with
  | None =>
      fst d = CREATE e /\
      match snd d with
      | Done => exists gid ts, post = Some (mkSyncRecord gid ts h)
      | Threw _ => post = None
      end
  | Some r =>
      if String.eqb (hash r) h then d = (SKIP e, Done) /\ post = Some r
      else
        fst d = UPDATE r e /\
        match snd d with
        | Done => exists ts, post = Some (mkSyncRecord (googleEventId r) ts h)
        | Threw _ => post = Some r
        end
  end.

(** The same for an iteration of the second loop on an orphaned id. *)
Definition delete_rel (prior : option SyncRecord) (eventId : string)
  (d : Decision * Outcome) (post : option SyncRecord) : Prop :=
  fst d = DELETE eventId prior /\
  match snd d with
  | Done => prior <> None /\ post = None
  | Threw _ => post = prior
  end.

(** The existence check ended with a definitive not-found:
    [error.code === 404]. *)
Definition not_found (o : Outcome) : bool :=
  match o with
  | Done => false
  | Threw error => code_is error (NumCode 404)
  end.

(** The ids of the state that the local events do not have. *)
Definition orphans (evs : Dict.t SyncRecord) (localEvents : list Event) : list string :=
  filter (fun k => negb (Dict.has (localEventsMap localEvents) k)) (Dict.keys evs).

End TraceSpec.

(* ================================================================== *)
(** ** The calls of a decision *)

Module CallSpec.

Import Effects Data SyncService Logged.

(** The calls on the calendar client and the clock that a decision of the
    pass makes, for the calendar [calendarId]: an event that
    [buildEventData] rejects is not sent; a CREATE or an UPDATE that
    completes reads the clock for [lastSynced]. *)
Definition calls_of (calendarId : string) (x : Decision * Outcome) : list Step :=
  match x with
  | (CREATE event, o) =>
      match buildEventData event with
      | inr eventData =>
          EventsInsert calendarId eventData :: (if succeeded o then [Now] else [])
      | inl _ => []
      end
  | (UPDATE existingSync event, o) =>
      match buildEventData event with
      | inr eventData =>
          EventsUpdate calendarId (googleEventId existingSync) eventData
            :: (if succeeded o then [Now] else [])
      | inl _ => []
      end
  | (SKIP _, _) => []
  | (DELETE _ (Some syncData), _) => [EventsDelete calendarId (googleEventId syncData)]
  | (DELETE _ None, _) => []
  end.

(** What some iterations add to the trace and to the log of calls. *)
Definition traced_calls {W : Type} (calendarId : string)
    (st st' : Loop (W := W * list Step)) : Prop :=
  exists T,
    trace st' = trace st ++ T
    /\ snd (loopWorld st') = snd (loopWorld st) ++ flat_map (calls_of calendarId) T.

End CallSpec.

(* ================================================================== *)
(** * Properties *)

(** ** Dictionaries *)

Module DictFacts.

Section Facts.

Variable A : Type.

Implicit Types (m : Dict.t A) (k : string) (v : A).

Lemma get_set_eq m k v : Dict.get (Dict.set m k v) k = Some v.
Proof.
  induction m as [|[k' v'] m IH]; simpl.
  - now rewrite String.eqb_refl.
  - destruct (String.eqb k' k) eqn:E; simpl; rewrite E; auto.
Qed.

Lemma get_set_neq m k k' v : k <> k' -> Dict.get (Dict.set m k v) k' = Dict.get m k'.
Proof.
  intros Hne. induction m as [|[k0 v0] m IH]; simpl.
  - destruct (String.eqb_spec k k'); congruence.
  - destruct (String.eqb_spec k0 k) as [->|Hk]; simpl.
    + destruct (String.eqb_spec k k'); congruence.
    + now rewrite IH.
Qed.

Lemma get_delete_eq m k : Dict.get (Dict.delete m k) k = None.
Proof.
  induction m as [|[k' v'] m IH]; simpl; auto.
  destruct (String.eqb_spec k' k) as [->|Hk]; simpl; auto.
  destruct (String.eqb_spec k' k); congruence.
Qed.

Lemma get_delete_neq m k k' : k <> k' -> Dict.get (Dict.delete m k) k' = Dict.get m k'.
Proof.
  intros Hne. induction m as [|[k0 v0] m IH]; simpl; auto.
  destruct (String.eqb_spec k0 k) as [->|Hk]; simpl.
  - destruct (String.eqb_spec k k'); congruence.
  - now rewrite IH.
Qed.

Lemma get_none_iff m k : Dict.get m k = None <-> ~ In k (Dict.keys m).
Proof.
  induction m as [|[k' v'] m IH]; simpl.
  - tauto.
  - destruct (String.eqb_spec k' k) as [->|Hk].
    + split; [discriminate | intros H; exfalso; apply H; now left].
    + rewrite IH. split; [intros H [H1|H1]; congruence | tauto].
Qed.

Lemma get_some_in m k v : Dict.get m k = Some v -> In k (Dict.keys m).
Proof.
  intros H. destruct (in_dec string_dec k (Dict.keys m)) as [|Hn]; auto.
  apply get_none_iff in Hn. congruence.
Qed.

Lemma in_keys_get m k : In k (Dict.keys m) -> exists v, Dict.get m k = Some v.
Proof.
  intros H. destruct (Dict.get m k) eqn:E; eauto.
  apply get_none_iff in E. contradiction.
Qed.

Lemma get_in m k v : Dict.get m k = Some v -> In (k, v) m.
Proof.
  induction m as [|[k' v'] m IH]; simpl; [discriminate|].
  destruct (String.eqb_spec k' k) as [->|Hk]; intros H.
  - left. congruence.
  - right. auto.
Qed.

Lemma in_get m k v : NoDup (Dict.keys m) -> In (k, v) m -> Dict.get m k = Some v.
Proof.
  induction m as [|[k' v'] m IH]; simpl; [tauto|].
  intros Hnd [H|H]; inversion Hnd as [|? ? Hnotin Hnd']; subst.
  - inversion H; subst. now rewrite String.eqb_refl.
  - destruct (String.eqb_spec k' k) as [->|Hk]; auto.
    exfalso. apply Hnotin. change (In (fst (k, v)) (map fst m)). now apply in_map.
Qed.

Lemma has_true_iff m k : Dict.has m k = true <-> In k (Dict.keys m).
Proof.
  unfold Dict.has. destruct (Dict.get m k) eqn:E.
  - split; auto. intros _. eapply get_some_in; eauto.
  - apply get_none_iff in E. split; [discriminate | contradiction].
Qed.

Lemma has_false_iff m k : Dict.has m k = false <-> ~ In k (Dict.keys m).
Proof.
  rewrite <- has_true_iff. destruct (Dict.has m k); split; congruence.
Qed.

Lemma keys_set_present m k v :
  In k (Dict.keys m) -> Dict.keys (Dict.set m k v) = Dict.keys m.
Proof.
  induction m as [|[k' v'] m IH]; simpl; [tauto|].
  intros H. destruct (String.eqb_spec k' k) as [->|Hk]; simpl; auto.
  f_equal. apply IH. destruct H; congruence.
Qed.

Lemma keys_set_absent m k v :
  ~ In k (Dict.keys m) -> Dict.keys (Dict.set m k v) = Dict.keys m ++ [k].
Proof.
  induction m as [|[k' v'] m IH]; simpl; auto.
  intros H. destruct (String.eqb_spec k' k) as [->|Hk]; simpl.
  - exfalso. auto.
  - f_equal. auto.
Qed.

Lemma keys_delete m k :
  Dict.keys (Dict.delete m k) = filter (fun k' => negb (String.eqb k' k)) (Dict.keys m).
Proof.
  induction m as [|[k' v'] m IH]; simpl; auto.
  destruct (String.eqb k' k); simpl; now rewrite IH.
Qed.

Lemma length_set_present m k v :
  In k (Dict.keys m) -> List.length (Dict.set m k v) = List.length m.
Proof.
  intros H. rewrite <- (length_map fst (Dict.set m k v)), <- (length_map fst m).
  fold (Dict.keys (Dict.set m k v)) (Dict.keys m). now rewrite keys_set_present.
Qed.

Lemma NoDup_keys_set m k v : NoDup (Dict.keys m) -> NoDup (Dict.keys (Dict.set m k v)).
Proof.
  intros Hnd. destruct (in_dec string_dec k (Dict.keys m)) as [Hin|Hn].
  - now rewrite keys_set_present.
  - rewrite keys_set_absent by assumption.
    apply NoDup_app; auto.
    + constructor; [simpl; tauto | constructor].
    + intros x Hx [<-|[]]. contradiction.
Qed.

Lemma NoDup_keys_delete m k : NoDup (Dict.keys m) -> NoDup (Dict.keys (Dict.delete m k)).
Proof.
  intros Hnd. rewrite keys_delete. now apply NoDup_filter.
Qed.

Lemma in_keys_set m k v x :
  In x (Dict.keys (Dict.set m k v)) <-> In x (Dict.keys m) \/ x = k.
Proof.
  destruct (in_dec string_dec k (Dict.keys m)) as [Hin|Hn].
  - rewrite keys_set_present by assumption. split; [tauto | intros [H| ->]; assumption].
  - rewrite keys_set_absent by assumption. rewrite in_app_iff. simpl.
    split; intros [H|H]; auto; destruct H as [H|[]]; auto.
Qed.

Lemma in_set m k v k' v' :
  In (k', v') (Dict.set m k v) -> In (k', v') m \/ (k', v') = (k, v).
Proof.
  induction m as [|[k0 v0] m IH]; simpl.
  - intros [H|[]]. right. congruence.
  - destruct (String.eqb_spec k0 k) as [->|Hk]; simpl; intros [H|H]; auto.
    destruct (IH H); auto.
Qed.

Lemma set_absent m k v : ~ In k (Dict.keys m) -> Dict.set m k v = m ++ [(k, v)].
Proof.
  induction m as [|[k' v'] m IH]; simpl; auto.
  intros H. destruct (String.eqb_spec k' k) as [->|Hk].
  - exfalso. auto.
  - f_equal. auto.
Qed.

End Facts.

End DictFacts.

(** ** The two loops of [syncWithCalendar] *)

Unset Implicit Arguments.

Module SyncFacts.

Import Effects Data World SyncService TraceSpec.
Local Open Scope string_scope.
Local Open Scope list_scope.

Lemma tally_app (T1 T2 : Trace) : tally (T1 ++ T2) = add_stats (tally T1) (tally T2).
Proof.
  unfold tally, add_stats, count_done; simpl.
  now rewrite !filter_app, !length_app.
Qed.

Lemma add_stats_assoc (a b c : Stats) :
  add_stats (add_stats a b) c = add_stats a (add_stats b c).
Proof. unfold add_stats; simpl. f_equal; lia. Qed.

Lemma add_stats_zero (a : Stats) : add_stats (mkStats 0 0 0 0) a = a.
Proof. destruct a; reflexivity. Qed.

Lemma failures_app (T1 T2 : Trace) : failures (T1 ++ T2) = failures T1 + failures T2.
Proof. unfold failures. now rewrite filter_app, length_app. Qed.

Lemma Forall2_impl_in {A B : Type} (R1 R2 : A -> B -> Prop) (l1 : list A) (l2 : list B) :
  (forall a b, In a l1 -> R1 a b -> R2 a b) -> Forall2 R1 l1 l2 -> Forall2 R2 l1 l2.
Proof.
  intros H HF. induction HF as [|a b l1 l2 Hab HF IH]; constructor.
  - apply H; [now left | assumption].
  - apply IH. intros a' b' Hin. apply H. now right.
Qed.

Lemma Forall2_in_r {A B : Type} (R : A -> B -> Prop) (l1 : list A) (l2 : list B) (b : B) :
  Forall2 R l1 l2 -> In b l2 -> exists a, In a l1 /\ R a b.
Proof.
  intros HF. induction HF as [|a b' l1 l2 Hab HF IH]; simpl; [tauto|].
  intros [<-|Hin].
  - exists a. auto.
  - destruct (IH Hin) as [a' [Ha' HR]]. exists a'. auto.
Qed.

Lemma Forall2_in_l {A B : Type} (R : A -> B -> Prop) (l1 : list A) (l2 : list B) (a : A) :
  Forall2 R l1 l2 -> In a l1 -> exists b, In b l2 /\ R a b.
Proof.
  intros HF. induction HF as [|a' b l1 l2 Hab HF IH]; simpl; [tauto|].
  intros [<-|Hin].
  - exists b. auto.
  - destruct (IH Hin) as [b' [Hb' HR]]. exists b'. auto.
Qed.

Lemma filter_all {A : Type} (f : A -> bool) (l : list A) :
  (forall x, In x l -> f x = true) -> filter f l = l.
Proof.
  induction l as [|a l IH]; simpl; intros H; auto.
  rewrite (H a) by now left. f_equal. apply IH. intros x Hx. apply H. now right.
Qed.

Lemma filter_none {A : Type} (f : A -> bool) (l : list A) :
  (forall x, In x l -> f x = false) -> filter f l = [].
Proof.
  induction l as [|a l IH]; simpl; intros H; auto.
  rewrite (H a) by now left. apply IH. intros x Hx. apply H. now right.
Qed.

Lemma filter_filter {A : Type} (f g : A -> bool) (l : list A) :
  filter f (filter g l) = filter (fun x => g x && f x) l.
Proof.
  induction l as [|a l IH]; simpl; auto.
  destruct (g a); simpl; [destruct (f a)|]; now rewrite IH.
Qed.

(** *** [localEventsMap] *)

Lemma localEventsMap_acc_NoDup (E : list Event) :
  forall acc, NoDup (Dict.keys acc) ->
  NoDup (Dict.keys (fold_left (fun m event => Dict.set m (id event) event) E acc)).
Proof.
  induction E as [|e E IH]; intros acc H; simpl; auto.
  apply IH. now apply DictFacts.NoDup_keys_set.
Qed.

Lemma localEventsMap_NoDup (E : list Event) : NoDup (Dict.keys (localEventsMap E)).
Proof. apply localEventsMap_acc_NoDup. constructor. Qed.

Lemma localEventsMap_acc_keys (E : list Event) :
  forall acc k,
  In k (Dict.keys (fold_left (fun m event => Dict.set m (id event) event) E acc))
  <-> In k (Dict.keys acc) \/ In k (map id E).
Proof.
  induction E as [|e E IH]; intros acc k; simpl.
  - tauto.
  - rewrite IH, DictFacts.in_keys_set. intuition congruence.
Qed.

Lemma localEventsMap_keys (E : list Event) k :
  In k (Dict.keys (localEventsMap E)) <-> In k (map id E).
Proof. unfold localEventsMap. rewrite localEventsMap_acc_keys. simpl. tauto. Qed.

Lemma localEventsMap_acc_entries (E : list Event) :
  forall acc,
  (forall k e, In (k, e) acc -> k = id e) ->
  forall k e, In (k, e) (fold_left (fun m event => Dict.set m (id event) event) E acc) ->
  k = id e.
Proof.
  induction E as [|e0 E IH]; intros acc H k e; simpl; auto.
  apply IH. intros k' e' Hin. apply DictFacts.in_set in Hin.
  destruct Hin as [Hin|Hin]; [auto | congruence].
Qed.

Lemma localEventsMap_entries (E : list Event) k e :
  In (k, e) (localEventsMap E) -> k = id e.
Proof. apply localEventsMap_acc_entries. intros ? ? []. Qed.

Lemma localEventsMap_acc_unique (E : list Event) :
  forall acc,
  NoDup (map id E) -> (forall e, In e E -> ~ In (id e) (Dict.keys acc)) ->
  fold_left (fun m event => Dict.set m (id event) event) E acc
  = acc ++ map (fun e => (id e, e)) E.
Proof.
  induction E as [|e E IH]; intros acc Hnd Hfresh; simpl.
  - now rewrite app_nil_r.
  - inversion Hnd as [|? ? Hnotin Hnd']; subst.
    rewrite IH; auto.
    + rewrite DictFacts.set_absent by (apply Hfresh; now left).
      now rewrite <- app_assoc.
    + intros e' He' Hin. apply DictFacts.in_keys_set in Hin. destruct Hin as [Hin|Hin].
      * apply (Hfresh e'); [now right | assumption].
      * apply Hnotin. rewrite <- Hin. now apply in_map.
Qed.

Lemma localEventsMap_acc_entries_in (E : list Event) :
  forall acc k e,
  In (k, e) (fold_left (fun m event => Dict.set m (id event) event) E acc) ->
  In (k, e) acc \/ In e E.
Proof.
  induction E as [|e0 E IH]; intros acc k e; cbn [fold_left]; auto.
  intros H. apply IH in H. destruct H as [H|H]; [|right; now right].
  apply DictFacts.in_set in H. destruct H as [H|H]; [now left|].
  right. left. congruence.
Qed.

Lemma localEventsMap_entries_in (E : list Event) k e :
  In (k, e) (localEventsMap E) -> In e E.
Proof.
  intros H. apply localEventsMap_acc_entries_in in H. destruct H as [[]|H]. exact H.
Qed.

(** With pairwise distinct ids the map lists the events as given. *)
Lemma localEventsMap_unique (E : list Event) :
  NoDup (map id E) -> localEventsMap E = map (fun e => (id e, e)) E.
Proof.
  intros H. unfold localEventsMap. rewrite localEventsMap_acc_unique; auto.
Qed.

(** *** Reading the two relations off a trace entry *)

Lemma local_rel_inv (prior post : option SyncRecord) (e : Event) (d : Decision * Outcome) :
  local_rel prior e d post ->
  match d with
  | (CREATE e', Done) =>
      e' = e /\ prior = None
      /\ exists gid ts,
           post = Some (mkSyncRecord gid ts (HashUtils.calculateEventHash (fields e)))
  | (CREATE e', Threw _) => e' = e /\ prior = None /\ post = None
  | (UPDATE r e', Done) =>
      e' = e /\ prior = Some r
      /\ String.eqb (hash r) (HashUtils.calculateEventHash (fields e)) = false
      /\ exists ts,
           post = Some (mkSyncRecord (googleEventId r) ts
                          (HashUtils.calculateEventHash (fields e)))
  | (UPDATE r e', Threw _) =>
      e' = e /\ prior = Some r
      /\ String.eqb (hash r) (HashUtils.calculateEventHash (fields e)) = false
      /\ post = Some r
  | (SKIP e', Done) =>
      e' = e
      /\ exists r, prior = Some r
                   /\ String.eqb (hash r) (HashUtils.calculateEventHash (fields e)) = true
                   /\ post = Some r
  | (SKIP _, Threw _) => False
  | (DELETE _ _, _) => False
  end.
Proof.
  unfold local_rel. cbv zeta. destruct d as [dd o]. cbn [fst snd].
  destruct prior as [r|].
  - destruct (String.eqb (hash r) (HashUtils.calculateEventHash (fields e))) eqn:Hh.
    + intros [Hd ->]. inversion Hd; subst. eauto.
    + intros [-> Hp]. destruct o; auto.
  - intros [-> Hp]. destruct o; auto.
Qed.

Lemma delete_rel_inv (prior post : option SyncRecord) (k : string) (d : Decision * Outcome) :
  delete_rel prior k d post ->
  match d with
  | (DELETE k' syncData, Done) => k' = k /\ syncData = prior /\ prior <> None /\ post = None
  | (DELETE k' syncData, Threw _) => k' = k /\ syncData = prior /\ post = prior
  | _ => False
  end.
Proof.
  unfold delete_rel. destruct d as [dd o]. cbn [fst snd].
  intros [-> Hp]. destruct o; intuition.
Qed.

(** *** What a second pass decides *)

Lemma local_rel_retry (a b c : option SyncRecord) (e : Event) (d d' : Decision * Outcome) :
  local_rel a e d b -> local_rel b e d' c -> [fst d'] = retry d.
Proof.
  unfold local_rel. generalize (HashUtils.calculateEventHash (fields e)). intros h.
  destruct d as [dd o]. cbn [fst snd].
  destruct a as [r|].
  - destruct (String.eqb (hash r) h) eqn:Hh.
    + intros [Hd ->]. inversion Hd; subst. rewrite Hh. intros [-> _]. reflexivity.
    + intros [-> Hb]. destruct o as [|err].
      * destruct Hb as [ts ->]. cbn [hash]. rewrite String.eqb_refl.
        intros [-> _]. reflexivity.
      * subst b. rewrite Hh. intros [-> _]. reflexivity.
  - intros [-> Hb]. destruct o as [|err].
    + destruct Hb as (gid & ts & ->). cbn [hash]. rewrite String.eqb_refl.
      intros [-> _]. reflexivity.
    + subst b. intros [-> _]. reflexivity.
Qed.

Lemma retry_local_all (M : Dict.t Event) (p0 p2 p4 : string * Event -> option SyncRecord) :
  forall T1 T3,
  Forall2 (fun entry d => local_rel (p0 entry) (snd entry) d (p2 entry)) M T1 ->
  Forall2 (fun entry d => local_rel (p2 entry) (snd entry) d (p4 entry)) M T3 ->
  map fst T3 = flat_map retry T1.
Proof.
  induction M as [|entry M IH]; intros T1 T3 H1 H3;
    inversion H1; subst; inversion H3; subst; cbn [map flat_map].
  - reflexivity.
  - erewrite <- local_rel_retry by eassumption.
    cbn [app]. f_equal. now apply IH.
Qed.

Lemma retry_delete_all (O : list string) (p0 p2 p4 : string -> option SyncRecord) :
  forall T2 T4,
  (forall k, In k O -> p0 k <> None) ->
  Forall2 (fun k d => delete_rel (p0 k) k d (p2 k)) O T2 ->
  Forall2 (fun k d => delete_rel (p2 k) k d (p4 k))
          (filter (fun k => match p2 k with Some _ => true | None => false end) O) T4 ->
  map fst T4 = flat_map retry T2.
Proof.
  induction O as [|k O IH]; intros T2 T4 Hp H2 H4; inversion H2 as [|? d ? T2' Hd H2']; subst.
  - cbn [filter] in H4. inversion H4; subst. reflexivity.
  - cbn [filter flat_map] in *. unfold delete_rel in Hd.
    destruct d as [dd o]. cbn [fst snd] in Hd. destruct Hd as [-> Hpost].
    assert (Hp' : forall k', In k' O -> p0 k' <> None) by (intros; apply Hp; now right).
    destruct o as [|err].
    + destruct Hpost as [_ Hpost]. rewrite Hpost in H4. cbn [retry app].
      now apply IH.
    + rewrite Hpost in H4.
      destruct (p0 k) as [r|] eqn:Hk; [|exfalso; apply (Hp k); [now left | assumption]].
      inversion H4 as [|? d4 ? T4' Hd4 H4']; subst.
      unfold delete_rel in Hd4. destruct Hd4 as [Hd4 _].
      rewrite Hpost in Hd4. cbn [map retry app]. rewrite Hd4. f_equal.
      now apply IH.
Qed.

Section WithEnv.

Context {W : Type} {env : Env W}.

Implicit Types (st : Loop (W := W)) (evs : Dict.t SyncRecord) (w : W).

(** *** One iteration of the first loop *)

Lemma syncLocalEvent_step calId st k e :
  let st' := syncLocalEvent calId st (k, e) in
  exists d extra,
    trace st' = trace st ++ [d]
    /\ local_rel (Dict.get (loopEvents st) k) e d (Dict.get (loopEvents st') k)
    /\ (forall k', k' <> k -> Dict.get (loopEvents st') k' = Dict.get (loopEvents st) k')
    /\ Dict.keys (loopEvents st') = Dict.keys (loopEvents st) ++ extra
    /\ (forall x, In x extra -> x = k)
    /\ loopStats st' = add_stats (loopStats st) (tally [d]).
Proof.
  destruct st as [w evs sts tr]. cbv zeta. unfold syncLocalEvent, local_rel.
  generalize (HashUtils.calculateEventHash (fields e)). intros h.
  destruct sts as [c u dl un]. cbn [trace loopEvents loopStats].
  destruct (Dict.get evs k) as [r|] eqn:Hget.
  - destruct (String.eqb (hash r) h) eqn:Hh; cbn [negb].
    + exists (SKIP e, Done), [].
      cbn [trace loopEvents loopStats]. rewrite Hget, app_nil_r.
      repeat split; auto.
      * intros x [].
      * unfold add_stats; cbn. f_equal; lia.
    + destruct (updateCalendarEvent calId (googleEventId r) e w) as [w1 [err|[]]].
      * exists (UPDATE r e, Threw err), [].
        cbn [trace loopEvents loopStats fst snd]. rewrite Hget, app_nil_r.
        repeat split; auto.
        -- intros x [].
        -- unfold add_stats; cbn. f_equal; lia.
      * destruct (now w1) as [w2 ts].
        exists (UPDATE r e, Done), [].
        cbn [trace loopEvents loopStats fst snd].
        rewrite DictFacts.get_set_eq, app_nil_r.
        split; [reflexivity|]. split; [split; eauto|].
        split; [intros k' Hk'; apply DictFacts.get_set_neq; congruence|].
        split; [apply DictFacts.keys_set_present; eapply DictFacts.get_some_in; eauto|].
        split; [intros x []|].
        unfold add_stats; cbn. f_equal; lia.
  - destruct (createCalendarEvent calId e w) as [w1 [err|gid]].
    + exists (CREATE e, Threw err), [].
      cbn [trace loopEvents loopStats fst snd]. rewrite Hget, app_nil_r.
      repeat split; auto.
      * intros x [].
      * unfold add_stats; cbn. f_equal; lia.
    + destruct (now w1) as [w2 ts].
      exists (CREATE e, Done), [k].
      cbn [trace loopEvents loopStats fst snd].
      rewrite DictFacts.get_set_eq.
      split; [reflexivity|]. split; [split; eauto|].
      split; [intros k' Hk'; apply DictFacts.get_set_neq; congruence|].
      split; [apply DictFacts.keys_set_absent; now apply DictFacts.get_none_iff|].
      split; [intros x [<-|[]]; reflexivity|].
      unfold add_stats; cbn. f_equal; lia.
Qed.

(** *** The first loop *)

Lemma syncLocal_fold calId (L : Dict.t Event) :
  forall st, NoDup (Dict.keys L) ->
  let st' := fold_left (syncLocalEvent calId) L st in
  exists T extra,
    trace st' = trace st ++ T
    /\ Forall2 (fun entry d =>
                  local_rel (Dict.get (loopEvents st) (fst entry)) (snd entry) d
                            (Dict.get (loopEvents st') (fst entry))) L T
    /\ (forall k, ~ In k (Dict.keys L) ->
          Dict.get (loopEvents st') k = Dict.get (loopEvents st) k)
    /\ Dict.keys (loopEvents st') = Dict.keys (loopEvents st) ++ extra
    /\ incl extra (Dict.keys L)
    /\ loopStats st' = add_stats (loopStats st) (tally T).
Proof.
  induction L as [|[k e] L IH]; intros st Hnd; cbv zeta.
  - exists [], []. cbn [fold_left]. rewrite !app_nil_r.
    repeat split; auto.
    + intros x [].
    + destruct (loopStats st); unfold add_stats; cbn. f_equal; lia.
  - cbn [fold_left]. inversion Hnd as [|? ? Hk HndL]; subst.
    destruct (syncLocalEvent_step calId st k e) as (d & ex1 & Ht & Hrel & Hoth & Hkeys & Hex & Hst).
    specialize (IH (syncLocalEvent calId st (k, e)) HndL). cbv zeta in IH.
    destruct IH as (T & ex2 & Ht' & HF & Hoth' & Hkeys' & Hex' & Hst').
    exists (d :: T), (ex1 ++ ex2).
    split; [rewrite Ht', Ht, <- app_assoc; reflexivity|].
    split.
    { constructor.
      - cbn [fst snd]. rewrite Hoth' by assumption. exact Hrel.
      - eapply Forall2_impl_in; [|exact HF].
        intros [k' e'] d' Hin Hr. cbn [fst snd] in *.
        rewrite Hoth in Hr; auto.
        intros ->. apply Hk. change (In (fst (k, e')) (map fst L)). now apply in_map. }
    split.
    { intros k' Hk'.
      rewrite Hoth' by (intros Hin; apply Hk'; right; exact Hin).
      apply Hoth. intros ->. apply Hk'. now left. }
    split; [rewrite Hkeys', Hkeys, <- app_assoc; reflexivity|].
    split.
    { intros x Hx. apply in_app_or in Hx. destruct Hx as [Hx|Hx].
      - left. symmetry. now apply Hex.
      - right. now apply Hex'. }
    rewrite Hst', Hst, add_stats_assoc. f_equal.
    change (d :: T) with ([d] ++ T). now rewrite tally_app.
Qed.

(** *** One iteration of the second loop *)

Lemma deleteOrphan_local calId (M : Dict.t Event) st k :
  Dict.has M k = true -> deleteOrphan calId M st k = st.
Proof.
  intros H. destruct st. unfold deleteOrphan. now rewrite H.
Qed.

Lemma deleteOrphan_step calId (M : Dict.t Event) st k :
  Dict.has M k = false ->
  let st' := deleteOrphan calId M st k in
  exists d,
    trace st' = trace st ++ [d]
    /\ delete_rel (Dict.get (loopEvents st) k) k d (Dict.get (loopEvents st') k)
    /\ (forall k', k' <> k -> Dict.get (loopEvents st') k' = Dict.get (loopEvents st) k')
    /\ Dict.keys (loopEvents st')
       = filter (Dict.has (loopEvents st')) (Dict.keys (loopEvents st))
    /\ loopStats st' = add_stats (loopStats st) (tally [d]).
Proof.
  intros HM. destruct st as [w evs sts tr]. cbv zeta.
  unfold deleteOrphan, delete_rel.
  rewrite HM. cbn [negb]. destruct sts as [c u dl un].
  assert (Hid : Dict.keys evs = filter (Dict.has evs) (Dict.keys evs)).
  { symmetry. apply filter_all. intros x Hx. now apply DictFacts.has_true_iff. }
  destruct (Dict.get evs k) as [r|] eqn:Hget.
  - destruct (deleteCalendarEvent calId (googleEventId r) w) as [w1 [err|[]]].
    + exists (DELETE k (Some r), Threw err).
      cbn [trace loopEvents loopStats fst snd]. rewrite Hget.
      repeat split; auto.
      unfold add_stats; cbn. f_equal; lia.
    + exists (DELETE k (Some r), Done).
      cbn [trace loopEvents loopStats fst snd]. rewrite DictFacts.get_delete_eq.
      split; [reflexivity|]. split; [repeat split; congruence|].
      split; [intros k' Hk'; apply DictFacts.get_delete_neq; congruence|].
      split.
      * rewrite DictFacts.keys_delete. apply filter_ext_in. intros x Hx.
        unfold Dict.has at 1.
        destruct (String.eqb_spec x k) as [->|Hne]; cbn [negb].
        -- now rewrite DictFacts.get_delete_eq.
        -- rewrite DictFacts.get_delete_neq by congruence.
           apply DictFacts.in_keys_get in Hx. destruct Hx as [v ->]. reflexivity.
      * unfold add_stats; cbn. f_equal; lia.
  - exists (DELETE k None, Threw TypeError).
    cbn [trace loopEvents loopStats fst snd]. rewrite Hget.
    repeat split; auto.
    unfold add_stats; cbn. f_equal; lia.
Qed.

(** *** The second loop *)

Lemma deleteOrphan_fold calId (M : Dict.t Event) (K : list string) :
  forall st, NoDup K ->
  let st' := fold_left (deleteOrphan calId M) K st in
  exists T,
    trace st' = trace st ++ T
    /\ Forall2 (fun k d =>
                  delete_rel (Dict.get (loopEvents st) k) k d (Dict.get (loopEvents st') k))
               (filter (fun k => negb (Dict.has M k)) K) T
    /\ (forall k, ~ In k K \/ Dict.has M k = true ->
          Dict.get (loopEvents st') k = Dict.get (loopEvents st) k)
    /\ Dict.keys (loopEvents st')
       = filter (Dict.has (loopEvents st')) (Dict.keys (loopEvents st))
    /\ loopStats st' = add_stats (loopStats st) (tally T).
Proof.
  induction K as [|k K IH]; intros st Hnd; cbv zeta.
  - exists []. cbn [fold_left filter]. rewrite app_nil_r.
    repeat split; auto.
    + symmetry. apply filter_all. intros x Hx. now apply DictFacts.has_true_iff.
    + destruct (loopStats st); unfold add_stats; cbn. f_equal; lia.
  - cbn [fold_left filter]. inversion Hnd as [|? ? Hk HndK]; subst.
    specialize (IH (deleteOrphan calId M st k) HndK). cbv zeta in IH.
    destruct IH as (T & Ht' & HF & Hoth' & Hkeys' & Hst').
    destruct (Dict.has M k) eqn:HM; cbn [negb].
    + rewrite deleteOrphan_local in * by assumption.
      exists T. repeat split; auto.
      intros k' [Hk'|Hk']; apply Hoth'; auto.
      left. intros Hin. apply Hk'. now right.
    + destruct (deleteOrphan_step calId M st k HM) as (d & Ht & Hrel & Hoth & Hkeys & Hst).
      exists (d :: T).
      split; [rewrite Ht', Ht, <- app_assoc; reflexivity|].
      split.
      { constructor.
        - rewrite Hoth' by (left; assumption). exact Hrel.
        - eapply Forall2_impl_in; [|exact HF].
          intros k' d' Hin Hr. cbv beta in *.
          rewrite Hoth in Hr; auto.
          intros ->. apply Hk. apply filter_In in Hin. tauto. }
      split.
      { intros k' Hk'. rewrite Hoth'.
        - apply Hoth. intros ->. destruct Hk' as [Hk'|Hk']; [apply Hk'; now left | congruence].
        - destruct Hk' as [Hk'|Hk']; [left | right; assumption].
          intros Hin. apply Hk'. now right. }
      split.
      { rewrite Hkeys', Hkeys, filter_filter. apply filter_ext_in. intros x Hx.
        destruct (Dict.has (loopEvents (fold_left (deleteOrphan calId M) K
                    (deleteOrphan calId M st k))) x) eqn:Hh.
        - rewrite andb_true_r.
          apply DictFacts.has_true_iff in Hh. rewrite Hkeys' in Hh.
          apply filter_In in Hh. destruct Hh as [Hh _].
          now apply DictFacts.has_true_iff.
        - apply andb_false_r. }
      rewrite Hst', Hst, add_stats_assoc. f_equal.
      change (d :: T) with ([d] ++ T). now rewrite tally_app.
Qed.

(** *** Keys stay pairwise distinct *)

Lemma syncLocalEvent_NoDup calId st entry :
  NoDup (Dict.keys (loopEvents st)) ->
  NoDup (Dict.keys (loopEvents (syncLocalEvent calId st entry))).
Proof.
  destruct st as [w evs sts tr], entry as [k e]. unfold syncLocalEvent.
  generalize (HashUtils.calculateEventHash (fields e)). intros h H.
  cbn [loopEvents] in H.
  destruct (Dict.get evs k) as [r|].
  - destruct (negb (String.eqb (hash r) h)); [|exact H].
    destruct (updateCalendarEvent calId (googleEventId r) e w) as [w1 [err|[]]]; [exact H|].
    destruct (now w1). cbn [loopEvents]. now apply DictFacts.NoDup_keys_set.
  - destruct (createCalendarEvent calId e w) as [w1 [err|gid]]; [exact H|].
    destruct (now w1). cbn [loopEvents]. now apply DictFacts.NoDup_keys_set.
Qed.

Lemma syncLocal_fold_NoDup calId (L : Dict.t Event) :
  forall st, NoDup (Dict.keys (loopEvents st)) ->
  NoDup (Dict.keys (loopEvents (fold_left (syncLocalEvent calId) L st))).
Proof.
  induction L as [|entry L IH]; intros st H; cbn [fold_left]; auto.
  apply IH. now apply syncLocalEvent_NoDup.
Qed.

(** *** Both loops *)

Lemma reconcile_spec calId evs (E : list Event) w :
  NoDup (Dict.keys evs) ->
  let M := localEventsMap E in
  let st := reconcile calId evs E w in
  exists T1 T2,
    trace (syncLocalEvents calId evs E w) = T1
    /\ trace st = T1 ++ T2
    /\ Forall2 (fun entry d =>
                  local_rel (Dict.get evs (fst entry)) (snd entry) d
                            (Dict.get (loopEvents st) (fst entry))) M T1
    /\ Forall2 (fun k d => delete_rel (Dict.get evs k) k d (Dict.get (loopEvents st) k))
               (orphans evs E) T2
    /\ (forall k, ~ In k (Dict.keys evs) -> ~ In k (Dict.keys M) ->
          Dict.get (loopEvents st) k = None)
    /\ NoDup (Dict.keys (loopEvents st))
    /\ orphans (loopEvents st) E = filter (Dict.has (loopEvents st)) (orphans evs E)
    /\ loopStats st = tally (T1 ++ T2).
Proof.
  intros Hnd M st. subst M st. unfold reconcile, syncLocalEvents.
  pose proof (syncLocal_fold calId (localEventsMap E) (mkLoop w evs (mkStats 0 0 0 0) [])
                (localEventsMap_NoDup E)) as H1.
  pose proof (syncLocal_fold_NoDup calId (localEventsMap E)
                (mkLoop w evs (mkStats 0 0 0 0) []) Hnd) as Hnd1.
  cbv zeta in H1.
  remember (fold_left (syncLocalEvent calId) (localEventsMap E)
              (mkLoop w evs (mkStats 0 0 0 0) [])) as st1 eqn:Est1.
  destruct H1 as (T1 & extra & Ht1 & HF1 & Hoth1 & Hk1 & Hex & Hs1).
  cbn [trace loopEvents loopStats app] in Ht1, HF1, Hoth1, Hk1, Hs1.
  pose proof (deleteOrphan_fold calId (localEventsMap E) (Dict.keys (loopEvents st1)) st1 Hnd1)
    as H2.
  cbv zeta in H2.
  remember (fold_left (deleteOrphan calId (localEventsMap E)) (Dict.keys (loopEvents st1)) st1)
    as st2 eqn:Est2.
  destruct H2 as (T2 & Ht2 & HF2 & Hoth2 & Hk2 & Hs2).
  assert (Hextra : filter (fun k => negb (Dict.has (localEventsMap E) k)) extra = []).
  { apply filter_none. intros x Hx. apply Hex in Hx.
    apply DictFacts.has_true_iff in Hx. now rewrite Hx. }
  assert (Horph : filter (fun k => negb (Dict.has (localEventsMap E) k))
                         (Dict.keys (loopEvents st1)) = orphans evs E).
  { rewrite Hk1, filter_app, Hextra, app_nil_r. reflexivity. }
  exists T1, T2.
  split; [assumption|].
  split; [rewrite Ht2, Ht1; reflexivity|].
  split.
  { eapply Forall2_impl_in; [|exact HF1].
    intros [k e] d Hin Hr. cbn [fst snd] in *.
    rewrite Hoth2; [exact Hr|].
    right. apply DictFacts.has_true_iff.
    change (In (fst (k, e)) (map fst (localEventsMap E))). now apply in_map. }
  split.
  { rewrite Horph in HF2. eapply Forall2_impl_in; [|exact HF2].
    intros k d Hin Hr. cbv beta in *.
    rewrite Hoth1 in Hr; [exact Hr|].
    apply filter_In in Hin. destruct Hin as [_ Hin].
    apply DictFacts.has_false_iff. now destruct (Dict.has (localEventsMap E) k). }
  split.
  { intros k Hk HkM.
    assert (Hg1 : Dict.get (loopEvents st1) k = None).
    { rewrite Hoth1 by assumption. now apply DictFacts.get_none_iff. }
    rewrite Hoth2; [assumption|].
    left. now apply DictFacts.get_none_iff. }
  split; [rewrite Hk2; now apply NoDup_filter|].
  split.
  { unfold orphans at 1. rewrite Hk2, filter_filter, Hk1, filter_app.
    unfold orphans. rewrite filter_filter.
    replace (filter (fun x => Dict.has (loopEvents st2) x
                               && negb (Dict.has (localEventsMap E) x)) extra) with (@nil string).
    - rewrite app_nil_r. apply filter_ext. intros x. apply andb_comm.
    - symmetry. apply filter_none. intros x Hx. apply Hex in Hx.
      apply DictFacts.has_true_iff in Hx. rewrite Hx. apply andb_false_r. }
  rewrite Hs2, Hs1, add_stats_zero. symmetry. apply tally_app.
Qed.

(** The decisions of a second pass over the same events, started from the
    records the first pass left, are the retries of the first. *)
Lemma reconcile_rerun calId evs (E : list Event) w w' :
  NoDup (Dict.keys evs) ->
  map fst (trace (reconcile calId (loopEvents (reconcile calId evs E w)) E w'))
  = flat_map retry (trace (reconcile calId evs E w)).
Proof.
  intros Hnd.
  destruct (reconcile_spec calId evs E w Hnd)
    as (T1 & T2 & _ & Ht & HF1 & HF2 & _ & Hnd2 & Horph & _).
  destruct (reconcile_spec calId (loopEvents (reconcile calId evs E w)) E w' Hnd2)
    as (T3 & T4 & _ & Ht' & HF3 & HF4 & _).
  rewrite Ht, Ht', map_app, flat_map_app. f_equal.
  - eapply retry_local_all with
      (p0 := fun entry => Dict.get evs (fst entry))
      (p2 := fun entry => Dict.get (loopEvents (reconcile calId evs E w)) (fst entry))
      (p4 := fun entry =>
               Dict.get (loopEvents (reconcile calId (loopEvents (reconcile calId evs E w)) E w'))
                        (fst entry));
      [exact HF1 | exact HF3].
  - rewrite Horph in HF4.
    eapply retry_delete_all with
      (p0 := fun k => Dict.get evs k)
      (p2 := fun k => Dict.get (loopEvents (reconcile calId evs E w)) k)
      (p4 := fun k =>
               Dict.get (loopEvents (reconcile calId (loopEvents (reconcile calId evs E w)) E w')) k);
      [|exact HF2|exact HF4].
    intros k Hk Hnone. apply filter_In in Hk. destruct Hk as [Hk _].
    apply DictFacts.get_none_iff in Hnone. contradiction.
Qed.

(** *** Passes over a state that already agrees with the events *)

Lemma syncLocal_fold_skip calId (L : Dict.t Event) :
  forall st,
  (forall k e, In (k, e) L ->
     exists r, Dict.get (loopEvents st) k = Some r
               /\ hash r = HashUtils.calculateEventHash (fields e)) ->
  fold_left (syncLocalEvent calId) L st
  = mkLoop (loopWorld st) (loopEvents st)
      (add_stats (loopStats st) (mkStats 0 0 0 (List.length L)))
      (trace st ++ map (fun entry => (SKIP (snd entry), Done)) L).
Proof.
  induction L as [|[k e] L IH]; intros st H; cbn [fold_left map List.length].
  - destruct st as [w evs [c u dl un] tr]. cbn. rewrite app_nil_r.
    unfold add_stats; cbn. do 2 f_equal; lia.
  - destruct (H k e (or_introl eq_refl)) as (r & Hget & Hh).
    assert (Hstep : syncLocalEvent calId st (k, e)
                    = mkLoop (loopWorld st) (loopEvents st)
                        (add_stats (loopStats st) (mkStats 0 0 0 1))
                        (trace st ++ [(SKIP e, Done)])).
    { destruct st as [w evs [c u dl un] tr]. cbn [loopWorld loopEvents loopStats trace] in *.
      unfold syncLocalEvent. rewrite Hget, <- Hh, String.eqb_refl. cbn [negb].
      unfold add_stats; cbn. do 2 f_equal; lia. }
    rewrite Hstep, IH.
    + cbn [loopWorld loopEvents loopStats trace snd]. rewrite add_stats_assoc, <- app_assoc.
      reflexivity.
    + cbn [loopEvents]. intros k' e' Hin. apply H. now right.
Qed.

Lemma deleteOrphan_fold_local calId (M : Dict.t Event) (K : list string) :
  forall st, (forall k, In k K -> Dict.has M k = true) ->
  fold_left (deleteOrphan calId M) K st = st.
Proof.
  induction K as [|k K IH]; intros st H; cbn [fold_left]; auto.
  rewrite deleteOrphan_local by (apply H; now left).
  apply IH. intros k' Hk'. apply H. now right.
Qed.

(** *** What an iteration does to the outside world *)

Lemma syncLocalEvent_skip calId st k e r :
  Dict.get (loopEvents st) k = Some r ->
  String.eqb (hash r) (HashUtils.calculateEventHash (fields e)) = true ->
  loopWorld (syncLocalEvent calId st (k, e)) = loopWorld st
  /\ loopEvents (syncLocalEvent calId st (k, e)) = loopEvents st.
Proof.
  destruct st as [w evs sts tr]. cbn [loopEvents loopWorld]. intros Hget Hh.
  unfold syncLocalEvent. rewrite Hget, Hh. cbn [negb loopWorld loopEvents]. auto.
Qed.

Lemma syncLocalEvent_create_world calId st k e :
  Dict.get (loopEvents st) k = None ->
  loopWorld (syncLocalEvent calId st (k, e))
  = match createCalendarEvent calId e (loopWorld st) with
    | (w1, inr _) => fst (now w1)
    | (w1, inl _) => w1
    end.
Proof.
  destruct st as [w evs sts tr]. cbn [loopEvents loopWorld]. intros Hget.
  unfold syncLocalEvent. rewrite Hget.
  destruct (createCalendarEvent calId e w) as [w1 [err|gid]]; [reflexivity|].
  destruct (now w1). reflexivity.
Qed.

(** *** Every trace entry belongs to a local event or to an orphan *)

Lemma trace_entry_cases calId evs (E : list Event) w (d : Decision * Outcome) :
  NoDup (Dict.keys evs) ->
  let st := reconcile calId evs E w in
  In d (trace st) ->
  (exists e, In (id e, e) (localEventsMap E)
             /\ local_rel (Dict.get evs (id e)) e d (Dict.get (loopEvents st) (id e)))
  \/ (exists k, In k (orphans evs E)
                /\ delete_rel (Dict.get evs k) k d (Dict.get (loopEvents st) k)).
Proof.
  intros Hnd st Hin. subst st.
  destruct (reconcile_spec calId evs E w Hnd) as (T1 & T2 & _ & Ht & HF1 & HF2 & _).
  rewrite Ht in Hin. apply in_app_or in Hin. destruct Hin as [Hin|Hin].
  - left. destruct (Forall2_in_r _ _ _ _ HF1 Hin) as ([k e] & HinM & Hr).
    cbn [fst snd] in Hr. pose proof (localEventsMap_entries _ _ _ HinM) as ->.
    exists e. auto.
  - right. destruct (Forall2_in_r _ _ _ _ HF2 Hin) as (k & Hk & Hr). exists k. auto.
Qed.

Lemma local_entry_decided calId evs (E : list Event) w (k : string) (e : Event) :
  NoDup (Dict.keys evs) -> In (k, e) (localEventsMap E) ->
  let st := reconcile calId evs E w in
  exists d, In d (trace st)
            /\ local_rel (Dict.get evs k) e d (Dict.get (loopEvents st) k).
Proof.
  intros Hnd HinM st. subst st.
  destruct (reconcile_spec calId evs E w Hnd) as (T1 & T2 & _ & Ht & HF1 & _).
  destruct (Forall2_in_l _ _ _ _ HF1 HinM) as (d & Hd & Hr).
  exists d. rewrite Ht. split; [apply in_or_app; now left | exact Hr].
Qed.

Lemma orphan_decided calId evs (E : list Event) w (k : string) :
  NoDup (Dict.keys evs) -> In k (orphans evs E) ->
  let st := reconcile calId evs E w in
  exists d, In d (trace st)
            /\ delete_rel (Dict.get evs k) k d (Dict.get (loopEvents st) k).
Proof.
  intros Hnd Hk st. subst st.
  destruct (reconcile_spec calId evs E w Hnd) as (T1 & T2 & _ & Ht & _ & HF2 & _).
  destruct (Forall2_in_l _ _ _ _ HF2 Hk) as (d & Hd & Hr).
  exists d. rewrite Ht. split; [apply in_or_app; now right | exact Hr].
Qed.

Lemma in_orphans evs (E : list Event) (k : string) :
  In k (orphans evs E) <-> In k (Dict.keys evs) /\ ~ In k (map id E).
Proof.
  unfold orphans. rewrite filter_In, <- localEventsMap_keys, <- DictFacts.has_false_iff.
  destruct (Dict.has (localEventsMap E) k); cbn [negb]; intuition congruence.
Qed.

Lemma counts_partition (T : Trace) :
  count_done is_create T + count_done is_update T + count_done is_skip T
  + count_done is_delete T + failures T = List.length T.
Proof.
  unfold count_done, failures.
  induction T as [|[d o] T IH]; cbn [filter List.length fst snd]; [reflexivity|].
  destruct d, o; cbn [is_create is_update is_skip is_delete succeeded andb negb List.length];
    lia.
Qed.

(** *** [syncWithCalendar] and its two loops *)

(** A pass that returns went through [reconcile] on the records loaded for
    the sport; its statistics are those of the loops, and the state it
    wrote holds the records the loops left. *)
Lemma syncWithCalendar_traced_reconcile sportId (E : list Event) (w w' : W)
  (res : SyncResult) (syncState' : SyncState) (tr : Trace) :
  syncWithCalendar_traced sportId E w = (w', inr (res, syncState', tr)) ->
  exists calId syncState w0,
    let evs := match Dict.get (sports syncState) sportId with
               | Some sportSyncState => events sportSyncState
               | None => []
               end in
    res = mkSyncResult true calId (loopStats (reconcile calId evs E w0))
    /\ tr = trace (reconcile calId evs E w0)
    /\ exists sportSyncState',
         Dict.get (sports syncState') sportId = Some sportSyncState'
         /\ events sportSyncState' = loopEvents (reconcile calId evs E w0).
Proof.
  unfold syncWithCalendar_traced, bind.
  destruct (authorize w) as [w1 [err|[]]]; [discriminate|].
  destruct (getOrCreateCalendar sportId w1) as [w2 [err|calId]]; [discriminate|].
  destruct (SyncStateManager.loadSyncState w2) as [w3 [err|syncState]]; [discriminate|].
  destruct (Dict.get (sports syncState) sportId) as [sportSyncState|] eqn:Hget.
  - destruct (now (loopWorld (reconcile calId (events sportSyncState) E w3))) as [w4 ts1].
    destruct (now w4) as [w5 ts2].
    destruct (SyncStateManager.saveSyncState _ w5) as [w6 [err|[]]]; [discriminate|].
    intros [= <- <- <- <-]. exists calId, syncState, w3. cbv zeta. rewrite Hget.
    split; [reflexivity|]. split; [reflexivity|].
    eexists. cbn [sports]. rewrite DictFacts.get_set_eq. split; reflexivity.
  - destruct (now w3) as [w3' ts0].
    destruct (now (loopWorld (reconcile calId [] E w3'))) as [w4 ts1].
    destruct (now w4) as [w5 ts2].
    destruct (SyncStateManager.saveSyncState _ w5) as [w6 [err|[]]]; [discriminate|].
    intros [= <- <- <- <-]. exists calId, syncState, w3'. cbv zeta. rewrite Hget.
    split; [reflexivity|]. split; [reflexivity|].
    eexists. cbn [sports]. rewrite DictFacts.get_set_eq. split; reflexivity.
Qed.

End WithEnv.

End SyncFacts.

(* ================================================================== *)
(** ** The calls of a pass *)

Module CallFacts.

Import Effects Data World SyncService TraceSpec Logged CallSpec.
Local Open Scope string_scope.
Local Open Scope list_scope.

Section WithEnv.

Context {W : Type} {base : Env W}.

Local Abbreviation logged := (Logged.env base).

Lemma traced_calls_refl calId (st : Loop (W := W * list Step)) :
  traced_calls calId st st.
Proof. exists []. cbn [flat_map]. now rewrite !app_nil_r. Qed.

Lemma traced_calls_trans calId (st1 st2 st3 : Loop (W := W * list Step)) :
  traced_calls calId st1 st2 -> traced_calls calId st2 st3 -> traced_calls calId st1 st3.
Proof.
  intros (T1 & Ht1 & Hl1) (T2 & Ht2 & Hl2). exists (T1 ++ T2).
  rewrite Ht2, Ht1, Hl2, Hl1, flat_map_app, <- !app_assoc. split; reflexivity.
Qed.

Lemma syncLocalEvent_calls calId (st : Loop (W := W * list Step)) entry :
  traced_calls calId st (@syncLocalEvent _ logged calId st entry).
Proof.
  destruct entry as [k e]. destruct st as [[w log] evs sts tr].
  unfold traced_calls, syncLocalEvent.
  generalize (HashUtils.calculateEventHash (fields e)). intros h.
  destruct (Dict.get evs k) as [existingSync|].
  - destruct (negb (String.eqb (hash existingSync) h)).
    + unfold updateCalendarEvent, bind, lift.
      destruct (buildEventData e) as [err|data] eqn:Hb.
      * exists [(UPDATE existingSync e, Threw err)].
        cbn [trace loopWorld snd flat_map calls_of]. rewrite Hb.
        cbn [app]. rewrite app_nil_r. split; reflexivity.
      * cbn [events_update now Logged.env]. unfold logging. cbn [fst snd].
        destruct (events_update calId (googleEventId existingSync) data w) as [w1 [err|[]]].
        -- exists [(UPDATE existingSync e, Threw err)].
           cbn [trace loopWorld snd flat_map calls_of succeeded]. rewrite Hb.
           cbn [app]. split; reflexivity.
        -- cbn [fst snd]. destruct (now w1) as [w2 ts].
           exists [(UPDATE existingSync e, Done)].
           cbn [trace loopWorld snd flat_map calls_of succeeded]. rewrite Hb.
           cbn [app]. rewrite <- app_assoc. split; reflexivity.
    + exists [(SKIP e, Done)]. cbn [trace loopWorld snd flat_map calls_of app].
      rewrite app_nil_r. split; reflexivity.
  - unfold createCalendarEvent, bind, lift.
    destruct (buildEventData e) as [err|data] eqn:Hb.
    + exists [(CREATE e, Threw err)].
      cbn [trace loopWorld snd flat_map calls_of]. rewrite Hb.
      cbn [app]. rewrite app_nil_r. split; reflexivity.
    + cbn [events_insert now Logged.env]. unfold logging. cbn [fst snd].
      destruct (events_insert calId data w) as [w1 [err|gid]].
      * exists [(CREATE e, Threw err)].
        cbn [trace loopWorld snd flat_map calls_of succeeded]. rewrite Hb.
        cbn [app]. split; reflexivity.
      * cbn [fst snd]. destruct (now w1) as [w2 ts].
        exists [(CREATE e, Done)].
        cbn [trace loopWorld snd flat_map calls_of succeeded]. rewrite Hb.
        cbn [app]. rewrite <- app_assoc. split; reflexivity.
Qed.

Lemma deleteOrphan_calls calId (M : Dict.t Event) (st : Loop (W := W * list Step)) k :
  traced_calls calId st (@deleteOrphan _ logged calId M st k).
Proof.
  destruct st as [[w log] evs sts tr]. unfold deleteOrphan.
  destruct (negb (Dict.has M k)); [|apply traced_calls_refl].
  destruct (Dict.get evs k) as [rec|].
  - unfold traced_calls, deleteCalendarEvent. cbn [events_delete Logged.env].
    unfold logging. cbn [fst snd].
    destruct (events_delete calId (googleEventId rec) w) as [w1 [err|[]]].
    + exists [(DELETE k (Some rec), Threw err)].
      cbn [trace loopWorld snd flat_map calls_of app]. split; reflexivity.
    + exists [(DELETE k (Some rec), Done)].
      cbn [trace loopWorld snd flat_map calls_of app]. split; reflexivity.
  - exists [(DELETE k None, Threw TypeError)].
    cbn [trace loopWorld snd flat_map calls_of app]. rewrite app_nil_r. split; reflexivity.
Qed.

Lemma fold_calls {A : Type} calId
    (f : Loop (W := W * list Step) -> A -> Loop (W := W * list Step)) (l : list A) :
  (forall st a, traced_calls calId st (f st a)) ->
  forall st, traced_calls calId st (fold_left f l st).
Proof.
  intros Hf. induction l as [|a l IH]; intros st; cbn [fold_left].
  - apply traced_calls_refl.
  - eapply traced_calls_trans; [apply Hf | apply IH].
Qed.

(** The second loop starts where the first ended. *)
Lemma deletions_calls calId evs (E : list Event) (w : W) (log : list Step) :
  traced_calls calId (@syncLocalEvents _ logged calId evs E (w, log))
    (@reconcile _ logged calId evs E (w, log)).
Proof.
  unfold reconcile.
  apply (fold_calls calId (@deleteOrphan _ logged calId (localEventsMap E))).
  apply deleteOrphan_calls.
Qed.

(** The calls a pass makes on the calendar and the clock are those of its
    decisions, in their order. *)
Lemma reconcile_calls calId evs (E : list Event) (w : W) (log : list Step) :
  let st := @reconcile _ logged calId evs E (w, log) in
  snd (loopWorld st) = log ++ flat_map (calls_of calId) (trace st).
Proof.
  cbv zeta. unfold reconcile, syncLocalEvents.
  set (st0 := mkLoop (w, log) evs (mkStats 0 0 0 0) []).
  set (st1 := fold_left (@syncLocalEvent _ logged calId) (localEventsMap E) st0).
  assert (H : traced_calls calId st0
                (fold_left (@deleteOrphan _ logged calId (localEventsMap E))
                   (Dict.keys (loopEvents st1)) st1)).
  { eapply traced_calls_trans.
    - apply (fold_calls calId (@syncLocalEvent _ logged calId)).
      apply syncLocalEvent_calls.
    - apply (fold_calls calId (@deleteOrphan _ logged calId (localEventsMap E))).
      apply deleteOrphan_calls. }
  destruct H as (T & Ht & Hl). cbn [trace loopWorld snd app] in Ht, Hl.
  now rewrite Hl, Ht.
Qed.

End WithEnv.

End CallFacts.

(* ================================================================== *)
(** ** The reconciliation pass *)

Module Reconciler.

Import Effects Data World SyncService TraceSpec SyncFacts.
Local Open Scope string_scope.
Local Open Scope list_scope.

Section WithEnv.

Context {W : Type} {env : Env W}.

(** C3 (amended).  Whatever the adapter answers, a pass decides every entry
    of the local event map and every orphaned id: its trace has one entry
    for each of them, failed or not.  The statistics of the pass are the
    four counts created, updated, deleted and unchanged of the operations
    that completed; an operation that threw is counted in none of them, so
    the four counts and the number of failures add up to the number of
    decisions. *)
Theorem pass_decides_everything_and_counts_successes calId evs (E : list Event) (w : W) :
  NoDup (Dict.keys evs) ->
  let st := reconcile calId evs E w in
  List.length (trace st) = List.length (localEventsMap E) + List.length (orphans evs E)
  /\ loopStats st = tally (trace st)
  /\ created (loopStats st) + updated (loopStats st) + unchanged (loopStats st)
     + deleted (loopStats st) + failures (trace st)
     = List.length (trace st)
  /\ (NoDup (map id E) -> List.length (localEventsMap E) = List.length E).
Proof.
  intros Hnd st. subst st.
  destruct (reconcile_spec calId evs E w Hnd) as (T1 & T2 & _ & Ht & HF1 & HF2 & _ & _ & _ & Hs).
  split; [|split; [|split]].
  - rewrite Ht, length_app.
    now rewrite <- (Forall2_length HF1), <- (Forall2_length HF2).
  - now rewrite Hs, Ht.
  - rewrite Hs, <- Ht. cbn [tally created updated unchanged deleted].
    apply counts_partition.
  - intros HndE. rewrite localEventsMap_unique by assumption. apply length_map.
Qed.

(** C5.  In a pass started from the records [evs], every id with a record
    and no event in [E] is decided by a DELETE on its record in the second
    loop, and [calendar.events.delete] is called for the record's
    [googleEventId] after every call of the first loop; when the DELETE
    completes the id has no record any more.  The trace of the pass is the
    trace of the first loop followed by the deletions: the first loop
    decides one CREATE, UPDATE or SKIP per entry of the local event map, and
    everything decided and called after it is a DELETE.  One iteration of
    the second loop on such an id sends the request to the client, and
    removes the record exactly when the client returns.  An id without a
    record has one after a later pass only if that pass completed a CREATE
    for an event of that id. *)
Theorem orphans_are_deleted_last calId evs (E : list Event) (w : W) (log : list Logged.Step) :
  NoDup (Dict.keys evs) ->
  let first := syncLocalEvents (env := Logged.env env) calId evs E (w, log) in
  let st := reconcile (env := Logged.env env) calId evs E (w, log) in
  (exists T2,
     trace st = trace first ++ T2
     /\ List.length (trace first) = List.length (localEventsMap E)
     /\ Forall (fun d => is_delete (fst d) = false) (trace first)
     /\ Forall (fun d => is_delete (fst d) = true) T2
     /\ snd (loopWorld st) = snd (loopWorld first) ++ flat_map (CallSpec.calls_of calId) T2
     /\ forall k r, Dict.get evs k = Some r -> ~ In k (map id E) ->
          (exists o, In (DELETE k (Some r), o) T2)
          /\ (exists l1 l2,
                snd (loopWorld st)
                = snd (loopWorld first)
                  ++ l1 ++ Logged.EventsDelete calId (googleEventId r) :: l2)
          /\ (In (DELETE k (Some r), Done) (trace st) -> Dict.get (loopEvents st) k = None))
  /\ (forall k r (st0 : Loop),
        ~ In k (map id E) -> Dict.get (loopEvents st0) k = Some r ->
        let st1 := deleteOrphan (env := Logged.env env) calId (localEventsMap E) st0 k in
        let sent := events_delete calId (googleEventId r) (fst (loopWorld st0)) in
        loopWorld st1
        = (fst sent, snd (loopWorld st0) ++ [Logged.EventsDelete calId (googleEventId r)])
        /\ match snd sent with
           | inr _ =>
               Dict.get (loopEvents st1) k = None
               /\ trace st1 = trace st0 ++ [(DELETE k (Some r), Done)]
           | inl error =>
               Dict.get (loopEvents st1) k = Some r
               /\ trace st1 = trace st0 ++ [(DELETE k (Some r), Threw error)]
           end)
  /\ (forall k (E' : list Event) (wl' : W * list Logged.Step),
        Dict.get (loopEvents st) k = None ->
        Dict.get (loopEvents (reconcile (env := Logged.env env) calId (loopEvents st) E' wl')) k
        <> None ->
        exists e, id e = k /\ In e E'
                  /\ In (CREATE e, Done)
                       (trace (reconcile (env := Logged.env env) calId (loopEvents st) E' wl'))).
Proof.
  intros Hnd first st. subst first st.
  split; [|split].
  - destruct (reconcile_spec (env := Logged.env env) calId evs E (w, log) Hnd)
      as (T1 & T2 & Ht1 & Ht & HF1 & HF2 & _).
    assert (Hno : Forall (fun d => is_delete (fst d) = false) T1).
    { apply Forall_forall. intros d Hd.
      destruct (Forall2_in_r _ _ _ _ HF1 Hd) as (entry & _ & Hr).
      apply local_rel_inv in Hr. destruct d as [[| | |] []]; auto; contradiction. }
    assert (Hlog : snd (loopWorld (reconcile (env := Logged.env env) calId evs E (w, log)))
                   = snd (loopWorld (syncLocalEvents (env := Logged.env env) calId evs E (w, log)))
                     ++ flat_map (CallSpec.calls_of calId) T2).
    { destruct (CallFacts.deletions_calls (base := env) calId evs E w log) as (T & HtT & HlT).
      rewrite Ht1, Ht in HtT. apply app_inv_head in HtT. now subst T. }
    exists T2. rewrite Ht1. split; [exact Ht|].
    split; [symmetry; exact (Forall2_length HF1)|].
    split; [exact Hno|]. split.
    { apply Forall_forall. intros d Hd.
      destruct (Forall2_in_r _ _ _ _ HF2 Hd) as (k & _ & Hr).
      apply delete_rel_inv in Hr. destruct d as [[| | |] []]; auto; contradiction. }
    split; [exact Hlog|].
    intros k r Hget HnE.
    assert (Hk : In k (orphans evs E)).
    { apply in_orphans. split; [eapply DictFacts.get_some_in; eauto | assumption]. }
    destruct (Forall2_in_l _ _ _ _ HF2 Hk) as (d & Hd & Hr).
    assert (Hin2 : exists o, In (DELETE k (Some r), o) T2).
    { apply delete_rel_inv in Hr. destruct d as [[| | |k' sd] o]; try contradiction.
      destruct o; destruct Hr as (-> & -> & _); rewrite Hget in Hd; eauto. }
    split; [exact Hin2|]. split.
    + destruct Hin2 as (o & Hin2). apply in_split in Hin2.
      destruct Hin2 as (A & B & ->).
      exists (flat_map (CallSpec.calls_of calId) A), (flat_map (CallSpec.calls_of calId) B).
      rewrite Hlog, flat_map_app. reflexivity.
    + intros HD.
      destruct (trace_entry_cases (env := Logged.env env) calId evs E (w, log) _ Hnd HD)
        as [(e' & _ & Hr')|(k' & _ & Hr')].
      * apply local_rel_inv in Hr'. contradiction.
      * apply delete_rel_inv in Hr'. destruct Hr' as (<- & _ & _ & Hp). exact Hp.
  - intros k r st0 HnE Hget0.
    assert (HM : Dict.has (localEventsMap E) k = false).
    { apply DictFacts.has_false_iff. now rewrite localEventsMap_keys. }
    destruct st0 as [[w0 log0] evs0 sts0 tr0]. cbn [loopEvents loopWorld fst snd] in *.
    unfold deleteOrphan. rewrite HM, Hget0. cbn [negb].
    unfold deleteCalendarEvent. cbn [events_delete Logged.env]. unfold Logged.logging.
    cbn [fst snd].
    destruct (events_delete calId (googleEventId r) w0) as [w1 [error|[]]];
      cbn [loopWorld loopEvents trace fst snd].
    + auto.
    + split; [reflexivity|]. split; [apply DictFacts.get_delete_eq | reflexivity].
  - intros k E' wl' Hnone Hsome.
    destruct (reconcile_spec (env := Logged.env env) calId evs E (w, log) Hnd)
      as (_ & _ & _ & _ & _ & _ & _ & Hnd2 & _).
    destruct (in_dec string_dec k (Dict.keys (localEventsMap E'))) as [HinM|HnM].
    + apply DictFacts.in_keys_get in HinM. destruct HinM as [e HgetM].
      apply DictFacts.get_in in HgetM.
      pose proof (localEventsMap_entries _ _ _ HgetM) as ->.
      destruct (local_entry_decided (env := Logged.env env) calId _ E' wl' (id e) e Hnd2 HgetM)
        as (d & Hd & Hr).
      apply local_rel_inv in Hr. rewrite Hnone in Hr.
      destruct d as [[e'|r e'|e'|] [|err]]; try contradiction.
      * destruct Hr as (-> & _). exists e. split; [reflexivity|].
        split; [eapply localEventsMap_entries_in; eassumption | exact Hd].
      * destruct Hr as (_ & _ & Hp). congruence.
      * destruct Hr as (_ & Hp & _). discriminate.
      * destruct Hr as (_ & Hp & _). discriminate.
      * destruct Hr as (_ & r & Hp & _). discriminate.
    + exfalso. apply Hsome.
      destruct (reconcile_spec (env := Logged.env env) calId _ E' wl' Hnd2)
        as (_ & _ & _ & _ & _ & _ & Hgone & _).
      apply Hgone; [|assumption]. now apply DictFacts.get_none_iff.
Qed.

(** X22.  In a pass over events with pairwise distinct ids, none of them
    the name of a member of [Object.prototype], started from the records
    [evs], every event [e] is decided from the record stored under its id:
    without a record the pass decides CREATE; with a record whose stored
    hash equals the hash of [e] it decides SKIP, and that iteration leaves
    the world and the log of calls as they were; with a record whose stored
    hash differs it decides UPDATE on that record.  The calls the pass makes
    on the calendar client and the clock are those of its decisions, in the
    order of the decisions: [calendar.events.insert] with the request body
    of the event for a CREATE, [calendar.events.update] with the record's
    [googleEventId] and the body for an UPDATE, nothing for a SKIP. *)
Theorem per_event_decision calId evs (E : list Event) (w : W) (log : list Logged.Step)
    (e : Event) :
  NoDup (Dict.keys evs) -> NoDup (map id E) ->
  Forall (fun event => Js.ordinary (id event) = true) E -> In e E ->
  let st := reconcile (env := Logged.env env) calId evs E (w, log) in
  snd (loopWorld st) = log ++ flat_map (CallSpec.calls_of calId) (trace st)
  /\ match Dict.get evs (id e) with
     | None => exists o, In (CREATE e, o) (trace st)
     | Some r =>
         if String.eqb (hash r) (HashUtils.calculateEventHash (fields e)) then
           In (SKIP e, Done) (trace st)
           /\ forall st0 : Loop, Dict.get (loopEvents st0) (id e) = Some r ->
                loopWorld (syncLocalEvent (env := Logged.env env) calId st0 (id e, e))
                = loopWorld st0
         else
           exists o, In (UPDATE r e, o) (trace st)
     end.
Proof.
  intros Hnd HndE _ Hin st. subst st.
  split; [apply (CallFacts.reconcile_calls (base := env))|].
  assert (HinM : In (id e, e) (localEventsMap E)).
  { rewrite localEventsMap_unique by assumption.
    change (In ((fun e0 => (id e0, e0)) e) (map (fun e0 => (id e0, e0)) E)).
    now apply in_map. }
  destruct (local_entry_decided (env := Logged.env env) calId evs E (w, log) (id e) e Hnd HinM)
    as (d & Hd & Hr).
  unfold local_rel in Hr. cbv zeta in Hr.
  destruct d as [dd o]. cbn [fst snd] in Hr.
  destruct (Dict.get evs (id e)) as [r|].
  - destruct (String.eqb (hash r) (HashUtils.calculateEventHash (fields e))) eqn:Hh.
    + destruct Hr as [Hr _]. inversion Hr; subst. split; [exact Hd|].
      intros st0 Hget. now apply (syncLocalEvent_skip calId st0 (id e) e r).
    + destruct Hr as [-> _]. eauto.
  - destruct Hr as [-> _]. eauto.
Qed.

(** X23.  In a pass over events none of whose ids is the name of a member
    of [Object.prototype], a failed CREATE, UPDATE or DELETE leaves the
    record of its event as it was before the pass: no record before and
    after a failed CREATE, the same record (hash and remote id included) before and after a failed
    UPDATE, the record still present after a failed DELETE.  A second pass
    over the same events, from the records the first pass left and whatever
    the world answers, decides exactly the retries of the first: each failed
    operation again, SKIP for every event created, updated or skipped, and
    nothing for the orphans that were deleted. *)
Theorem failure_keeps_record_and_rerun_retries calId evs (E : list Event) (w : W) :
  NoDup (Dict.keys evs) ->
  Forall (fun event => Js.ordinary (id event) = true) E ->
  let st := reconcile calId evs E w in
  (forall e err, In (CREATE e, Threw err) (trace st) ->
     Dict.get evs (id e) = None /\ Dict.get (loopEvents st) (id e) = None)
  /\ (forall r e err, In (UPDATE r e, Threw err) (trace st) ->
        Dict.get evs (id e) = Some r /\ Dict.get (loopEvents st) (id e) = Some r)
  /\ (forall k syncData err, In (DELETE k syncData, Threw err) (trace st) ->
        exists r, syncData = Some r /\ Dict.get evs k = Some r
                  /\ Dict.get (loopEvents st) k = Some r)
  /\ (forall w' : W,
        map fst (trace (reconcile calId (loopEvents st) E w')) = flat_map retry (trace st)).
Proof.
  intros Hnd _ st. subst st.
  split; [|split; [|split]].
  - intros e err H.
    destruct (trace_entry_cases calId evs E w _ Hnd H) as [(e' & _ & Hr)|(k & _ & Hr)].
    + apply local_rel_inv in Hr. destruct Hr as (-> & H0 & H1). auto.
    + apply delete_rel_inv in Hr. contradiction.
  - intros r e err H.
    destruct (trace_entry_cases calId evs E w _ Hnd H) as [(e' & _ & Hr)|(k & _ & Hr)].
    + apply local_rel_inv in Hr. destruct Hr as (-> & H0 & _ & H1). auto.
    + apply delete_rel_inv in Hr. contradiction.
  - intros k syncData err H.
    destruct (trace_entry_cases calId evs E w _ Hnd H) as [(e' & _ & Hr)|(k' & Hk & Hr)].
    + apply local_rel_inv in Hr. contradiction.
    + apply delete_rel_inv in Hr. destruct Hr as (<- & -> & Hp).
      apply in_orphans in Hk. destruct Hk as [Hk _].
      apply DictFacts.in_keys_get in Hk. destruct Hk as [r Hget].
      exists r. rewrite Hp, Hget. auto.
  - intros w'. now apply reconcile_rerun.
Qed.

(** X24.  When a pass over events none of whose ids is the name of a member
    of [Object.prototype] completes every operation it decides, a second pass
    over the same events from the records it left creates, updates and
    deletes nothing and counts every entry of the local event map (every
    event, when ids are pairwise distinct) as unchanged; it leaves the
    records and the outside world as they were. *)
Theorem converged_second_pass calId evs (E : list Event) (w w' : W) :
  NoDup (Dict.keys evs) ->
  Forall (fun event => Js.ordinary (id event) = true) E ->
  let st := reconcile calId evs E w in
  (forall d o, In (d, o) (trace st) -> o = Done) ->
  let st' := reconcile calId (loopEvents st) E w' in
  created (loopStats st') = 0
  /\ updated (loopStats st') = 0
  /\ deleted (loopStats st') = 0
  /\ unchanged (loopStats st') = List.length (localEventsMap E)
  /\ (NoDup (map id E) -> unchanged (loopStats st') = List.length E)
  /\ loopEvents st' = loopEvents st
  /\ loopWorld st' = w'.
Proof.
  intros Hnd _ st Hconv st'. subst st st'.
  set (evs2 := loopEvents (reconcile calId evs E w)) in *.
  assert (Hagree : forall k e, In (k, e) (localEventsMap E) ->
            exists r, Dict.get evs2 k = Some r
                      /\ hash r = HashUtils.calculateEventHash (fields e)).
  { intros k e HinM.
    destruct (local_entry_decided calId evs E w k e Hnd HinM) as (d & Hd & Hr).
    fold evs2 in Hr. apply local_rel_inv in Hr.
    destruct d as [dd o]. pose proof (Hconv _ _ Hd) as ->.
    destruct dd as [e'|r e'|e'|]; try contradiction.
    - destruct Hr as (_ & _ & gid & ts & ->). eauto.
    - destruct Hr as (_ & _ & _ & ts & ->). eauto.
    - destruct Hr as (_ & r & _ & Hh & ->). apply String.eqb_eq in Hh. eauto. }
  assert (Hnoorph : forall k, In k (Dict.keys evs2) -> Dict.has (localEventsMap E) k = true).
  { intros k Hk.
    destruct (Dict.has (localEventsMap E) k) eqn:HM; [reflexivity|exfalso].
    assert (Ho : In k (orphans evs2 E)).
    { unfold orphans. apply filter_In. rewrite HM. auto. }
    destruct (reconcile_spec calId evs E w Hnd) as (_ & _ & _ & _ & _ & _ & _ & _ & Horph & _).
    fold evs2 in Horph. rewrite Horph in Ho. apply filter_In in Ho. destruct Ho as [Ho Hhas].
    destruct (orphan_decided calId evs E w k Hnd Ho) as (d & Hd & Hr).
    fold evs2 in Hr. apply delete_rel_inv in Hr.
    destruct d as [dd o]. pose proof (Hconv _ _ Hd) as ->.
    destruct dd; try contradiction. destruct Hr as (_ & _ & _ & Hp).
    unfold Dict.has in Hhas. rewrite Hp in Hhas. discriminate. }
  unfold reconcile, syncLocalEvents.
  rewrite syncLocal_fold_skip by (cbn [loopEvents]; exact Hagree).
  cbn [loopEvents loopWorld loopStats trace].
  rewrite deleteOrphan_fold_local by exact Hnoorph.
  cbn [loopEvents loopWorld loopStats created updated deleted unchanged add_stats].
  repeat split; auto.
  intros HndE. rewrite localEventsMap_unique by assumption. apply length_map.
Qed.

End WithEnv.

Import Scripted.

(** The events [A] (renamed since its last sync), [B] (new) and [C]
    (unchanged) against records for [A] and [C]: [A] is updated. *)
Lemma per_event_decision_witness :
  let evs := [("A", synced "g1" eventA); ("C", synced "g2" eventC)] in
  let E := [eventA'; eventB; eventC] in
  NoDup (Dict.keys evs) /\ NoDup (map id E)
  /\ Forall (fun event => Js.ordinary (id event) = true) E /\ In eventA' E
  /\ exists o, In (UPDATE (synced "g1" eventA) eventA', o)
                  (trace (reconcile (env := Logged.env Scripted.env) "cal" evs E
                            (fresh [Some serverError], []))).
Proof.
  cbv zeta.
  assert (H1 : NoDup (Dict.keys [("A", synced "g1" eventA); ("C", synced "g2" eventC)])).
  { cbn. repeat constructor; cbn; intuition discriminate. }
  assert (H2 : NoDup (map id [eventA'; eventB; eventC])).
  { cbn. repeat constructor; cbn; intuition discriminate. }
  assert (H3 : In eventA' [eventA'; eventB; eventC]) by (cbn; auto).
  assert (H4 : Forall (fun event => Js.ordinary (id event) = true) [eventA'; eventB; eventC])
    by (repeat constructor).
  split; [exact H1|]. split; [exact H2|]. split; [exact H4|]. split; [exact H3|].
  pose proof (per_event_decision (env := Scripted.env) "cal" _ _ (fresh [Some serverError]) []
                eventA' H1 H2 H4 H3) as H.
  cbv zeta in H. destruct H as [_ H].
  change (Dict.get [("A", synced "g1" eventA); ("C", synced "g2" eventC)] (id eventA'))
    with (Some (synced "g1" eventA)) in H.
  cbv beta iota in H.
  assert (Hh : String.eqb (hash (synced "g1" eventA))
                 (HashUtils.calculateEventHash (fields eventA')) = false)
    by (vm_compute; reflexivity).
  rewrite Hh in H. exact H.
Defined.

(** [B] and [C] are new and [A] is orphaned; creating [B] and deleting [A]
    fail.  The next pass creates [B], skips [C] and deletes [A]. *)
Lemma failure_keeps_record_and_rerun_retries_witness :
  let evs := [("A", synced "g1" eventA)] in
  let E := [eventB; eventC] in
  let st := reconcile "cal" evs E (fresh [Some serverError; None; Some serverError]) in
  NoDup (Dict.keys evs)
  /\ Forall (fun event => Js.ordinary (id event) = true) E
  /\ Dict.get (loopEvents st) "B" = None
  /\ Dict.get (loopEvents st) "A" = Some (synced "g1" eventA)
  /\ map fst (trace (reconcile "cal" (loopEvents st) E (fresh [])))
     = [CREATE eventB; SKIP eventC; DELETE "A" (Some (synced "g1" eventA))].
Proof.
  cbv zeta.
  assert (H1 : NoDup (Dict.keys [("A", synced "g1" eventA)])).
  { cbn. repeat constructor; cbn; intuition discriminate. }
  assert (H2 : Forall (fun event => Js.ordinary (id event) = true) [eventB; eventC])
    by (repeat constructor).
  split; [exact H1|]. split; [exact H2|].
  destruct (failure_keeps_record_and_rerun_retries "cal" _ [eventB; eventC]
              (fresh [Some serverError; None; Some serverError]) H1 H2) as (HC & _ & HD & HR).
  split; [|split].
  - apply (HC eventB serverError). vm_compute. auto.
  - destruct (HD "A" (Some (synced "g1" eventA)) serverError) as (r & Hr & _ & Hget).
    + vm_compute. auto.
    + rewrite Hget. congruence.
  - rewrite HR. vm_compute. reflexivity.
Defined.

(** The same pass: three decisions, one created, two failed. *)
Lemma pass_decides_everything_and_counts_successes_witness :
  let evs := [("A", synced "g1" eventA)] in
  let E := [eventB; eventC] in
  let st := reconcile "cal" evs E (fresh [Some serverError; None; Some serverError]) in
  NoDup (Dict.keys evs)
  /\ List.length (trace st) = 3
  /\ loopStats st = mkStats 1 0 0 0
  /\ failures (trace st) = 2.
Proof.
  cbv zeta.
  assert (H1 : NoDup (Dict.keys [("A", synced "g1" eventA)])).
  { cbn. repeat constructor; cbn; intuition discriminate. }
  split; [exact H1|].
  destruct (pass_decides_everything_and_counts_successes "cal" _ [eventB; eventC]
              (fresh [Some serverError; None; Some serverError]) H1) as (HL & HS & HP & _).
  split; [|split].
  - rewrite HL. vm_compute. reflexivity.
  - rewrite HS. vm_compute. reflexivity.
  - vm_compute. reflexivity.
Defined.

(** C3, as stated, fails: the result of [syncWithCalendar] has no count of
    failures and does not determine one.  A pass whose only operation
    throws and a pass with nothing to do return the same result. *)
Lemma failed_count_not_in_result :
  ~ (exists failedCount : SyncResult -> nat,
       forall (E : list Event) (w w' : Scripted.world) res syncState tr,
         syncWithCalendar_traced "bwf" E w = (w', inr (res, syncState, tr)) ->
         failedCount res = failures tr).
Proof.
  intros [failedCount H].
  destruct (syncWithCalendar_traced "bwf" [eventB] (fresh [Some serverError]))
    as [w1 [err|[[res1 s1] tr1]]] eqn:E1;
    pose proof E1 as E1'; vm_compute in E1'; [discriminate|].
  destruct (syncWithCalendar_traced "bwf" [] (fresh []))
    as [w2 [err|[[res2 s2] tr2]]] eqn:E2;
    pose proof E2 as E2'; vm_compute in E2'; [discriminate|].
  apply H in E1. apply H in E2.
  inversion E1'; subst. inversion E2'; subst.
  rewrite E2 in E1. vm_compute in E1. discriminate.
Qed.

(** [A] has a record and no event: the request to delete its remote event
    is sent and the record is gone. *)
Lemma orphans_are_deleted_last_witness :
  let evs := [("A", synced "g1" eventA)] in
  let st := reconcile (env := Logged.env Scripted.env) "cal" evs [eventB] (fresh [], []) in
  NoDup (Dict.keys evs)
  /\ In (Logged.EventsDelete "cal" "g1") (snd (loopWorld st))
  /\ Dict.get (loopEvents st) "A" = None.
Proof.
  cbv zeta.
  assert (H1 : NoDup (Dict.keys [("A", synced "g1" eventA)])).
  { cbn. repeat constructor; cbn; intuition discriminate. }
  split; [exact H1|].
  destruct (orphans_are_deleted_last (env := Scripted.env) "cal" _ [eventB] (fresh []) [] H1)
    as ((T2 & _ & _ & _ & _ & _ & HD) & _ & _).
  destruct (HD "A" (synced "g1" eventA)) as (_ & (l1 & l2 & Hlog) & Hgone).
  - reflexivity.
  - cbn. intuition discriminate.
  - split.
    + rewrite Hlog. apply in_or_app. right. apply in_or_app. right. left. reflexivity.
    + apply Hgone. vm_compute. auto.
Defined.

(** After a first pass that created [A], a second pass changes nothing. *)
Lemma converged_second_pass_witness :
  let st := reconcile "cal" [] [eventA] (fresh []) in
  let st' := reconcile "cal" (loopEvents st) [eventA] (fresh []) in
  created (loopStats st') = 0 /\ updated (loopStats st') = 0
  /\ deleted (loopStats st') = 0 /\ unchanged (loopStats st') = 1.
Proof.
  cbv zeta.
  destruct (converged_second_pass "cal" [] [eventA] (fresh []) (fresh []))
    as (HC & HU & HD & HN & _).
  - constructor.
  - repeat constructor.
  - intros d o H. vm_compute in H. destruct H as [H|[]]. now inversion H.
  - rewrite HC, HU, HD, HN. repeat split.
Defined.

End Reconciler.

(* ================================================================== *)
(** ** Dates *)

Module JsDateFacts.

Import JsDate.
Local Open Scope string_scope.
Local Open Scope Z_scope.

(** *** Years *)

Lemma DayFromYear_succ y : DayFromYear (y + 1) = DayFromYear y + DaysInYear y.
Proof.
  unfold DayFromYear, DaysInYear.
  destruct (Z.eqb_spec (y mod 4) 0), (Z.eqb_spec (y mod 100) 0), (Z.eqb_spec (y mod 400) 0);
    cbn [negb]; Z.div_mod_to_equations; lia.
Qed.

Lemma DayFromYear_le a b : a <= b -> DayFromYear a <= DayFromYear b.
Proof. unfold DayFromYear. intros H. Z.div_mod_to_equations. lia. Qed.

Lemma DaysInYear_cases y : DaysInYear y = 365 \/ DaysInYear y = 366.
Proof.
  unfold DaysInYear.
  destruct (negb (y mod 4 =? 0)), (negb (y mod 100 =? 0)), (negb (y mod 400 =? 0)); auto.
Qed.

Lemma year_down_spec (fuel : nat) :
  forall c d, d < DayFromYear (c + 1) -> DayFromYear (c - Z.of_nat fuel) <= d ->
  DayFromYear (year_down fuel c d) <= d < DayFromYear (year_down fuel c d + 1).
Proof.
  induction fuel as [|fuel IH]; intros c d Hup Hlow; cbn [year_down].
  - replace (c - Z.of_nat 0) with c in Hlow by lia. lia.
  - destruct (Z.leb_spec (DayFromYear c) d) as [Hle|Hgt]; [lia|].
    apply IH.
    + now replace (c - 1 + 1) with c by lia.
    + now replace (c - 1 - Z.of_nat fuel) with (c - Z.of_nat (S fuel)) by lia.
Qed.

(** [YearFromDay] finds the year of every day number. *)
Lemma YearFromDay_spec d :
  DayFromYear (YearFromDay d) <= d < DayFromYear (YearFromDay d + 1).
Proof.
  unfold YearFromDay. apply year_down_spec.
  - unfold DayFromYear. Z.div_mod_to_equations. lia.
  - rewrite Z2Nat.id by (Z.div_mod_to_equations; lia).
    unfold DayFromYear. Z.div_mod_to_equations. lia.
Qed.

Lemma YearFromDay_unique d y :
  DayFromYear y <= d < DayFromYear (y + 1) -> YearFromDay d = y.
Proof.
  intros H. pose proof (YearFromDay_spec d) as H'.
  destruct (Z.lt_trichotomy (YearFromDay d) y) as [Hlt|[Heq|Hgt]]; [|assumption|].
  - pose proof (DayFromYear_le (YearFromDay d + 1) y ltac:(lia)). lia.
  - pose proof (DayFromYear_le (y + 1) (YearFromDay d) ltac:(lia)). lia.
Qed.

(** *** From a calendar date to a time value and back *)

Lemma Day_MakeDate n tm : 0 <= tm < msPerDay -> Day (MakeDate n tm) = n.
Proof.
  unfold Day, MakeDate, msPerDay. intros H. Z.div_mod_to_equations. lia.
Qed.

Lemma TimeWithinDay_MakeDate n tm : 0 <= tm < msPerDay -> TimeWithinDay (MakeDate n tm) = tm.
Proof.
  unfold TimeWithinDay, MakeDate, msPerDay. intros H. Z.div_mod_to_equations. lia.
Qed.

Lemma month_cases m :
  1 <= m <= 12 ->
  m = 1 \/ m = 2 \/ m = 3 \/ m = 4 \/ m = 5 \/ m = 6 \/ m = 7 \/ m = 8 \/ m = 9
  \/ m = 10 \/ m = 11 \/ m = 12.
Proof. lia. Qed.

Ltac each_month H :=
  apply month_cases in H;
  repeat (destruct H as [H|H]; [subst|]); [..|subst].

Ltac split_ltb :=
  repeat match goal with
         | |- context [?a <? ?b] => destruct (Z.ltb_spec a b); try lia
         end.

(** Settles the leap-year tests and the month tables once the month is a
    numeral. *)
Ltac calendar_values :=
  change (365 =? 366) with false; change (366 =? 366) with true; cbv iota;
  repeat match goal with
         | |- context [MonthStart ?a ?b] =>
             let v := eval vm_compute in (MonthStart a b) in
             progress change (MonthStart a b) with v
         end.

(** The components of the day [d] of month [m] of year [y]. *)
Lemma civil_of_MakeDay y m d tm :
  1 <= m <= 12 -> 1 <= d <= DaysInMonth y m -> 0 <= tm < msPerDay ->
  let t := MakeDate (MakeDay y (m - 1) d) tm in
  YearFromTime t = y /\ MonthFromTime t = m - 1 /\ DateFromTime t = d.
Proof.
  intros Hm Hd Htm t. subst t.
  assert (HMD : MakeDay y (m - 1) d
                = DayFromYear y + MonthStart (m - 1) (if DaysInYear y =? 366 then 1 else 0)
                  + d - 1).
  { unfold MakeDay. replace ((m - 1) / 12) with 0 by (Z.div_mod_to_equations; lia).
    replace ((m - 1) mod 12) with (m - 1) by (Z.div_mod_to_equations; lia).
    now rewrite Z.add_0_r. }
  assert (Hyear : YearFromTime (MakeDate (MakeDay y (m - 1) d) tm) = y).
  { unfold YearFromTime. rewrite Day_MakeDate by assumption.
    apply YearFromDay_unique. rewrite DayFromYear_succ, HMD.
    generalize (DayFromYear y). intros D.
    revert Hd. unfold DaysInMonth.
    destruct (DaysInYear_cases y) as [Hy|Hy]; rewrite Hy; each_month Hm;
      calendar_values; lia. }
  assert (Hdwy : DayWithinYear (MakeDate (MakeDay y (m - 1) d) tm)
                 = MonthStart (m - 1) (if DaysInYear y =? 366 then 1 else 0) + d - 1).
  { unfold DayWithinYear. rewrite Hyear, Day_MakeDate, HMD by assumption. lia. }
  assert (Hleap : InLeapYear (MakeDate (MakeDay y (m - 1) d) tm)
                  = if DaysInYear y =? 366 then 1 else 0).
  { unfold InLeapYear. now rewrite Hyear. }
  assert (Hmonth : MonthFromTime (MakeDate (MakeDay y (m - 1) d) tm) = m - 1).
  { unfold MonthFromTime. rewrite Hdwy, Hleap. revert Hd. unfold DaysInMonth.
    destruct (DaysInYear_cases y) as [Hy|Hy]; rewrite Hy; each_month Hm;
      calendar_values; intros Hd; split_ltb. }
  split; [exact Hyear|]. split; [exact Hmonth|].
  unfold DateFromTime. rewrite Hmonth, Hdwy, Hleap. revert Hd. unfold DaysInMonth.
  destruct (DaysInYear_cases y) as [Hy|Hy]; rewrite Hy; each_month Hm;
    calendar_values; 
    match goal with
    | |- context [match ?a - 1 with _ => _ end] =>
        let v := eval vm_compute in (a - 1) in change (a - 1) with v
    end; cbv iota; lia.
Qed.

Lemma DaysInMonth_pos y m : 28 <= DaysInMonth y m <= 31.
Proof.
  unfold DaysInMonth.
  destruct m as [|[[[[|[]|]|[[]|[]|]|]|[[[]|[]|]|[[]|[]|]|]|]|[[[|[]|]|[[]|[]|]|]|[[[]|[]|]|[[]|[]|]|]|]|]|];
    try lia; destruct (DaysInYear y =? 366); lia.
Qed.

(** Adding one to the day of the month reaches the next calendar day. *)
Lemma MakeDay_next y m d :
  1 <= m <= 12 -> 1 <= d <= DaysInMonth y m ->
  let '(y', m', d') := next_day y m d in
  MakeDay y (m - 1) (d + 1) = MakeDay y' (m' - 1) d'
  /\ (y' = y \/ y' = y + 1) /\ 1 <= m' <= 12 /\ 1 <= d' <= DaysInMonth y' m'.
Proof.
  intros Hm Hd. unfold next_day.
  destruct (Z.ltb_spec d (DaysInMonth y m)) as [Hlt|Hge].
  - repeat split; auto; lia.
  - assert (d = DaysInMonth y m) by lia. subst d. clear Hd Hge.
    destruct (Z.ltb_spec m 12) as [Hlt|Hge].
    + split.
      * unfold MakeDay.
        replace ((m - 1) / 12) with 0 by (Z.div_mod_to_equations; lia).
        replace ((m - 1) mod 12) with (m - 1) by (Z.div_mod_to_equations; lia).
        replace ((m + 1 - 1) / 12) with 0 by (Z.div_mod_to_equations; lia).
        replace ((m + 1 - 1) mod 12) with (m + 1 - 1) by (Z.div_mod_to_equations; lia).
        generalize (DayFromYear (y + 0)). intros D. unfold DaysInMonth.
        assert (Hm' : 1 <= m <= 12) by lia.
        destruct (DaysInYear_cases (y + 0)) as [Hy|Hy]; rewrite Hy;
          replace (y + 0) with y in Hy by lia; rewrite Hy;
          each_month Hm'; try lia;
          calendar_values; lia.
      * pose proof (DaysInMonth_pos y (m + 1)). repeat split; auto; lia.
    + assert (m = 12) by lia. subst m. split.
      * unfold MakeDay.
        replace ((12 - 1) / 12) with 0 by reflexivity.
        replace ((12 - 1) mod 12) with 11 by reflexivity.
        replace ((1 - 1) / 12) with 0 by reflexivity.
        replace ((1 - 1) mod 12) with 0 by reflexivity.
        rewrite !Z.add_0_r, DayFromYear_succ.
        generalize (DayFromYear y). intros D.
        change (DaysInMonth y 12) with 31.
        destruct (DaysInYear_cases y) as [Hy|Hy]; rewrite Hy;
          destruct (DaysInYear (y + 1) =? 366); calendar_values; lia.
      * pose proof (DaysInMonth_pos (y + 1) 1). repeat split; auto; lia.
Qed.

Lemma MakeDay_bound y m d :
  0 <= y <= 10000 -> 1 <= m <= 12 -> 1 <= d <= 32 ->
  -1000000 <= MakeDay y (m - 1) d <= 4000000.
Proof.
  intros Hy Hm Hd. unfold MakeDay.
  replace ((m - 1) / 12) with 0 by (Z.div_mod_to_equations; lia).
  replace ((m - 1) mod 12) with (m - 1) by (Z.div_mod_to_equations; lia).
  rewrite Z.add_0_r.
  assert (HD : -720000 <= DayFromYear y <= 2940000).
  { unfold DayFromYear. Z.div_mod_to_equations. lia. }
  revert HD. generalize (DayFromYear y). intros D HD.
  destruct (DaysInYear y =? 366); each_month Hm; calendar_values; lia.
Qed.

(** *** Strings *)

Lemma no_T_app (a b : string) : no_T (a ++ b) = no_T a && no_T b.
Proof.
  induction a as [|c a IH]; cbn [append no_T]; [reflexivity|].
  rewrite IH. now rewrite andb_assoc.
Qed.

Lemma split_T_app (a b : string) :
  no_T a = true -> split_T (a ++ String "T" b) = (a, Some b).
Proof.
  induction a as [|c a IH]; cbn [append no_T split_T].
  - intros _. reflexivity.
  - intros H. apply andb_true_iff in H. destruct H as [Hc Ha].
    apply negb_true_iff in Hc. rewrite Hc, (IH Ha). reflexivity.
Qed.

Lemma before_T_app (a b : string) : no_T a = true -> before_T (a ++ "T" ++ b) = a.
Proof.
  intros H. unfold before_T. change ("T" ++ b)%string with (String "T" b).
  now rewrite split_T_app.
Qed.

Lemma before_T_no_T (s : string) : no_T (before_T s) = true.
Proof.
  unfold before_T. induction s as [|c s IH]; cbn [split_T fst no_T]; [reflexivity|].
  destruct (Ascii.eqb c "T") eqn:Hc; [reflexivity|].
  destruct (split_T s) as [a b]. cbn [fst no_T] in *. now rewrite Hc, IH.
Qed.

Lemma digit_char_no_T n : Ascii.eqb (digit_char n) "T" = false.
Proof.
  unfold digit_char.
  assert (H : 0 <= n mod 10 < 10) by (apply Z.mod_pos_bound; lia).
  revert H. generalize (n mod 10). intros r H.
  assert (Hr : r = 0 \/ r = 1 \/ r = 2 \/ r = 3 \/ r = 4 \/ r = 5 \/ r = 6 \/ r = 7
               \/ r = 8 \/ r = 9) by lia.
  repeat (destruct Hr as [Hr|Hr]; [subst; reflexivity|]). subst. reflexivity.
Qed.

Lemma pad_num_no_T (width : nat) : forall x, no_T (pad_num width x) = true.
Proof.
  induction width as [|w IH]; intros x; cbn [pad_num no_T]; [reflexivity|].
  rewrite no_T_app, IH. cbn [no_T]. now rewrite digit_char_no_T.
Qed.

Lemma no_T_cons (c : ascii) (s : string) :
  Ascii.eqb c "T" = false -> no_T (String c s) = no_T s.
Proof. intros H. cbn [no_T]. now rewrite H. Qed.

Lemma iso_date_no_T y m d : no_T (iso_date y m d) = true.
Proof.
  assert (Htail : no_T ("-" ++ pad_num 2 m ++ "-" ++ pad_num 2 d) = true).
  { change ("-" ++ pad_num 2 m ++ "-" ++ pad_num 2 d)%string
      with (String "-" (pad_num 2 m ++ String "-" (pad_num 2 d))).
    rewrite no_T_cons, no_T_app, no_T_cons, !pad_num_no_T by reflexivity. reflexivity. }
  unfold iso_date, iso_year. rewrite no_T_app, Htail, andb_true_r.
  destruct ((0 <=? y) && (y <=? 9999)); [apply pad_num_no_T|].
  destruct (y <? 0); rewrite no_T_cons, pad_num_no_T by reflexivity; reflexivity.
Qed.

Lemma digit_val_range c v : digit_val c = Some v -> 0 <= v <= 9.
Proof.
  unfold digit_val.
  destruct (Z.leb_spec 48 (Z.of_N (N_of_ascii c))), (Z.leb_spec (Z.of_N (N_of_ascii c)) 57);
    cbn [andb]; intros [= <-]; lia.
Qed.

Lemma parse_ymd_range s y m d :
  parse_ymd s = Some (y, m, d) -> 0 <= y <= 9999 /\ 1 <= m <= 12 /\ 1 <= d <= 31.
Proof.
  unfold parse_ymd.
  destruct (list_ascii_of_string s) as [|y1 [|y2 [|y3 [|y4 [|c1 [|m1 [|m2 [|c2 [|d1 [|d2 [|]]]]]]]]]]];
    try discriminate.
  destruct (Ascii.eqb c1 "-" && Ascii.eqb c2 "-"); [|discriminate].
  cbn [digits_val].
  destruct (digit_val y1) as [a1|] eqn:E1; [|discriminate].
  destruct (digit_val y2) as [a2|] eqn:E2; [|discriminate].
  destruct (digit_val y3) as [a3|] eqn:E3; [|discriminate].
  destruct (digit_val y4) as [a4|] eqn:E4; [|discriminate].
  destruct (digit_val m1) as [b1|] eqn:E5; [|discriminate].
  destruct (digit_val m2) as [b2|] eqn:E6; [|discriminate].
  destruct (digit_val d1) as [e1|] eqn:E7; [|discriminate].
  destruct (digit_val d2) as [e2|] eqn:E8; [|discriminate].
  apply digit_val_range in E1, E2, E3, E4.
  match goal with
  | |- context [if ?c then _ else _] => destruct c eqn:Hc; [|discriminate]
  end.
  match goal with
  | |- Some (?a, ?b, ?c) = _ -> _ =>
      intros Heq;
      assert (Hy : y = a) by congruence;
      assert (Hm : m = b) by congruence;
      assert (Hd : d = c) by congruence
  end.
  clear Heq.
  apply andb_true_iff in Hc. destruct Hc as [Hc H4].
  apply andb_true_iff in Hc. destruct Hc as [Hc H3].
  apply andb_true_iff in Hc. destruct Hc as [H1 H2].
  apply Z.leb_le in H1, H2, H3, H4. lia.
Qed.

End JsDateFacts.

(* ================================================================== *)
(** ** The request body *)

Module BuildFacts.

Import Effects Data World SyncService JsDate JsDateFacts.
Local Open Scope string_scope.
Local Open Scope Z_scope.

Lemma formatDate_start (v : Js.value) (r : string) :
  formatDate v false = inr r -> exists s, v = Js.VString s /\ r = before_T s.
Proof.
  destruct v; cbv beta iota zeta delta [formatDate]; try (intros H; discriminate H).
  intros [= <-]. eauto.
Qed.

Lemma parse_date_part (s : string) :
  parse (before_T s ++ "T00:00:00Z")
  = match parse_ymd (before_T s) with
    | Some (y, m, d) => TimeClip (MakeDate (MakeDay y (m - 1) d) 0)
    | None => None
    end.
Proof.
  unfold parse. change ("T00:00:00Z") with (String "T" "00:00:00Z").
  rewrite split_T_app by apply before_T_no_T.
  change (String.eqb "00:00:00Z" "00:00:00Z") with true. cbv iota.
  destruct (parse_ymd (before_T s)) as [[[y m] d]|]; reflexivity.
Qed.

Lemma TimeClip_MakeDay y m d :
  0 <= y <= 10000 -> 1 <= m <= 12 -> 1 <= d <= 32 ->
  TimeClip (MakeDate (MakeDay y (m - 1) d) 0) = Some (MakeDate (MakeDay y (m - 1) d) 0).
Proof.
  intros Hy Hm Hd. pose proof (MakeDay_bound y m d Hy Hm Hd) as Hb.
  unfold TimeClip, MakeDate, msPerDay.
  destruct (Z.leb_spec (Z.abs (MakeDay y (m - 1) d * 86400000 + 0)) 8640000000000000);
    [reflexivity | lia].
Qed.

(** The end date of a string whose date part is a calendar date. *)
Lemma formatDate_end (s : string) (y m d : Z) :
  parse_ymd (before_T s) = Some (y, m, d) -> d <= DaysInMonth y m ->
  formatDate (Js.VString s) true = inr (iso_next_day y m d).
Proof.
  intros Hp Hd. pose proof (parse_ymd_range _ _ _ _ Hp) as (Hy & Hm & Hd1).
  assert (Hd' : 1 <= d <= DaysInMonth y m) by lia.
  assert (H0 : 0 <= 0 < msPerDay) by (unfold msPerDay; lia).
  cbv beta iota zeta delta [formatDate]. rewrite parse_date_part, Hp.
  rewrite TimeClip_MakeDay by lia.
  destruct (civil_of_MakeDay y m d 0 Hm Hd' H0) as (HY & HM & HD).
  cbn [getUTCDate option_map setUTCDate]. rewrite HY, HM, HD.
  rewrite TimeWithinDay_MakeDate by assumption.
  pose proof (MakeDay_next y m d Hm Hd') as Hn. unfold iso_next_day.
  destruct (next_day y m d) as [[y' m'] d'].
  destruct Hn as (Hn & Hy' & Hm' & Hd'').
  rewrite Hn.
  pose proof (DaysInMonth_pos y' m').
  rewrite TimeClip_MakeDay by lia.
  destruct (civil_of_MakeDay y' m' d' 0 Hm' Hd'' H0) as (HY' & HM' & HD').
  cbn [toISOString]. rewrite HY', HM', HD'.
  rewrite TimeWithinDay_MakeDate by assumption.
  replace (m' - 1 + 1) with m' by lia.
  f_equal. apply before_T_app. apply iso_date_no_T.
Qed.

Section WithEnv.

Context {W : Type} {env : Env W}.

(** C9.  When [buildEventData] returns a request body for an event, which
    is when CREATE and UPDATE hand one to the calendar client, and the body
    they hand over is that one, the event's [dateStart] and [dateEnd] are
    strings and [start.date] is the date part of [dateStart].  When
    [dateStart] and [dateEnd] are strings and the date part of [dateEnd] is
    a calendar date [YYYY-MM-DD], [buildEventData] returns a body, and its
    [end.date] is the calendar day after that date, as [toISOString] writes
    it. *)
Theorem buildEventData_all_day_range (event : Event) :
  (forall data, buildEventData event = inr data ->
     (forall calendarId googleEventId (w : W),
        createCalendarEvent calendarId event w = events_insert calendarId data w
        /\ updateCalendarEvent calendarId googleEventId event w
           = events_update calendarId googleEventId data w)
     /\ exists sStart sEnd,
          Js.get (fields event) "dateStart" = Js.VString sStart
          /\ Js.get (fields event) "dateEnd" = Js.VString sEnd
          /\ date (start data) = before_T sStart)
  /\ (forall sStart sEnd y m d,
        Js.get (fields event) "dateStart" = Js.VString sStart ->
        Js.get (fields event) "dateEnd" = Js.VString sEnd ->
        parse_ymd (before_T sEnd) = Some (y, m, d) -> d <= DaysInMonth y m ->
        exists data,
          buildEventData event = inr data
          /\ date (start data) = before_T sStart
          /\ date (end_ data) = iso_next_day y m d).
Proof.
  split.
  - intros data Hb. split.
    + intros calendarId googleEventId w.
      unfold createCalendarEvent, updateCalendarEvent, bind, lift. now rewrite Hb.
    + unfold buildEventData in Hb.
      destruct (formatDate (Js.get (fields event) "dateStart") false) as [err|startDate] eqn:Hs;
        [discriminate|].
      destruct (formatDate (Js.get (fields event) "dateEnd") true) as [err|endDate] eqn:He;
        [discriminate|].
      apply formatDate_start in Hs. destruct Hs as (sStart & HsS & ->).
      destruct (Js.get (fields event) "dateEnd") as [| | |sEnd|] eqn:HsE;
        try (cbv beta iota zeta delta [formatDate] in He; discriminate He).
      exists sStart, sEnd. injection Hb as <-. cbn [start date]. auto.
  - intros sStart sEnd y m d HsS HsE Hp Hd.
    unfold buildEventData. rewrite HsS, HsE, (formatDate_end _ _ _ _ Hp Hd).
    cbv beta iota zeta delta [formatDate].
    eexists. split; [reflexivity|]. cbn [start end_ date]. auto.
Qed.

End WithEnv.

(** An event ending on the last day of a leap-year February. *)
Lemma buildEventData_all_day_range_witness :
  let e := Scripted.event "L" "Leap" "2024-02-27T00:00:00.000Z" "2024-02-29T00:00:00.000Z" in
  exists data,
    buildEventData e = inr data
    /\ date (start data) = "2024-02-27"
    /\ date (end_ data) = "2024-03-01".
Proof.
  cbv zeta.
  destruct (buildEventData_all_day_range (env := Scripted.env)
              (Scripted.event "L" "Leap" "2024-02-27T00:00:00.000Z" "2024-02-29T00:00:00.000Z"))
    as [_ H].
  destruct (H "2024-02-27T00:00:00.000Z" "2024-02-29T00:00:00.000Z" 2024 2 29)
    as (data & Hb & Hstart & Hend).
  - reflexivity.
  - reflexivity.
  - reflexivity.
  - vm_compute. discriminate.
  - exists data. split; [exact Hb|]. split; [rewrite Hstart | rewrite Hend]; reflexivity.
Defined.

End BuildFacts.

(* ================================================================== *)
(** ** The content hash *)

Module HashFacts.

Import Js HashUtils HashSpec.
Local Open Scope string_scope.
Local Open Scope list_scope.

(** The test suite of RFC 1321. *)
Example md5_test_suite :
  MD5.md5_hex "" = "d41d8cd98f00b204e9800998ecf8427e"
  /\ MD5.md5_hex "a" = "0cc175b9c0f1b6a831c399e269772661"
  /\ MD5.md5_hex "abc" = "900150983cd24fb0d6963f7d28e17f72"
  /\ MD5.md5_hex "message digest" = "f96b697d7cb7938d525a2f31aaf161d0"
  /\ MD5.md5_hex "abcdefghijklmnopqrstuvwxyz" = "c3fcd3d76192e4007dfb496cca67e13b"
  /\ MD5.md5_hex "12345678901234567890123456789012345678901234567890123456789012345678901234567890"
     = "57edf4a22be3c955ac49da2e2107b67a".
Proof. repeat split; vm_compute; reflexivity. Qed.

(** The keys of the hash input come out sorted. *)
Example sortedFields_keys :
  keys (sortedFields [])
  = ["category"; "dateEnd"; "dateStart"; "level"; "location"; "name"; "prize"; "url"]
  /\ calculateEventHash [] = "8bb044902c47e3fd".
Proof. split; vm_compute; reflexivity. Qed.

Lemma get_set (o : object) (k k' : string) (v : value) :
  get (set o k v) k' = if String.eqb k k' then v else get o k'.
Proof.
  induction o as [|[k0 v0] o IH]; cbn [set get].
  - reflexivity.
  - destruct (String.eqb_spec k0 k) as [->|Hne]; cbn [get].
    + destruct (String.eqb k k'); reflexivity.
    + rewrite IH. destruct (String.eqb_spec k0 k') as [->|Hne'].
      * destruct (String.eqb_spec k k'); [congruence | reflexivity].
      * reflexivity.
Qed.

(** The hash is a function of the eight projected properties. *)
Lemma hashFields_ext (e1 e2 : object) :
  (forall f, In f projectedFields -> get e1 f = get e2 f) -> hashFields e1 = hashFields e2.
Proof.
  intros H. unfold hashFields.
  rewrite (H "name"), (H "dateStart"), (H "dateEnd"), (H "location"), (H "category"),
    (H "level"), (H "prize"), (H "url") by (unfold projectedFields; cbn [In]; auto 10).
  reflexivity.
Qed.

Lemma hash_of_hashFields (e1 e2 : object) :
  hashFields e1 = hashFields e2 -> calculateEventHash e1 = calculateEventHash e2.
Proof.
  intros H. unfold calculateEventHash, hashInput, sortedFields. now rewrite H.
Qed.

Lemma get_member (o : object) (k : string) (v : value) :
  NoDup (keys o) -> In (k, v) o -> get o k = v.
Proof.
  induction o as [|[k0 v0] o IH]; cbn [keys map fst get]; [intros _ []|].
  intros Hnd [Hin|Hin]; inversion Hnd as [|? ? Hnotin Hnd']; subst.
  - inversion Hin; subst. now rewrite String.eqb_refl.
  - destruct (String.eqb_spec k0 k) as [->|Hne]; [|auto].
    exfalso. apply Hnotin. change (In (fst (k, v)) (map fst o)). now apply in_map.
Qed.

Lemma get_absent (o : object) (k : string) : ~ In k (keys o) -> get o k = VUndefined.
Proof.
  induction o as [|[k0 v0] o IH]; cbn [keys map fst get]; [reflexivity|].
  intros H. destruct (String.eqb_spec k0 k) as [->|Hne].
  - exfalso. apply H. now left.
  - apply IH. intros Hin. apply H. now right.
Qed.

(** Reading a property does not depend on the order of the properties. *)
Lemma get_permutation (o1 o2 : object) (k : string) :
  NoDup (keys o1) -> Permutation o1 o2 -> get o1 k = get o2 k.
Proof.
  intros Hnd Hp.
  assert (Hnd2 : NoDup (keys o2)).
  { eapply Permutation_NoDup; [|exact Hnd]. now apply Permutation_map. }
  destruct (in_dec string_dec k (keys o1)) as [Hin|Hn].
  - unfold keys in Hin. apply in_map_iff in Hin. destruct Hin as ([k0 v] & Hk & Hin).
    cbn [fst] in Hk. subst k0.
    rewrite (get_member o1 k v Hnd Hin).
    symmetry. apply get_member; [assumption|]. eapply Permutation_in; eassumption.
  - rewrite (get_absent o1 k Hn). symmetry. apply get_absent.
    intros Hin. apply Hn. eapply Permutation_in; [|exact Hin].
    apply Permutation_map. now apply Permutation_sym.
Qed.

(** The part of C4 that holds: the hash does not depend on the order of
    the event's own properties ... *)
Lemma hash_field_order (e1 e2 : object) :
  NoDup (keys e1) -> Permutation e1 e2 -> calculateEventHash e1 = calculateEventHash e2.
Proof.
  intros Hnd Hp. apply hash_of_hashFields, hashFields_ext.
  intros f _. now apply get_permutation.
Qed.

(** ... nor on the properties [description], [lastUpdated] and [source]. *)
Lemma hash_ignores_excluded (e1 e2 : object) :
  (forall f, ~ In f excludedFields -> get e1 f = get e2 f) ->
  calculateEventHash e1 = calculateEventHash e2.
Proof.
  intros H. apply hash_of_hashFields, hashFields_ext.
  intros f Hf. apply H. unfold projectedFields, excludedFields in *. cbn [In] in *.
  intuition (subst; discriminate).
Qed.

(** C4 fails on the code: only the top-level keys are sorted, and
    [JSON.stringify] writes the properties of [location] in their own
    order.  The two tournaments have the same location, property by
    property, and different hashes. *)
Theorem location_order_changes_hash :
  Permutation locationA locationB
  /\ (forall k, get locationA k = get locationB k)
  /\ calculateEventHash (tournament locationA) = "e3e6b609d3e4adb6"
  /\ calculateEventHash (tournament locationB) = "5d61054d98eb40ed"
  /\ calculateEventHash (tournament locationA) <> calculateEventHash (tournament locationB).
Proof.
  assert (Hp : Permutation locationA locationB).
  { unfold locationA, locationB.
    eapply perm_trans; [|apply perm_swap]. apply perm_skip. apply perm_swap. }
  split; [exact Hp|]. split.
  - intros k. apply get_permutation; [|exact Hp].
    cbn. repeat constructor; cbn; intuition discriminate.
  - split; [vm_compute; reflexivity|]. split; [vm_compute; reflexivity|].
    vm_compute. discriminate.
Qed.

(** C10.  A projected field the event does not have (or has as
    [undefined]) enters the hash as its default: the empty string for
    [name], [dateStart], [dateEnd], [category], [level], [prize] and [url],
    the empty object for [location].  An event without the field and an
    event that has the default there, alike in every other property, have
    the same projection and the same hash. *)
Theorem absent_field_hashes_as_default (e e' : object) (f : string) :
  In f projectedFields ->
  get e f = VUndefined ->
  get e' f = absentDefault f ->
  (forall k, k <> f -> get e k = get e' k) ->
  get (hashFields e) f = absentDefault f
  /\ hashFields e = hashFields e'
  /\ calculateEventHash e = calculateEventHash e'.
Proof.
  intros Hf Hu Hd Hother.
  assert (Hor : forall g, In g projectedFields ->
            or (get e g) (absentDefault g) = or (get e' g) (absentDefault g)).
  { intros g Hg. destruct (string_dec g f) as [->|Hne].
    - rewrite Hu, Hd. unfold absentDefault.
      destruct (String.eqb f "location"); reflexivity.
    - now rewrite Hother. }
  assert (HF : hashFields e = hashFields e').
  { unfold hashFields.
    pose proof (Hor "name") as H1. pose proof (Hor "dateStart") as H2.
    pose proof (Hor "dateEnd") as H3. pose proof (Hor "location") as H4.
    pose proof (Hor "category") as H5. pose proof (Hor "level") as H6.
    pose proof (Hor "prize") as H7. pose proof (Hor "url") as H8.
    unfold absentDefault in H1, H2, H3, H4, H5, H6, H7, H8.
    cbn [String.eqb Ascii.eqb Bool.eqb] in H1, H2, H3, H4, H5, H6, H7, H8.
    rewrite H1, H2, H3, H4, H5, H6, H7, H8
      by (unfold projectedFields; cbn [In]; auto 10).
    reflexivity. }
  split; [|split; [exact HF | now apply hash_of_hashFields]].
  unfold projectedFields in Hf. cbn [In] in Hf. unfold hashFields.
  repeat (destruct Hf as [<-|Hf]; [cbn [get String.eqb Ascii.eqb Bool.eqb]; rewrite Hu; reflexivity|]).
  destruct Hf.
Qed.

(** An event without [prize] and the same event with an empty [prize];
    without [location] and with an empty [location]. *)
Lemma absent_field_hashes_as_default_witness :
  let e := [("name", VString "X"); ("dateStart", VString "2025-01-07")] in
  let e' := [("name", VString "X"); ("prize", VString ""); ("dateStart", VString "2025-01-07")] in
  let e'' := [("location", VObject []); ("name", VString "X");
              ("dateStart", VString "2025-01-07")] in
  get (hashFields e) "prize" = VString ""
  /\ calculateEventHash e = calculateEventHash e'
  /\ get (hashFields e) "location" = VObject []
  /\ calculateEventHash e = calculateEventHash e''.
Proof.
  cbv zeta.
  destruct (absent_field_hashes_as_default
              [("name", VString "X"); ("dateStart", VString "2025-01-07")]
              [("name", VString "X"); ("prize", VString ""); ("dateStart", VString "2025-01-07")]
              "prize") as (H1 & _ & H3).
  - unfold projectedFields. cbn [In]. auto 10.
  - reflexivity.
  - reflexivity.
  - intros k Hk. cbn [get].
    destruct (String.eqb_spec "prize" k) as [Heq|_]; [congruence | reflexivity].
  - destruct (absent_field_hashes_as_default
                [("name", VString "X"); ("dateStart", VString "2025-01-07")]
                [("location", VObject []); ("name", VString "X");
                 ("dateStart", VString "2025-01-07")]
                "location") as (H4 & _ & H6).
    + unfold projectedFields. cbn [In]. auto 10.
    + reflexivity.
    + reflexivity.
    + intros k Hk. cbn [get].
      destruct (String.eqb_spec "location" k) as [Heq|_]; [congruence | reflexivity].
    + repeat split; assumption.
Defined.

End HashFacts.

(* ================================================================== *)
(** ** The sync state store *)

Module StoreFacts.

Import Effects Data World SyncStateManager.
Local Open Scope string_scope.

Section WithEnv.

Context {W : Type} {env : Env W}.

(** C8.  When reading the state file fails because the file does not exist
    ([ENOENT]), [loadSyncState] returns the empty state, whose version is
    set and whose map of sports is empty, and does not throw; when reading
    fails for any other reason, it throws the error it caught. *)
Theorem loadSyncState_bootstrap (w w' : W) (error : JsError) :
  fs_readFile w = (w', inl error) ->
  (code_is error (StrCode "ENOENT") = true -> loadSyncState w = (w', inr emptyState))
  /\ (code_is error (StrCode "ENOENT") = false -> loadSyncState w = (w', inl error))
  /\ version emptyState = "1.0"
  /\ lastSync emptyState = None
  /\ sports emptyState = [].
Proof.
  intros Hread. unfold loadSyncState, try_catch, bind. rewrite Hread.
  repeat split; intros Hc; now rewrite Hc.
Qed.

(** A document that was read is parsed, and a parse error is thrown on
    unless it carries the code [ENOENT], which a [SyntaxError] does not. *)
Lemma loadSyncState_read (w w' : W) (data : string) :
  fs_readFile w = (w', inr data) ->
  loadSyncState w
  = match JSON_parse data with
    | inr syncState => (w', inr syncState)
    | inl error =>
        if code_is error (StrCode "ENOENT") then (w', inr emptyState) else (w', inl error)
    end.
Proof.
  intros Hread. unfold loadSyncState, try_catch, bind, lift. rewrite Hread.
  destruct (JSON_parse data) as [error|syncState]; [|reflexivity].
  destruct (code_is error (StrCode "ENOENT")); reflexivity.
Qed.

End WithEnv.

Import Scripted.

(** A first run, and a run that may not read the file. *)
Lemma loadSyncState_bootstrap_witness :
  let denied := mkError (StrCode "EACCES") "permission denied" in
  loadSyncState (Scripted.fresh []) = (Scripted.fresh [], inr emptyState)
  /\ loadSyncState (Scripted.mkWorld 0 (inl denied) [])
     = (Scripted.mkWorld 0 (inl denied) [], inl denied).
Proof.
  cbv zeta. split.
  - apply (loadSyncState_bootstrap (env := Scripted.env) (Scripted.fresh []) (Scripted.fresh [])
             (mkError (StrCode "ENOENT") "no such file or directory")); reflexivity.
  - apply (loadSyncState_bootstrap (env := Scripted.env)
             (Scripted.mkWorld 0 (inl (mkError (StrCode "EACCES") "permission denied")) [])
             (Scripted.mkWorld 0 (inl (mkError (StrCode "EACCES") "permission denied")) [])
             (mkError (StrCode "EACCES") "permission denied")); reflexivity.
Defined.

End StoreFacts.

(* ================================================================== *)
(** ** Repair *)

Module RepairFacts.

Import Effects Data World SyncService TraceSpec.
Local Open Scope string_scope.
Local Open Scope list_scope.

Section WithEnv.

Context {W : Type} {env : Env W}.

Implicit Types (st : RepairLoop (W := W)).

Lemma verifyEntry_step calId st k r :
  let st' := verifyEntry calId st (k, r) in
  exists o,
    repairTrace st' = repairTrace st ++ [(k, o)]
    /\ Dict.get (repairEvents st') k
       = (if not_found o then None else Dict.get (repairEvents st) k)
    /\ (forall k', k' <> k -> Dict.get (repairEvents st') k' = Dict.get (repairEvents st) k')
    /\ repairedCount st' = repairedCount st + (if not_found o then 1 else 0)
    /\ repairWorld st' = fst (events_get calId (googleEventId r) (repairWorld st)).
Proof.
  destruct st as [w evs n tr]. cbv zeta. unfold verifyEntry.
  cbn [repairTrace repairEvents repairedCount repairWorld].
  destruct (events_get calId (googleEventId r) w) as [w1 [error|[]]].
  - exists (Threw error). cbn [not_found fst].
    destruct (code_is error (NumCode 404));
      cbn [repairTrace repairEvents repairedCount repairWorld].
    + rewrite DictFacts.get_delete_eq.
      split; [reflexivity|]. split; [reflexivity|].
      split; [intros k' Hk'; apply DictFacts.get_delete_neq; congruence|].
      split; [lia | reflexivity].
    + split; [reflexivity|]. split; [reflexivity|].
      split; [reflexivity|]. split; [lia | reflexivity].
  - exists Done. cbn [not_found fst repairTrace repairEvents repairedCount repairWorld].
    split; [reflexivity|]. split; [reflexivity|].
    split; [reflexivity|]. split; [lia | reflexivity].
Qed.

Lemma verifyEntry_fold calId (L : Dict.t SyncRecord) :
  forall st, NoDup (Dict.keys L) ->
  let st' := fold_left (verifyEntry calId) L st in
  exists T,
    repairTrace st' = repairTrace st ++ T
    /\ map fst T = Dict.keys L
    /\ Forall (fun x => Dict.get (repairEvents st') (fst x)
                        = if not_found (snd x) then None
                          else Dict.get (repairEvents st) (fst x)) T
    /\ (forall k, ~ In k (Dict.keys L) ->
          Dict.get (repairEvents st') k = Dict.get (repairEvents st) k)
    /\ repairedCount st'
       = repairedCount st + List.length (filter (fun x => not_found (snd x)) T).
Proof.
  induction L as [|[k r] L IH]; intros st Hnd; cbv zeta.
  - exists []. cbn [fold_left map Dict.keys filter List.length].
    rewrite app_nil_r. repeat split; auto.
  - cbn [fold_left]. inversion Hnd as [|? ? Hk HndL]; subst.
    destruct (verifyEntry_step calId st k r) as (o & Ht & Hget & Hoth & Hn & _).
    specialize (IH (verifyEntry calId st (k, r)) HndL). cbv zeta in IH.
    destruct IH as (T & Ht' & Hkeys & HF & Hoth' & Hn').
    exists ((k, o) :: T).
    split; [rewrite Ht', Ht, <- app_assoc; reflexivity|].
    split; [cbn [map fst Dict.keys]; f_equal; exact Hkeys|].
    split.
    { constructor.
      - cbn [fst snd]. rewrite Hoth' by assumption. exact Hget.
      - apply Forall_forall. intros [k' o'] Hin.
        rewrite Forall_forall in HF. specialize (HF _ Hin). cbn [fst snd] in *.
        rewrite HF. destruct (not_found o'); [reflexivity|].
        apply Hoth. intros ->. apply Hk. rewrite <- Hkeys.
        change (In (fst (k, o')) (map fst T)). now apply in_map. }
    split.
    { intros k' Hk'. rewrite Hoth'.
      - apply Hoth. intros ->. apply Hk'. now left.
      - intros Hin. apply Hk'. now right. }
    rewrite Hn', Hn. cbn [filter snd]. destruct (not_found o); cbn [List.length]; lia.
Qed.

(** C6.  The repair loop examines every record once, in order.  A record is
    purged exactly when its existence check threw an error whose code is 404;
    after any other outcome, a success or an error with another code or with
    none, the record is the one it was.  The count of repairs is the
    number of checks that ended in 404, and [repairSyncState] returns it
    with the number of records the sport had. *)
Theorem repair_purges_only_not_found calId (evs : Dict.t SyncRecord) (w : W) :
  NoDup (Dict.keys evs) ->
  let st := verifyEntries calId evs w in
  map fst (repairTrace st) = Dict.keys evs
  /\ (forall k o, In (k, o) (repairTrace st) ->
        (Dict.get (repairEvents st) k = None <-> not_found o = true)
        /\ (not_found o = false -> Dict.get (repairEvents st) k = Dict.get evs k))
  /\ repairedCount st
     = List.length (filter (fun x => not_found (snd x)) (repairTrace st))
  /\ (forall sportId syncState sportState (w0 w1 w' : W) res syncState',
        authorize w0 = (w1, inr tt) ->
        SyncStateManager.loadSyncState w1 = (w, inr syncState) ->
        Dict.get (sports syncState) sportId = Some sportState ->
        events sportState = evs -> calendarId sportState = calId ->
        repairSyncState_state sportId w0 = (w', inr (res, syncState')) ->
        res = mkRepairResult (repairedCount st) (List.length evs)
        /\ exists sportState',
             Dict.get (sports syncState') sportId = Some sportState'
             /\ events sportState' = repairEvents st).
Proof.
  intros Hnd st. subst st. unfold verifyEntries.
  destruct (verifyEntry_fold calId evs (mkRepairLoop w evs 0 []) Hnd)
    as (T & Ht & Hkeys & HF & _ & Hn).
  cbn [repairTrace repairEvents repairedCount app] in Ht, HF, Hn.
  rewrite Ht. split; [exact Hkeys|]. split; [|split; [exact Hn|]].
  - intros k o Hin. rewrite Forall_forall in HF. specialize (HF _ Hin).
    cbn [fst snd] in HF. rewrite HF.
    assert (Hk : In k (Dict.keys evs)).
    { rewrite <- Hkeys. change (In (fst (k, o)) (map fst T)). now apply in_map. }
    apply DictFacts.in_keys_get in Hk. destruct Hk as [r Hr].
    destruct (not_found o); rewrite ?Hr; repeat split; congruence.
  - intros sportId syncState sportState w0 w1 w' res syncState' Ha Hl Hs He Hc.
    unfold repairSyncState_state, bind. rewrite Ha, Hl, Hs, He, Hc.
    unfold verifyEntries.
    destruct (0 <? repairedCount (fold_left (verifyEntry calId) evs (mkRepairLoop w evs 0 [])))%nat.
    + destruct (SyncStateManager.saveSyncState _ _) as [w2 [err|[]]]; [discriminate|].
      intros [= <- <- <-]. split.
      * unfold Dict.keys. now rewrite length_map.
      * eexists. cbn [sports]. rewrite DictFacts.get_set_eq. split; reflexivity.
    + intros [= <- <- <-]. split.
      * unfold Dict.keys. now rewrite length_map.
      * eexists. cbn [sports]. rewrite DictFacts.get_set_eq. split; reflexivity.
Qed.

End WithEnv.

Import Scripted.

(** Three records: the first is found, the check of the second times out
    and the third is gone from the calendar.  Only the third is purged. *)
Lemma repair_purges_only_not_found_witness :
  let evs := [("A", synced "g1" eventA); ("B", synced "g2" eventB); ("C", synced "g3" eventC)] in
  let st := verifyEntries (Some "cal") evs (fresh [None; Some timedOut; Some notFound]) in
  NoDup (Dict.keys evs)
  /\ Dict.get (repairEvents st) "A" = Some (synced "g1" eventA)
  /\ Dict.get (repairEvents st) "B" = Some (synced "g2" eventB)
  /\ Dict.get (repairEvents st) "C" = None
  /\ repairedCount st = 1.
Proof.
  cbv zeta.
  assert (H1 : NoDup (Dict.keys [("A", synced "g1" eventA); ("B", synced "g2" eventB);
                                 ("C", synced "g3" eventC)])).
  { cbn. repeat constructor; cbn; intuition discriminate. }
  split; [exact H1|].
  destruct (repair_purges_only_not_found (Some "cal") _
              (fresh [None; Some timedOut; Some notFound]) H1) as (_ & HR & HN & _).
  split; [|split; [|split]].
  - destruct (HR "A" Done) as [_ H]; [vm_compute; auto|]. rewrite H; reflexivity.
  - destruct (HR "B" (Threw timedOut)) as [_ H]; [vm_compute; auto|]. rewrite H; reflexivity.
  - destruct (HR "C" (Threw notFound)) as [H _]; [vm_compute; auto|]. apply H. reflexivity.
  - rewrite HN. vm_compute. reflexivity.
Defined.

End RepairFacts.

(* ================================================================== *)
(** * Further properties *)

(** ** The content hash *)

Module HashExtras.

Import Js HashUtils HashSpec ExtraSpec HashFacts.
Local Open Scope string_scope.
Local Open Scope list_scope.

(** *** The shape of the digest *)

Lemma le_bytes_length (n : nat) : forall x, List.length (MD5.le_bytes n x) = n.
Proof. induction n as [|n IH]; intros x; cbn [MD5.le_bytes List.length]; auto. Qed.

Lemma le_bytes_range (n : nat) :
  forall x, Forall (fun b => (0 <= b < 256)%Z) (MD5.le_bytes n x).
Proof.
  induction n as [|n IH]; intros x; cbn [MD5.le_bytes]; constructor; auto.
  apply Z.mod_pos_bound. lia.
Qed.

Lemma digest_length (msg : list Z) : List.length (MD5.digest msg) = 16.
Proof.
  unfold MD5.digest. cbv zeta. rewrite !length_app, !le_bytes_length. reflexivity.
Qed.

Lemma digest_range (msg : list Z) : Forall (fun b => (0 <= b < 256)%Z) (MD5.digest msg).
Proof.
  unfold MD5.digest. cbv zeta. repeat (apply Forall_app; split); apply le_bytes_range.
Qed.

Lemma hex_digit_is_hex (n : N) : (n < 16)%N -> is_hex (hex_digit n) = true.
Proof.
  intros H.
  assert (Hall : forallb (fun k => is_hex (hex_digit k)) (map N.of_nat (seq 0 16)) = true)
    by reflexivity.
  rewrite forallb_forall in Hall. apply Hall.
  apply in_map_iff. exists (N.to_nat n). split; [lia | apply in_seq; lia].
Qed.

Lemma hex_of_byte_shape (b : Z) :
  (0 <= b < 256)%Z ->
  String.length (MD5.hex_of_byte b) = 2 /\ all_hex (MD5.hex_of_byte b) = true.
Proof.
  intros H. unfold MD5.hex_of_byte. split; [reflexivity|].
  cbn [all_hex]. rewrite !hex_digit_is_hex; [reflexivity| |].
  - assert (0 <= b mod 16 < 16)%Z by (apply Z.mod_pos_bound; lia). lia.
  - assert (0 <= b / 16 < 16)%Z by (Z.div_mod_to_equations; lia). lia.
Qed.

Lemma all_hex_app (a b : string) : all_hex (a ++ b)%string = all_hex a && all_hex b.
Proof.
  induction a as [|c a IH]; cbn [append all_hex]; [reflexivity|].
  now rewrite IH, andb_assoc.
Qed.

Lemma string_length_app (a b : string) :
  String.length (a ++ b)%string = String.length a + String.length b.
Proof.
  induction a as [|c a IH]; cbn [append String.length Nat.add]; [reflexivity|].
  now rewrite IH.
Qed.

Lemma concat_hex_shape (bs : list Z) :
  Forall (fun b => (0 <= b < 256)%Z) bs ->
  String.length (String.concat "" (map MD5.hex_of_byte bs)) = 2 * List.length bs
  /\ all_hex (String.concat "" (map MD5.hex_of_byte bs)) = true.
Proof.
  induction 1 as [|b bs Hb Hbs IH]; [split; reflexivity|].
  destruct IH as [IHl IHh]. destruct (hex_of_byte_shape b Hb) as [Hl Hh].
  cbn [map List.length]. destruct bs as [|b' bs].
  - cbn [map String.concat]. rewrite Hl, Hh. split; reflexivity.
  - change (String.concat "" (MD5.hex_of_byte b :: map MD5.hex_of_byte (b' :: bs)))
      with (MD5.hex_of_byte b ++ "" ++ String.concat "" (map MD5.hex_of_byte (b' :: bs)))%string.
    cbn [append]. rewrite string_length_app, all_hex_app, Hl, Hh, IHl, IHh.
    cbn [map List.length]. split; [lia | reflexivity].
Qed.

Lemma substring_shape (n : nat) :
  forall s, n <= String.length s ->
  String.length (String.substring 0 n s) = n
  /\ (all_hex s = true -> all_hex (String.substring 0 n s) = true).
Proof.
  induction n as [|n IH]; intros s Hn.
  - destruct s; split; reflexivity.
  - destruct s as [|c s]; cbn [String.length] in Hn; [lia|].
    cbn [String.substring String.length all_hex].
    destruct (IH s ltac:(lia)) as [IHl IHh]. split; [now rewrite IHl|].
    intros H. apply andb_true_iff in H. destruct H as [Hc Hs].
    now rewrite Hc, IHh.
Qed.

(** X1.  The hash of any event is a string of sixteen lowercase
    hexadecimal digits. *)
Theorem hash_is_sixteen_hex_digits (event : object) :
  String.length (calculateEventHash event) = 16
  /\ all_hex (calculateEventHash event) = true.
Proof.
  unfold calculateEventHash, MD5.md5_hex.
  destruct (concat_hex_shape (MD5.digest (MD5.bytes_of_string (hashInput event)))
              (digest_range _)) as [Hl Hh].
  rewrite digest_length in Hl.
  destruct (substring_shape 16 _ ltac:(rewrite Hl; cbn; lia)) as [Hl' Hh'].
  split; [exact Hl' | exact (Hh' Hh)].
Qed.

(** *** What the hash reads *)

(** X2.  The hash reads an event through its eight projected properties
    only, each replaced by its default when falsy: two events for which
    [event.f || default] agree on the eight fields have the same hash,
    whatever their other properties ([id], [description], [rawData]) and
    whether a field is absent, [null] or empty. *)
Theorem hash_reads_defaulted_projection (e1 e2 : object) :
  (forall f, In f projectedFields ->
     or (get e1 f) (absentDefault f) = or (get e2 f) (absentDefault f)) ->
  calculateEventHash e1 = calculateEventHash e2.
Proof.
  intros H. apply hash_of_hashFields. unfold hashFields.
  pose proof (H "name") as H1. pose proof (H "dateStart") as H2.
  pose proof (H "dateEnd") as H3. pose proof (H "location") as H4.
  pose proof (H "category") as H5. pose proof (H "level") as H6.
  pose proof (H "prize") as H7. pose proof (H "url") as H8.
  unfold absentDefault in H1, H2, H3, H4, H5, H6, H7, H8.
  cbn [String.eqb Ascii.eqb Bool.eqb] in H1, H2, H3, H4, H5, H6, H7, H8.
  rewrite H1, H2, H3, H4, H5, H6, H7, H8
    by (unfold projectedFields; cbn [In]; auto 10).
  reflexivity.
Qed.

(** An event with a [null] prize, a description and an id, and the bare
    event with an empty prize. *)
Lemma hash_reads_defaulted_projection_witness :
  calculateEventHash
    [("id", VString "bwf-1"); ("name", VString "X"); ("prize", VNull);
     ("description", VString "text")]
  = calculateEventHash [("prize", VString ""); ("name", VString "X")].
Proof.
  apply hash_reads_defaulted_projection.
  intros f Hf. unfold projectedFields in Hf. cbn [In] in Hf.
  repeat (destruct Hf as [<-|Hf]; [reflexivity|]). destruct Hf.
Defined.

(** X3.  The hash does not depend on the order in which an event lists its
    own properties. *)
Theorem hash_top_level_order (e1 e2 : object) :
  NoDup (keys e1) -> Permutation e1 e2 -> calculateEventHash e1 = calculateEventHash e2.
Proof.
  intros Hnd Hp. apply hash_of_hashFields, hashFields_ext.
  intros f _. now apply get_permutation.
Qed.

Lemma hash_top_level_order_witness :
  calculateEventHash [("name", VString "X"); ("url", VString "u")]
  = calculateEventHash [("url", VString "u"); ("name", VString "X")].
Proof.
  apply hash_top_level_order.
  - cbn. repeat constructor; cbn; intuition discriminate.
  - apply perm_swap.
Defined.

End HashExtras.

(* ================================================================== *)
(** ** Writing the sync state *)

Module StoreExtras.

Import Effects Data World SyncStateManager Logged ExtraSpec.
Local Open Scope string_scope.
Local Open Scope list_scope.

Section WithEnv.

Context {W : Type} {base : Env W}.

Local Abbreviation save := (@saveSyncState (W * list Step) (Logged.env base)).
Local Abbreviation load := (@loadSyncState (W * list Step) (Logged.env base)).

Ltac run_save s w :=
  unfold saveSyncState; change (Z.to_nat retries) with 3%nat;
  cbn [saveSyncState_loop]; unfold retries, try_catch, throw, ret;
  cbn [fs_writeState sleep Logged.env]; unfold logging; cbn [fst snd].

Ltac zsimpl :=
  cbn [fst snd is_ok Z.eqb Z.sub Z.add Z.mul Z.opp Z.pos_sub Pos.mul Pos.add Pos.succ Pos.eqb].

(** X4.  [saveSyncState] writes the state it is given at most three times:
    it stops at the first write that succeeds, waits one second after the
    first failure and two after the second, and after a third failure
    throws without waiting. *)
Theorem saveSyncState_attempts (syncState : SyncState) (w : W) (log : list Step) :
  let out := save syncState (w, log) in
  let bad := WriteState syncState false in
  let good := WriteState syncState true in
  (snd out = inr tt
   /\ (snd (fst out) = log ++ [good]
       \/ snd (fst out) = log ++ [bad; Sleep 1000; good]
       \/ snd (fst out) = log ++ [bad; Sleep 1000; bad; Sleep 2000; good]))
  \/ (is_ok (snd out) = false
      /\ snd (fst out) = log ++ [bad; Sleep 1000; bad; Sleep 2000; bad]).
Proof.
  cbv zeta. run_save syncState w.
  destruct (fs_writeState syncState w) as [w1 [e1|[]]]; cbn [fst snd is_ok Z.eqb Z.sub Z.add Z.mul Z.opp Z.pos_sub Pos.mul Pos.add Pos.succ];
    [|left; split; [reflexivity | left; reflexivity]].
  destruct (fs_writeState syncState (sleep 1000 w1)) as [w2 [e2|[]]];
    cbn [fst snd is_ok Z.eqb Z.sub Z.add Z.mul Z.opp Z.pos_sub Pos.mul Pos.add Pos.succ Pos.eqb];
    [|left; split; [reflexivity | right; left; rewrite <- !app_assoc; reflexivity]].
  destruct (fs_writeState syncState (sleep 2000 w2)) as [w3 [e3|[]]];
    cbn [fst snd is_ok];
    [right | left]; (split; [reflexivity|]); [|right; right];
    rewrite <- !app_assoc; reflexivity.
Qed.

(** A successful save ends the log with the successful write. *)
Lemma saveSyncState_done (syncState : SyncState) (wl wl' : W * list Step) :
  save syncState wl = (wl', inr tt) ->
  exists steps, snd wl' = steps ++ [WriteState syncState true].
Proof.
  destruct wl as [w log]. run_save syncState w.
  destruct (fs_writeState syncState w) as [w1 [e1|[]]]; zsimpl;
    [|intros [= <-]; eexists; reflexivity].
  destruct (fs_writeState syncState (sleep 1000 w1)) as [w2 [e2|[]]]; zsimpl;
    [|intros [= <-]; eexists; reflexivity].
  destruct (fs_writeState syncState (sleep 2000 w2)) as [w3 [e3|[]]]; zsimpl;
    [|intros [= <-]; eexists; reflexivity].
  intros H; discriminate H.
Qed.

Lemma writes_app (l1 l2 : list Step) : writes (l1 ++ l2) = writes l1 ++ writes l2.
Proof. unfold writes. apply flat_map_app. Qed.

Lemma last_write (steps : list Step) (syncState : SyncState) (d : SyncState * bool) :
  last (writes (steps ++ [WriteState syncState true])) d = (syncState, true).
Proof. rewrite writes_app. cbn [writes flat_map app]. apply last_last. Qed.

(** X5.  For a sport id and an event id that are not names of members of
    [Object.prototype], a call of [updateSyncState] that returns has
    written, last, the state it loaded with the record of the event
    replaced by the new one: every other record of every sport is as it was
    loaded, also when the sport had to be created. *)
Theorem updateSyncState_writes_record
    (sportId eventId : string) (syncData : SyncRecord) (wl wl' : W * list Step) :
  Js.ordinary sportId = true -> Js.ordinary eventId = true ->
  @updateSyncState _ (Logged.env base) sportId eventId syncData wl = (wl', inr tt) ->
  exists state state',
    snd (load wl) = inr state
    /\ last (writes (snd wl')) (state, false) = (state', true)
    /\ version state' = version state
    /\ record state' sportId eventId = Some syncData
    /\ forall s k, (s, k) <> (sportId, eventId) -> record state' s k = record state s k.
Proof.
  intros _ _. unfold updateSyncState, updateSyncState_state, bind.
  destruct (load wl) as [wl1 [e|state]]; [intros H; discriminate H|].
  destruct (now wl1) as [wl2 ts].
  match goal with |- context [save ?s wl2] => set (state' := s) end.
  destruct (save state' wl2) as [wl3 [e|[]]] eqn:Hsave; [intros H; discriminate H|].
  unfold ret. intros [= <-].
  destruct (saveSyncState_done _ _ _ Hsave) as [steps Hsteps].
  exists state, state'. split; [reflexivity|]. split; [rewrite Hsteps; apply last_write|].
  split; [reflexivity|]. unfold record, state'. cbn [sports].
  split.
  - rewrite DictFacts.get_set_eq. cbn [events]. apply DictFacts.get_set_eq.
  - intros s k Hne. destruct (string_dec sportId s) as [<-|Hs].
    + rewrite DictFacts.get_set_eq. cbn [events].
      rewrite DictFacts.get_set_neq by congruence.
      destruct (Dict.get (sports state) sportId); reflexivity.
    + now rewrite DictFacts.get_set_neq.
Qed.

(** X6.  For a sport id and an event id that are not names of members of
    [Object.prototype], [removeSyncState] writes nothing and does not read
    the clock when the state has no record of the event; when it has one
    and the call returns, the state written last is the loaded one without
    that record, every other record as it was. *)
Theorem removeSyncState_writes_removal
    (sportId eventId : string) (wl wl' : W * list Step) :
  Js.ordinary sportId = true -> Js.ordinary eventId = true ->
  @removeSyncState _ (Logged.env base) sportId eventId wl = (wl', inr tt) ->
  exists state,
    snd (load wl) = inr state
    /\ match record state sportId eventId with
       | None => wl' = fst (load wl)
       | Some _ =>
           exists state',
             last (writes (snd wl')) (state, false) = (state', true)
             /\ version state' = version state
             /\ record state' sportId eventId = None
             /\ forall s k, (s, k) <> (sportId, eventId) -> record state' s k = record state s k
       end.
Proof.
  intros _ _. unfold removeSyncState, removeSyncState_state, bind, record.
  destruct (load wl) as [wl1 [e|state]]; [intros H; discriminate H|].
  cbn [fst snd].
  destruct (Dict.get (sports state) sportId) as [sportState|] eqn:Hsport;
    [|cbv beta iota delta [ret]; intros H; assert (wl' = wl1) by congruence;
      exists state; rewrite Hsport; split; [reflexivity | assumption]].
  destruct (Dict.get (events sportState) eventId) as [found|] eqn:Hfound;
    [|cbv beta iota delta [ret]; intros H; assert (wl' = wl1) by congruence;
      exists state; rewrite Hsport, Hfound; split; [reflexivity | assumption]].
  destruct (now wl1) as [wl2 ts].
  match goal with |- context [save ?s wl2] => set (state' := s) end.
  destruct (save state' wl2) as [wl3 [e|[]]] eqn:Hsave; [intros H; discriminate H|].
  unfold ret. intros [= <-].
  destruct (saveSyncState_done _ _ _ Hsave) as [steps Hsteps].
  exists state. split; [reflexivity|]. rewrite Hsport, Hfound. exists state'.
  split; [rewrite Hsteps; apply last_write|].
  split; [reflexivity|]. unfold state'. cbn [sports].
  split.
  - rewrite DictFacts.get_set_eq. cbn [events]. apply DictFacts.get_delete_eq.
  - intros s k Hne. destruct (string_dec sportId s) as [<-|Hs].
    + rewrite DictFacts.get_set_eq, Hsport. cbn [events].
      apply DictFacts.get_delete_neq. congruence.
    + now rewrite DictFacts.get_set_neq.
Qed.

End WithEnv.

Import Scripted.

(** The first record of a sport the state does not have yet. *)
Lemma updateSyncState_writes_record_witness :
  exists state',
    last (writes (snd (fst (@updateSyncState _ (Logged.env Scripted.env)
                              "bwf" "A" (synced "g1" eventA) (fresh [], [])))))
         (emptyState, false) = (state', true)
    /\ record state' "bwf" "A" = Some (synced "g1" eventA).
Proof.
  destruct (updateSyncState_writes_record (base := Scripted.env)
              "bwf" "A" (synced "g1" eventA) (fresh [], [])
              (fst (@updateSyncState _ (Logged.env Scripted.env)
                      "bwf" "A" (synced "g1" eventA) (fresh [], []))))
    as (state & state' & Hload & Hlast & _ & Hrec & _).
  - reflexivity.
  - reflexivity.
  - vm_compute. reflexivity.
  - vm_compute in Hload. injection Hload as Hs. subst state.
    exists state'. split; assumption.
Defined.

(** A state with the records of two events, of which the first is removed. *)
Lemma removeSyncState_writes_removal_witness :
  let sport := mkSportSyncState (Some "cal")
                 [("A", synced "g1" eventA); ("B", synced "g2" eventB)]
                 (mkSportStats None None) in
  let state := mkSyncState "1.0" None [("bwf", sport)] in
  let wl := (mkWorld 0 (inr "{}") [], []) in
  exists state',
    last (writes (snd (fst (@removeSyncState _ (Logged.env (holding (inr state))) "bwf" "A" wl))))
         (state, false) = (state', true)
    /\ record state' "bwf" "A" = None
    /\ record state' "bwf" "B" = Some (synced "g2" eventB).
Proof.
  intros sport state wl.
  destruct (removeSyncState_writes_removal (base := holding (inr state)) "bwf" "A" wl
              (fst (@removeSyncState _ (Logged.env (holding (inr state))) "bwf" "A" wl)))
    as (state0 & Hload & H).
  - reflexivity.
  - reflexivity.
  - vm_compute. reflexivity.
  - assert (Hs : inr state0 = inr (A := JsError) state)
      by (rewrite <- Hload; vm_compute; reflexivity).
    injection Hs as Hs. subst state0.
    change (record state "bwf" "A") with (Some (synced "g1" eventA)) in H.
    destruct H as (state' & Hlast & _ & Hgone & Hrest).
    exists state'. split; [exact Hlast|]. split; [exact Hgone|].
    rewrite Hrest by (intros E; discriminate E). reflexivity.
Defined.

End StoreExtras.

(* ================================================================== *)
(** ** Dates and the request body, in full *)

Module BuildExtras.

Import Effects Data World SyncService JsDate JsDateFacts BuildFacts ExtraSpec.
Local Open Scope string_scope.
Local Open Scope Z_scope.

(** A day past the end of the month is a day of the next month. *)
Lemma MakeDay_overflow y m d :
  1 <= m <= 12 -> DaysInMonth y m < d <= 31 ->
  m <= 11 /\ MakeDay y (m - 1) d = MakeDay y (m + 1 - 1) (d - DaysInMonth y m).
Proof.
  intros Hm Hd.
  assert (Hm11 : m <= 11).
  { destruct (Z.eq_dec m 12) as [->|]; [|lia]. change (DaysInMonth y 12) with 31 in Hd. lia. }
  split; [exact Hm11|].
  unfold MakeDay.
  replace ((m - 1) / 12) with 0 by (Z.div_mod_to_equations; lia).
  replace ((m - 1) mod 12) with (m - 1) by (Z.div_mod_to_equations; lia).
  replace ((m + 1 - 1) / 12) with 0 by (Z.div_mod_to_equations; lia).
  replace ((m + 1 - 1) mod 12) with (m + 1 - 1) by (Z.div_mod_to_equations; lia).
  generalize (DayFromYear (y + 0)). intros D. revert Hd. unfold DaysInMonth.
  destruct (DaysInYear_cases (y + 0)) as [Hy|Hy]; rewrite Hy;
    replace (y + 0) with y in Hy by lia; rewrite Hy;
    each_month Hm; try lia; calendar_values; lia.
Qed.

Lemma carried_spec y m d :
  1 <= m <= 12 -> 1 <= d <= 31 ->
  let '(y0, m0, d0) := carried y m d in
  y0 = y /\ 1 <= m0 <= 12 /\ 1 <= d0 <= DaysInMonth y0 m0
  /\ MakeDay y (m - 1) d = MakeDay y0 (m0 - 1) d0.
Proof.
  intros Hm Hd. unfold carried.
  destruct (Z.leb_spec d (DaysInMonth y m)) as [Hle|Hgt].
  - repeat split; auto; lia.
  - destruct (MakeDay_overflow y m d Hm ltac:(lia)) as [Hm11 HMD].
    pose proof (DaysInMonth_pos y m). pose proof (DaysInMonth_pos y (m + 1)).
    repeat split; auto; lia.
Qed.

(** The end date of any string whose date part reads as a date. *)
Lemma formatDate_end_carried (s : string) (y m d : Z) :
  parse_ymd (before_T s) = Some (y, m, d) ->
  formatDate (Js.VString s) true
  = inr (let '(y0, m0, d0) := carried y m d in iso_next_day y0 m0 d0).
Proof.
  intros Hp. pose proof (parse_ymd_range _ _ _ _ Hp) as (Hy & Hm & Hd1).
  pose proof (carried_spec y m d Hm Hd1) as Hc.
  destruct (carried y m d) as [[y0 m0] d0]. destruct Hc as (-> & Hm0 & Hd0 & HMD).
  assert (H0 : 0 <= 0 < msPerDay) by (unfold msPerDay; lia).
  cbv beta iota zeta delta [formatDate]. rewrite parse_date_part, Hp.
  rewrite TimeClip_MakeDay by lia.
  rewrite HMD.
  destruct (civil_of_MakeDay y m0 d0 0 Hm0 Hd0 H0) as (HY & HM & HD).
  cbn [getUTCDate option_map setUTCDate]. rewrite HY, HM, HD.
  rewrite TimeWithinDay_MakeDate by assumption.
  pose proof (MakeDay_next y m0 d0 Hm0 Hd0) as Hn. unfold iso_next_day.
  destruct (next_day y m0 d0) as [[y' m'] d'].
  destruct Hn as (Hn & Hy' & Hm' & Hd'').
  rewrite Hn.
  pose proof (DaysInMonth_pos y' m').
  rewrite TimeClip_MakeDay by lia.
  destruct (civil_of_MakeDay y' m' d' 0 Hm' Hd'' H0) as (HY' & HM' & HD').
  cbn [toISOString]. rewrite HY', HM', HD'.
  rewrite TimeWithinDay_MakeDate by assumption.
  replace (m' - 1 + 1) with m' by lia.
  f_equal. apply before_T_app. apply iso_date_no_T.
Qed.

(** X7.  [buildEventData] on every event: it throws a [TypeError] when
    [dateStart] or [dateEnd] is not a string (absent or [null], say); when
    both are strings and the date part of [dateEnd] is of the form
    [YYYY-MM-DD], with a month from 01 to 12 and a day from 01 to 31, it
    returns a body whose [start.date] is the date part of [dateStart] and
    whose [end.date] is the day after the date of [dateEnd], a day the month
    does not have, such as February 30, being first carried into the next
    month. *)
Theorem buildEventData_dates (event : Event) :
  match Js.get (fields event) "dateStart", Js.get (fields event) "dateEnd" with
  | Js.VString sStart, Js.VString sEnd =>
      forall y m d,
        parse_ymd (before_T sEnd) = Some (y, m, d) ->
        exists data,
          buildEventData event = inr data
          /\ date (start data) = before_T sStart
          /\ date (end_ data) = (let '(y0, m0, d0) := carried y m d in iso_next_day y0 m0 d0)
  | _, _ => buildEventData event = inl TypeError
  end.
Proof.
  unfold buildEventData.
  destruct (Js.get (fields event) "dateStart") as [| | |sStart|];
    try (destruct (Js.get (fields event) "dateEnd"); reflexivity).
  change (formatDate (Js.VString sStart) false) with (inr (A := JsError) (before_T sStart)).
  cbv iota.
  destruct (Js.get (fields event) "dateEnd") as [| | |sEnd|]; try reflexivity.
  intros y m d Hp.
  rewrite (formatDate_end_carried _ _ _ _ Hp). eexists. split; [reflexivity|].
  split; reflexivity.
Qed.

Section WithEnv.

Context {W : Type} {env : Env W}.

(** X8.  An event [buildEventData] rejects is never sent: creating or
    updating it throws the error without a call on the outside world, and
    the pass leaves the sync state of the sport as it was, so that the
    event is looked at again on the next run. *)
Theorem rejected_event_is_not_sent (event : Event) (error : JsError) :
  buildEventData event = inl error ->
  forall calendarId googleEventId (w : W),
    createCalendarEvent calendarId event w = (w, inl error)
    /\ updateCalendarEvent calendarId googleEventId event w = (w, inl error)
    /\ forall evs sts tr,
         let st' := syncLocalEvent calendarId (mkLoop w evs sts tr) (id event, event) in
         loopWorld st' = w /\ loopEvents st' = evs.
Proof.
  intros Hb calendarId googleEventId w.
  assert (Hc : createCalendarEvent calendarId event w = (w, inl error)).
  { unfold createCalendarEvent, bind, lift. now rewrite Hb. }
  assert (Hu : forall g, updateCalendarEvent calendarId g event w = (w, inl error)).
  { intros g. unfold updateCalendarEvent, bind, lift. now rewrite Hb. }
  split; [exact Hc|]. split; [apply Hu|].
  intros evs sts tr. cbv zeta. unfold syncLocalEvent.
  generalize (HashUtils.calculateEventHash (fields event)). intros h.
  destruct (Dict.get evs (id event)) as [existingSync|].
  - destruct (negb (String.eqb (hash existingSync) h)).
    + rewrite Hu. split; reflexivity.
    + split; reflexivity.
  - rewrite Hc. split; reflexivity.
Qed.

End WithEnv.

(** An event without dates. *)
Lemma rejected_event_is_not_sent_witness :
  createCalendarEvent (env := Scripted.env) "cal" (mkEvent "A" [("name", Js.VString "X")])
    (Scripted.fresh [])
  = (Scripted.fresh [], inl TypeError).
Proof.
  apply (rejected_event_is_not_sent (env := Scripted.env)
           (mkEvent "A" [("name", Js.VString "X")]) TypeError
           ltac:(reflexivity) "cal" "g" (Scripted.fresh [])).
Defined.

End BuildExtras.

(* ================================================================== *)
(** ** The reconciliation pass, further *)

Module SyncExtras.

Import Effects Data World SyncService TraceSpec SyncFacts ExtraSpec.
Local Open Scope string_scope.
Local Open Scope list_scope.

(** *** The map of the local events *)

Lemma find_app {A : Type} (p : A -> bool) (l1 l2 : list A) :
  find p (l1 ++ l2) = match find p l1 with
                      | Some x => Some x
                      | None => find p l2
                      end.
Proof.
  induction l1 as [|a l1 IH]; cbn [app find]; [reflexivity|].
  destruct (p a); [reflexivity | exact IH].
Qed.

Lemma localEventsMap_acc_get (E : list Event) (k : string) :
  forall acc,
  Dict.get (fold_left (fun m event => Dict.set m (id event) event) E acc) k
  = match last_with_id k E with
    | Some e => Some e
    | None => Dict.get acc k
    end.
Proof.
  unfold last_with_id.
  induction E as [|e E IH]; intros acc; cbn [fold_left rev find]; [reflexivity|].
  rewrite IH, find_app. destruct (find _ (rev E)) as [x|]; [reflexivity|].
  cbn [find]. destruct (String.eqb_spec (id e) k) as [<-|Hne].
  - apply DictFacts.get_set_eq.
  - now apply DictFacts.get_set_neq.
Qed.

Lemma existsb_eqb_In (k : string) (seen : list string) :
  existsb (String.eqb k) seen = true <-> In k seen.
Proof.
  rewrite existsb_exists. split.
  - intros (x & Hx & Heq). apply String.eqb_eq in Heq. now subst.
  - intros H. exists k. split; [exact H | apply String.eqb_refl].
Qed.

Lemma localEventsMap_acc_first_ids (E : list Event) :
  forall acc seen,
  (forall x, In x seen <-> In x (Dict.keys acc)) ->
  Dict.keys (fold_left (fun m event => Dict.set m (id event) event) E acc)
  = Dict.keys acc ++ first_ids seen E.
Proof.
  induction E as [|e E IH]; intros acc seen Hseen; cbn [fold_left first_ids].
  - now rewrite app_nil_r.
  - destruct (existsb (String.eqb (id e)) seen) eqn:Hex.
    + apply existsb_eqb_In in Hex. apply Hseen in Hex.
      rewrite (IH _ seen).
      * now rewrite DictFacts.keys_set_present.
      * intros x. now rewrite DictFacts.keys_set_present.
    + assert (Hn : ~ In (id e) (Dict.keys acc)).
      { intros Hin. apply Hseen, existsb_eqb_In in Hin. congruence. }
      rewrite (IH _ (id e :: seen)).
      * rewrite DictFacts.keys_set_absent by assumption. now rewrite <- app_assoc.
      * intros x. rewrite DictFacts.keys_set_absent by assumption.
        rewrite in_app_iff. cbn [In]. rewrite Hseen. tauto.
Qed.

(** X9.  When several local events carry the same id, the map the pass
    iterates over holds that id once, at the place of its first event and
    with the last event as its value: the pass decides one operation for
    the id, on the data of the last event. *)
Theorem localEventsMap_last_wins (localEvents : list Event) :
  (forall k, Dict.get (localEventsMap localEvents) k = last_with_id k localEvents)
  /\ Dict.keys (localEventsMap localEvents) = first_ids [] localEvents.
Proof.
  split.
  - intros k. unfold localEventsMap. rewrite localEventsMap_acc_get.
    destruct (last_with_id k localEvents); reflexivity.
  - unfold localEventsMap. rewrite (localEventsMap_acc_first_ids _ [] []); [reflexivity|].
    intros x. reflexivity.
Qed.

Section WithEnv.

Context {W : Type} {env : Env W}.

(** *** The records after a pass *)

(** X10.  After a pass over events none of whose ids is the name of a
    member of [Object.prototype], in which nothing failed, the sport has a
    record for exactly the ids of the local events, and the record of each
    entry of the local event map carries the hash of its event. *)
Theorem pass_without_failure_is_in_sync calId evs (E : list Event) (w : W) :
  NoDup (Dict.keys evs) ->
  Forall (fun event => Js.ordinary (id event) = true) E ->
  let st := reconcile calId evs E w in
  (forall d o, In (d, o) (trace st) -> o = Done) ->
  (forall k, In k (Dict.keys (loopEvents st)) <-> In k (map id E))
  /\ (forall k e, In (k, e) (localEventsMap E) ->
        exists r, Dict.get (loopEvents st) k = Some r
                  /\ hash r = HashUtils.calculateEventHash (fields e)).
Proof.
  intros Hnd _ st Hok. subst st.
  assert (Hlocal : forall k e, In (k, e) (localEventsMap E) ->
            exists r, Dict.get (loopEvents (reconcile calId evs E w)) k = Some r
                      /\ hash r = HashUtils.calculateEventHash (fields e)).
  { intros k e HinM.
    destruct (local_entry_decided calId evs E w k e Hnd HinM) as ([d o] & Hd & Hr).
    pose proof (Hok d o Hd) as ->. apply local_rel_inv in Hr.
    destruct d as [e'|r e'|e'|k' sd].
    - destruct Hr as (_ & _ & gid & ts & ->). eauto.
    - destruct Hr as (_ & _ & _ & ts & ->). eauto.
    - destruct Hr as (_ & r & _ & Hh & ->). apply String.eqb_eq in Hh. eauto.
    - destruct Hr. }
  split; [|exact Hlocal].
  intros k. split.
  - intros Hin. destruct (in_dec string_dec k (map id E)) as [|Hn]; [assumption|].
    exfalso. apply DictFacts.in_keys_get in Hin. destruct Hin as [r Hget].
    destruct (in_dec string_dec k (Dict.keys evs)) as [Hk|Hk].
    + assert (Ho : In k (orphans evs E)) by (apply in_orphans; auto).
      destruct (orphan_decided calId evs E w k Hnd Ho) as ([d o] & Hd & Hr).
      pose proof (Hok d o Hd) as ->. apply delete_rel_inv in Hr.
      destruct d as [e'|r' e'|e'|k' sd]; try contradiction.
      destruct Hr as (_ & _ & _ & Hpost). congruence.
    + destruct (reconcile_spec calId evs E w Hnd) as (T1 & T2 & _ & _ & _ & _ & Hoth & _).
      rewrite Hoth in Hget; [discriminate | assumption |].
      now rewrite localEventsMap_keys.
  - intros Hin. apply localEventsMap_keys in Hin.
    apply DictFacts.in_keys_get in Hin. destruct Hin as [e Hget].
    apply DictFacts.get_in in Hget. destruct (Hlocal k e Hget) as (r & Hr & _).
    eapply DictFacts.get_some_in; eauto.
Qed.

(** X11.  An id that has a record and a local event keeps its record and
    the remote id in it through a pass, whatever the calendar answers, and
    the pass creates events only for ids that had no record: no id is sent
    to the calendar twice as a new event. *)
Theorem remote_id_is_kept calId evs (E : list Event) (w : W) :
  NoDup (Dict.keys evs) ->
  let st := reconcile calId evs E w in
  (forall k r, Dict.get evs k = Some r -> In k (map id E) ->
     exists r', Dict.get (loopEvents st) k = Some r'
                /\ googleEventId r' = googleEventId r)
  /\ (forall e o, In (CREATE e, o) (trace st) -> Dict.get evs (id e) = None).
Proof.
  intros Hnd st. subst st. split.
  - intros k r Hget Hin. apply localEventsMap_keys in Hin.
    apply DictFacts.in_keys_get in Hin. destruct Hin as [e HgetM].
    apply DictFacts.get_in in HgetM.
    destruct (local_entry_decided calId evs E w k e Hnd HgetM) as ([d o] & Hd & Hr).
    rewrite Hget in Hr. apply local_rel_inv in Hr.
    destruct d as [e'|r0 e'|e'|k' sd], o as [|err]; try contradiction.
    + destruct Hr as (_ & Hp & _). discriminate Hp.
    + destruct Hr as (_ & Hp & _). discriminate Hp.
    + destruct Hr as (_ & Hp & _ & ts & ->). injection Hp as <-. eauto.
    + destruct Hr as (_ & Hp & _ & ->). eauto.
    + destruct Hr as (_ & r0 & Hp & _ & ->). injection Hp as <-. eauto.
  - intros e o Hin.
    destruct (trace_entry_cases calId evs E w _ Hnd Hin) as [(e0 & _ & Hr)|(k & _ & Hr)].
    + apply local_rel_inv in Hr. destruct o; destruct Hr as (<- & Hp & _); exact Hp.
    + apply delete_rel_inv in Hr. destruct Hr.
Qed.

Lemma orphans_of_nothing (evs : Dict.t SyncRecord) : orphans evs [] = Dict.keys evs.
Proof. unfold orphans. apply filter_all. intros k _. reflexivity. Qed.

Lemma deletions_in_order (evs : Dict.t SyncRecord) (post : string -> option SyncRecord)
    (K : list string) (T : Trace) :
  Forall2 (fun k d => delete_rel (Dict.get evs k) k d (post k)) K T ->
  map fst T = map (fun k => DELETE k (Dict.get evs k)) K.
Proof.
  induction 1 as [|k d K T Hd HF IH]; cbn [map]; [reflexivity|].
  destruct Hd as [-> _]. now rewrite IH.
Qed.

(** X19.  A pass over an empty list of local events is not guarded: it
    decides a DELETE for every record of the sport, in the order of the
    records, and nothing else; when every deletion completes, the sport is
    left without any record. *)
Theorem empty_input_deletes_every_record calId evs (w : W) :
  NoDup (Dict.keys evs) ->
  let st := reconcile calId evs [] w in
  map fst (trace st) = map (fun kr => DELETE (fst kr) (Some (snd kr))) evs
  /\ ((forall d o, In (d, o) (trace st) -> o = Done) -> loopEvents st = []).
Proof.
  intros Hnd st. subst st.
  destruct (reconcile_spec calId evs [] w Hnd)
    as (T1 & T2 & HT1 & Ht & HF1 & HF2 & Hoth & _).
  cbv zeta in *. change (localEventsMap []) with (@nil (string * Event)) in *.
  assert (HT1' : T1 = []) by (inversion HF1; reflexivity).
  rewrite HT1' in Ht. cbn [app] in Ht. rewrite orphans_of_nothing in HF2.
  split.
  - rewrite Ht, (deletions_in_order _ _ _ _ HF2). unfold Dict.keys. rewrite map_map.
    apply map_ext_in. intros [k r] Hin. cbn [fst snd].
    now rewrite (DictFacts.in_get _ _ _ Hnd Hin).
  - intros Hok.
    assert (Hnone : forall k, Dict.get (loopEvents (reconcile calId evs [] w)) k = None).
    { intros k. destruct (in_dec string_dec k (Dict.keys evs)) as [Hk|Hk].
      - destruct (Forall2_in_l _ _ _ _ HF2 Hk) as ([d o] & Hd & Hr).
        rewrite Ht in Hok. pose proof (Hok d o Hd) as ->.
        apply delete_rel_inv in Hr.
        destruct d as [e'|r' e'|e'|k' sd]; try contradiction.
        destruct Hr as (_ & _ & _ & Hpost). exact Hpost.
      - apply Hoth; [assumption | intros []]. }
    revert Hnone. generalize (loopEvents (reconcile calId evs [] w)).
    intros [|[k r] rest] Hnone; [reflexivity|].
    specialize (Hnone k). cbn [Dict.get] in Hnone. rewrite String.eqb_refl in Hnone.
    discriminate Hnone.
Qed.

End WithEnv.

Import Scripted.

(** Two records and no local event. *)
Lemma empty_input_deletes_every_record_witness :
  let evs := [("A", synced "g1" eventA); ("B", synced "g2" eventB)] in
  map fst (trace (reconcile (env := Scripted.env) "cal" evs [] (fresh [])))
  = [DELETE "A" (Some (synced "g1" eventA)); DELETE "B" (Some (synced "g2" eventB))].
Proof.
  intros evs.
  assert (Hnd : NoDup (Dict.keys evs)).
  { cbn. repeat constructor; cbn; intuition discriminate. }
  destruct (empty_input_deletes_every_record (env := Scripted.env) "cal" evs (fresh []) Hnd)
    as [H _].
  exact H.
Defined.

(** A first pass over two events, both created. *)
Lemma pass_without_failure_is_in_sync_witness :
  let st := reconcile (env := Scripted.env) "cal" [] [eventA; eventB] (fresh []) in
  Dict.keys (loopEvents st) = ["A"; "B"]
  /\ exists r, Dict.get (loopEvents st) "B" = Some r
               /\ hash r = HashUtils.calculateEventHash (fields eventB).
Proof.
  cbv zeta. split; [vm_compute; reflexivity|].
  assert (Hnd : NoDup (Dict.keys (A := SyncRecord) [])) by constructor.
  destruct (pass_without_failure_is_in_sync (env := Scripted.env) "cal" []
              [eventA; eventB] (fresh []) Hnd) as [_ H].
  - repeat constructor.
  - intros d o Hin. vm_compute in Hin.
    destruct Hin as [Hin|[Hin|[]]]; congruence.
  - apply (H "B" eventB). vm_compute. auto.
Defined.

(** The update of [A] fails: its record and remote id stay. *)
Lemma remote_id_is_kept_witness :
  let st := reconcile (env := Scripted.env) "cal" [("A", synced "g1" eventA)] [eventA']
              (fresh [Some serverError]) in
  exists r', Dict.get (loopEvents st) "A" = Some r' /\ googleEventId r' = "g1".
Proof.
  cbv zeta.
  assert (Hnd : NoDup (Dict.keys [("A", synced "g1" eventA)])).
  { cbn. repeat constructor. intros []. }
  destruct (remote_id_is_kept (env := Scripted.env) "cal" [("A", synced "g1" eventA)]
              [eventA'] (fresh [Some serverError]) Hnd) as [H _].
  apply (H "A" (synced "g1" eventA)); [reflexivity | cbn; auto].
Defined.

End SyncExtras.

(* ================================================================== *)
(** ** The calls a run makes, in order *)

Module LogExtras.

Import Effects Data World SyncStateManager SyncService Logged.
Local Open Scope string_scope.
Local Open Scope list_scope.

Section WithEnv.

Context {W : Type} {base : Env W}.

Local Abbreviation logged := (Logged.env base).

Lemma load_log (w : W) (log : list Step) :
  @loadSyncState _ logged (w, log)
  = let '(w', r) := @loadSyncState W base w in ((w', log ++ [ReadFile]), r).
Proof.
  unfold loadSyncState, try_catch, bind, lift.
  cbn [fs_readFile JSON_parse Logged.env]. unfold logging. cbn [fst snd].
  destruct (fs_readFile w) as [w1 [error|data]].
  - destruct (code_is error (StrCode "ENOENT")); reflexivity.
  - destruct (JSON_parse data) as [error|state]; [|reflexivity].
    destruct (code_is error (StrCode "ENOENT")); reflexivity.
Qed.

(** The steps of a save are writes and waits; a save that returns ends
    with a write that succeeded. *)
Lemma save_log (syncState : SyncState) (wl : W * list Step) :
  exists added,
    snd (fst (@saveSyncState _ logged syncState wl)) = snd wl ++ added
    /\ forallb saving added = true
    /\ (is_ok (snd (@saveSyncState _ logged syncState wl)) = true ->
        exists steps, added = steps ++ [WriteState syncState true]).
Proof.
  destruct wl as [w log].
  unfold saveSyncState. change (Z.to_nat retries) with 3%nat.
  cbn [saveSyncState_loop]. unfold retries, try_catch, throw, ret.
  cbn [fs_writeState sleep Logged.env]. unfold logging. cbn [fst snd].
  destruct (fs_writeState syncState w) as [w1 [e1|[]]];
    cbn [fst snd is_ok Z.eqb Z.sub Z.add Z.mul Z.opp Z.pos_sub Pos.mul Pos.add Pos.succ Pos.eqb];
    [|eexists; split; [reflexivity|]; split; [reflexivity|]; intros _; now exists []].
  destruct (fs_writeState syncState (sleep 1000 w1)) as [w2 [e2|[]]];
    cbn [fst snd is_ok Z.eqb Z.sub Z.add Z.mul Z.opp Z.pos_sub Pos.mul Pos.add Pos.succ Pos.eqb];
    [|eexists; split; [rewrite <- !app_assoc; reflexivity|]; split; [reflexivity|];
      intros _; now exists [WriteState syncState false; Sleep 1000]].
  destruct (fs_writeState syncState (sleep 2000 w2)) as [w3 [e3|[]]]; cbn [fst snd is_ok];
    (eexists; split; [rewrite <- !app_assoc; reflexivity|]; split; [reflexivity|]).
  - intros H; discriminate H.
  - intros _. now exists [WriteState syncState false; Sleep 1000;
                          WriteState syncState false; Sleep 2000].
Qed.

(** *** The two loops of a pass write no file *)

Lemma syncLocalEvent_log calId (st : Loop (W := W * list Step)) entry :
  exists added,
    snd (loopWorld (@syncLocalEvent _ logged calId st entry)) = snd (loopWorld st) ++ added
    /\ writes added = [].
Proof.
  destruct entry as [k e]. destruct st as [[w log] evs sts tr].
  unfold syncLocalEvent. generalize (HashUtils.calculateEventHash (fields e)). intros h.
  destruct (Dict.get evs k) as [existingSync|].
  - destruct (negb (String.eqb (hash existingSync) h)).
    + unfold updateCalendarEvent, bind, lift.
      destruct (buildEventData e) as [err|data].
      * exists []. cbn [loopWorld snd]. now rewrite app_nil_r.
      * cbn [events_update now Logged.env]. unfold logging. cbn [fst snd].
        destruct (events_update calId (googleEventId existingSync) data w) as [w1 [err|[]]].
        -- eexists. cbn [loopWorld snd]. split; reflexivity.
        -- cbn [fst snd]. destruct (now w1) as [w2 ts]. eexists. cbn [loopWorld snd].
           rewrite <- app_assoc. split; reflexivity.
    + exists []. cbn [loopWorld snd]. now rewrite app_nil_r.
  - unfold createCalendarEvent, bind, lift.
    destruct (buildEventData e) as [err|data].
    + exists []. cbn [loopWorld snd]. now rewrite app_nil_r.
    + cbn [events_insert now Logged.env]. unfold logging. cbn [fst snd].
      destruct (events_insert calId data w) as [w1 [err|gid]].
      * eexists. cbn [loopWorld snd]. split; reflexivity.
      * cbn [fst snd]. destruct (now w1) as [w2 ts]. eexists. cbn [loopWorld snd].
        rewrite <- app_assoc. split; reflexivity.
Qed.

Lemma deleteOrphan_log calId (M : Dict.t Event) (st : Loop (W := W * list Step)) k :
  exists added,
    snd (loopWorld (@deleteOrphan _ logged calId M st k)) = snd (loopWorld st) ++ added
    /\ writes added = [].
Proof.
  destruct st as [[w log] evs sts tr]. unfold deleteOrphan.
  destruct (negb (Dict.has M k)); [|exists []; cbn [loopWorld snd]; now rewrite app_nil_r].
  destruct (Dict.get evs k) as [rec|];
    [|exists []; cbn [loopWorld snd]; now rewrite app_nil_r].
  unfold deleteCalendarEvent. cbn [events_delete Logged.env]. unfold logging. cbn [fst snd].
  destruct (events_delete calId (googleEventId rec) w) as [w1 [err|[]]];
    eexists; cbn [loopWorld snd]; split; reflexivity.
Qed.

Lemma fold_log {A : Type} (f : Loop (W := W * list Step) -> A -> Loop (W := W * list Step))
    (l : list A) :
  (forall st a, exists added,
      snd (loopWorld (f st a)) = snd (loopWorld st) ++ added /\ writes added = []) ->
  forall st, exists added,
    snd (loopWorld (fold_left f l st)) = snd (loopWorld st) ++ added /\ writes added = [].
Proof.
  intros Hf. induction l as [|a l IH]; intros st; cbn [fold_left].
  - exists []. now rewrite app_nil_r.
  - destruct (IH (f st a)) as (added2 & H2 & Hw2).
    destruct (Hf st a) as (added1 & H1 & Hw1).
    exists (added1 ++ added2). rewrite H2, H1, <- app_assoc.
    split; [reflexivity|]. now rewrite StoreExtras.writes_app, Hw1, Hw2.
Qed.

Lemma reconcile_log calId evs (E : list Event) (wl : W * list Step) :
  exists added,
    snd (loopWorld (@reconcile _ logged calId evs E wl)) = snd wl ++ added
    /\ writes added = [].
Proof.
  unfold reconcile, syncLocalEvents.
  destruct (fold_log (@syncLocalEvent _ logged calId) (localEventsMap E)
              (syncLocalEvent_log calId) (mkLoop wl evs (mkStats 0 0 0 0) []))
    as (added1 & H1 & Hw1).
  cbv zeta.
  match goal with
  | |- context [fold_left (deleteOrphan calId ?M) ?K ?st] =>
      destruct (fold_log (@deleteOrphan _ logged calId M) K (deleteOrphan_log calId M) st)
        as (added2 & H2 & Hw2)
  end.
  exists (added1 ++ added2). rewrite H2, H1. cbn [loopWorld]. rewrite <- app_assoc.
  split; [reflexivity|]. now rewrite StoreExtras.writes_app, Hw1, Hw2.
Qed.

Ltac ends Hrun :=
  match type of Hrun with
  | (?a, ?b) = (?wl, ?r) =>
      let Hwl := fresh "Hwl" in
      let Hr := fresh "Hr" in
      assert (Hwl : wl = a) by congruence; assert (Hr : r = b) by congruence;
      rewrite Hwl, Hr
  end.

(** X12.  A pass touches the state file only once both loops are over: the
    calls it makes are first calls that write no file (authorisation, the
    calendar, reading the state, the clock) and then the attempts of one
    save, which ends with a successful write when the pass returns.  A
    pass interrupted in its loops leaves the file as it was. *)
Theorem pass_saves_after_the_loops sportId (E : list Event) (w : W) (log : list Step) :
  let out := @syncWithCalendar _ logged sportId E (w, log) in
  exists before save,
    snd (fst out) = log ++ before ++ save
    /\ writes before = []
    /\ forallb saving save = true
    /\ (is_ok (snd out) = true -> exists steps syncState, save = steps ++ [WriteState syncState true]).
Proof.
  cbv zeta.
  destruct (@syncWithCalendar _ logged sportId E (w, log)) as [wl' r] eqn:Hrun.
  cbn [fst snd]. revert Hrun.
  unfold syncWithCalendar, syncWithCalendar_traced, bind.
  cbn [authorize getOrCreateCalendar Logged.env]. unfold logging. cbn [fst snd].
  destruct (authorize w) as [w1 [err|[]]].
  { cbv beta iota; cbn [fst snd]. intros Hrun. ends Hrun.
    exists [Authorize], []. cbn [fst snd is_ok]. rewrite app_nil_r.
    repeat split; try reflexivity. intros H; discriminate H. }
  cbv beta iota; cbn [fst snd].
  destruct (getOrCreateCalendar sportId w1) as [w2 [err|calId]].
  { cbv beta iota; cbn [fst snd]. intros Hrun. ends Hrun.
    exists [Authorize; GetOrCreateCalendar sportId], []. cbn [fst snd is_ok].
    rewrite app_nil_r, <- app_assoc.
    repeat split; try reflexivity. intros H; discriminate H. }
  cbv beta iota; cbn [fst snd]. rewrite load_log.
  destruct (@loadSyncState W base w2) as [w3 [err|syncState]].
  { cbv beta iota; cbn [fst snd]. intros Hrun. ends Hrun.
    exists [Authorize; GetOrCreateCalendar sportId; ReadFile], []. cbn [fst snd is_ok].
    rewrite app_nil_r, <- !app_assoc.
    repeat split; try reflexivity. intros H; discriminate H. }
  cbv beta iota; cbn [fst snd].
  set (log3 := (log ++ [Authorize]) ++ [GetOrCreateCalendar sportId]) in *.
  assert (Hpre : exists wl4 evs added,
             match Dict.get (sports syncState) sportId with
             | Some sportSyncState => ((w3, log3 ++ [ReadFile]), events sportSyncState)
             | None => let '(w', _) := @now _ logged (w3, log3 ++ [ReadFile]) in (w', [])
             end = (wl4, evs)
             /\ snd wl4 = log ++ added /\ writes added = []).
  { destruct (Dict.get (sports syncState) sportId) as [sportSyncState|].
    - eexists _, _, [Authorize; GetOrCreateCalendar sportId; ReadFile].
      split; [reflexivity|]. unfold log3. cbn [snd]. rewrite <- !app_assoc.
      split; reflexivity.
    - cbn [now Logged.env fst snd]. destruct (now w3) as [w3' ts0].
      eexists _, _, [Authorize; GetOrCreateCalendar sportId; ReadFile; Now].
      split; [reflexivity|]. unfold log3. cbn [snd]. rewrite <- !app_assoc.
      split; reflexivity. }
  destruct Hpre as (wl4 & evs & added0 & Hpre & Hlog4 & Hw0).
  rewrite Hpre. cbv beta iota; cbn [fst snd].
  destruct (reconcile_log calId evs E wl4) as (added1 & H1 & Hw1).
  destruct (loopWorld (@reconcile _ logged calId evs E wl4)) as [w5 log5] eqn:Hloop.
  cbn [snd] in H1. cbn [now Logged.env fst snd].
  destruct (now w5) as [w6 ts1]. cbv beta iota; cbn [fst snd].
  destruct (now w6) as [w7 ts2]. cbv beta iota; cbn [fst snd].
  match goal with
  | |- context [@saveSyncState _ logged ?s ?wl] =>
      destruct (save_log s wl) as (added2 & H2 & Hs2 & Hok2);
      destruct (@saveSyncState _ logged s wl) as [[w8 log8] [err|[]]] eqn:Hsave
  end; cbn [fst snd is_ok] in *.
  - cbv beta iota; cbn [fst snd]. intros Hrun. ends Hrun.
    exists (added0 ++ added1 ++ [Now; Now]), added2. cbn [snd is_ok].
    rewrite H2, H1, Hlog4, <- !app_assoc. cbn [app].
    split; [reflexivity|]. split; [rewrite !StoreExtras.writes_app, Hw0, Hw1; reflexivity|].
    split; [exact Hs2|]. intros H; discriminate H.
  - cbv beta iota delta [ret]. intros Hrun. ends Hrun.
    exists (added0 ++ added1 ++ [Now; Now]), added2. cbn [snd is_ok].
    rewrite H2, H1, Hlog4, <- !app_assoc. cbn [app].
    split; [reflexivity|]. split; [rewrite !StoreExtras.writes_app, Hw0, Hw1; reflexivity|].
    split; [exact Hs2|]. intros _. destruct (Hok2 eq_refl) as [steps Hsteps]. eauto.
Qed.

(** *** Repair *)

Lemma saving_no_calendar_write (steps : list Step) :
  forallb saving steps = true -> existsb calendar_write steps = false.
Proof.
  induction steps as [|step steps IH]; cbn [forallb existsb]; [reflexivity|].
  intros H. apply andb_true_iff in H. destruct H as [Hs Hrest].
  rewrite (IH Hrest). destruct step; try discriminate Hs; reflexivity.
Qed.

Lemma writes_last_nonempty (steps : list Step) (syncState : SyncState) :
  writes (steps ++ [WriteState syncState true]) <> [].
Proof.
  rewrite StoreExtras.writes_app. intros H. apply app_eq_nil in H. destruct H as [_ H].
  discriminate H.
Qed.

Lemma verifyEntry_log calId (st : RepairLoop (W := W * list Step)) entry :
  exists added,
    snd (repairWorld (@verifyEntry _ logged calId st entry)) = snd (repairWorld st) ++ added
    /\ writes added = [] /\ existsb calendar_write added = false.
Proof.
  destruct entry as [k syncData]. destruct st as [[w log] evs n tr].
  unfold verifyEntry. cbn [events_get Logged.env]. unfold logging. cbn [fst snd].
  destruct (events_get calId (googleEventId syncData) w) as [w1 [error|[]]].
  - destruct (code_is error (NumCode 404)); eexists; cbn [repairWorld snd];
      repeat split; reflexivity.
  - eexists. cbn [repairWorld snd]. repeat split; reflexivity.
Qed.

Lemma verifyEntries_log calId (L : Dict.t SyncRecord) :
  forall st : RepairLoop (W := W * list Step),
  exists added,
    snd (repairWorld (fold_left (@verifyEntry _ logged calId) L st))
    = snd (repairWorld st) ++ added
    /\ writes added = [] /\ existsb calendar_write added = false.
Proof.
  induction L as [|entry L IH]; intros st; cbn [fold_left].
  - exists []. rewrite app_nil_r. repeat split; reflexivity.
  - destruct (IH (@verifyEntry _ logged calId st entry)) as (added2 & H2 & Hw2 & Hc2).
    destruct (verifyEntry_log calId st entry) as (added1 & H1 & Hw1 & Hc1).
    exists (added1 ++ added2). rewrite H2, H1, <- app_assoc.
    split; [reflexivity|]. rewrite StoreExtras.writes_app, existsb_app, Hw1, Hw2, Hc1, Hc2.
    split; reflexivity.
Qed.

(** X13.  [repairSyncState] only reads the calendar: none of its calls
    creates, changes or deletes a calendar or an event.  When it returns,
    it has written the state file if and only if it purged a record. *)
Theorem repair_only_reads_the_calendar sportId (w : W) (log : list Step) :
  let out := @repairSyncState _ logged sportId (w, log) in
  exists added,
    snd (fst out) = log ++ added
    /\ existsb calendar_write added = false
    /\ forall res, snd out = inr res -> (writes added = [] <-> repaired res = 0).
Proof.
  cbv zeta.
  destruct (@repairSyncState _ logged sportId (w, log)) as [wl' r] eqn:Hrun.
  cbn [fst snd]. revert Hrun.
  unfold repairSyncState, repairSyncState_state, bind.
  cbn [authorize Logged.env]. unfold logging. cbn [fst snd].
  destruct (authorize w) as [w1 [err|[]]]; cbv beta iota; cbn [fst snd].
  { intros Hrun. ends Hrun. exists [Authorize]. cbn [snd].
    split; [reflexivity|]. split; [reflexivity|]. intros res Hres. discriminate Hres. }
  rewrite load_log.
  destruct (@loadSyncState W base w1) as [w2 [err|syncState]]; cbv beta iota; cbn [fst snd].
  { intros Hrun. ends Hrun. exists [Authorize; ReadFile]. cbn [snd].
    rewrite <- app_assoc.
    split; [reflexivity|]. split; [reflexivity|]. intros res Hres. discriminate Hres. }
  destruct (Dict.get (sports syncState) sportId) as [sportState|].
  2: { cbv beta iota delta [ret]. intros Hrun. ends Hrun.
       exists [Authorize; ReadFile]. cbn [snd fst]. rewrite <- app_assoc.
       split; [reflexivity|]. split; [reflexivity|].
       intros res Hres. injection Hres as <-. cbn [repaired]. split; reflexivity. }
  unfold verifyEntries.
  match goal with
  | |- context [fold_left (verifyEntry ?c) ?L ?st0] =>
      destruct (verifyEntries_log c L st0) as (added1 & H1 & Hw1 & Hc1);
      set (st := fold_left (verifyEntry c) L st0) in *
  end.
  cbn [repairWorld snd] in H1.
  destruct (0 <? repairedCount st)%nat eqn:Hcount.
  - match goal with
    | |- context [@saveSyncState _ logged ?s ?wl] =>
        destruct (save_log s wl) as (added2 & H2 & Hs2 & Hok2);
        destruct (@saveSyncState _ logged s wl) as [[w3 log3] [err|[]]] eqn:Hsave
    end; cbn [fst snd is_ok] in *; cbv beta iota delta [ret]; intros Hrun; ends Hrun.
    + exists ([Authorize; ReadFile] ++ added1 ++ added2). cbn [snd].
      rewrite H2, H1, <- !app_assoc. split; [reflexivity|].
      rewrite !existsb_app, Hc1, (saving_no_calendar_write _ Hs2).
      split; [reflexivity|]. intros res Hres. discriminate Hres.
    + exists ([Authorize; ReadFile] ++ added1 ++ added2). cbn [snd].
      rewrite H2, H1, <- !app_assoc. split; [reflexivity|].
      rewrite !existsb_app, Hc1, (saving_no_calendar_write _ Hs2).
      split; [reflexivity|]. intros res Hres. injection Hres as <-. cbn [fst repaired].
      apply Nat.ltb_lt in Hcount.
      destruct (Hok2 eq_refl) as [steps ->].
      split; [|lia]. intros Hnil. exfalso. rewrite !app_assoc in Hnil.
      exact (writes_last_nonempty _ _ Hnil).
  - cbv beta iota delta [ret]. intros Hrun. ends Hrun.
    exists ([Authorize; ReadFile] ++ added1). cbn [snd fst].
    rewrite H1, <- !app_assoc. split; [reflexivity|].
    rewrite !existsb_app, Hc1. split; [reflexivity|].
    intros res Hres. injection Hres as <-. cbn [repaired].
    apply Nat.ltb_ge in Hcount. rewrite StoreExtras.writes_app, Hw1.
    split; [intros _; lia | reflexivity].
Qed.

End WithEnv.

End LogExtras.

(* ================================================================== *)
(** ** From the adapter to the request body *)

Module AdapterExtras.

Import Effects Data SyncService JsDate JsDateFacts BwfAdapter HashSpec.
Local Open Scope string_scope.

Lemma before_T_app_T (a b : string) : before_T (a ++ String "T" b) = before_T a.
Proof.
  unfold before_T. induction a as [|c a IH]; cbn [append split_T fst].
  - reflexivity.
  - destruct (Ascii.eqb c "T"); [reflexivity|].
    destruct (split_T (a ++ String "T" b)) as [x y], (split_T a) as [x' y'].
    cbn [fst] in *. now rewrite IH.
Qed.

Lemma before_T_fixed (a : string) : no_T a = true -> before_T a = a.
Proof.
  unfold before_T. induction a as [|c a IH]; cbn [no_T split_T fst]; [reflexivity|].
  intros H. apply andb_true_iff in H. destruct H as [Hc Ha].
  apply negb_true_iff in Hc. rewrite Hc.
  destruct (split_T a) as [x y]. cbn [fst] in *. now rewrite (IH Ha).
Qed.

Lemma formatDate_date_part (s1 s2 : string) (isEndDate : bool) :
  before_T s1 = before_T s2 ->
  formatDate (Js.VString s1) isEndDate = formatDate (Js.VString s2) isEndDate.
Proof.
  intros H. cbv beta iota zeta delta [formatDate]. now rewrite H.
Qed.

(** X14.  Of the date string of the BWF API, only what comes before the
    first space and the first [T] reaches the calendar: the start date sent
    is that part, and the end date is computed from that part alone. *)
Theorem bwf_date_keeps_date_part (s : string) :
  s <> "" ->
  exists v,
    _parseDate (Js.VString s) = inr v
    /\ formatDate v false = inr (before_T (before_space s))
    /\ formatDate v true = formatDate (Js.VString (before_T (before_space s))) true.
Proof.
  intros Hs. unfold _parseDate. cbn [Js.truthy].
  destruct (String.eqb_spec s "") as [->|_]; [contradiction|]. cbn [negb].
  eexists. split; [reflexivity|].
  change "T00:00:00.000Z" with (String "T" "00:00:00.000Z").
  split.
  - cbv beta iota zeta delta [formatDate]. now rewrite before_T_app_T.
  - apply formatDate_date_part. rewrite before_T_app_T.
    symmetry. apply before_T_fixed, before_T_no_T.
Qed.

Lemma bwf_date_keeps_date_part_witness :
  exists v,
    _parseDate (Js.VString "2025-01-12 00:00:00") = inr v
    /\ formatDate v false = inr "2025-01-12"
    /\ formatDate v true = inr "2025-01-13".
Proof.
  destruct (bwf_date_keeps_date_part "2025-01-12 00:00:00" ltac:(intros H; discriminate H))
    as (v & Hv & Hstart & Hend).
  exists v. split; [exact Hv|]. split; [exact Hstart|].
  rewrite Hend. vm_compute. reflexivity.
Defined.

(** *** The order of the properties of [location] *)

Lemma object_get_permutation (o1 o2 : Js.object) (k : string) :
  NoDup (Js.keys o1) -> Permutation o1 o2 -> Js.get o1 k = Js.get o2 k.
Proof. apply HashFacts.get_permutation. Qed.

Lemma formatLocation_permutation (l1 l2 : Js.object) :
  NoDup (Js.keys l1) -> Permutation l1 l2 ->
  formatLocation (Js.VObject l1) = formatLocation (Js.VObject l2).
Proof.
  intros Hnd Hp. unfold formatLocation, prop. cbn [Js.truthy negb].
  now rewrite !(object_get_permutation l1 l2) by assumption.
Qed.

(** X15.  The request body does not depend on the order in which
    [location] lists its properties: two events that differ in that order
    only, whose hashes may differ, are sent to the calendar as the same
    body. *)
Theorem request_body_ignores_location_order (i : string) (e l1 l2 : Js.object) :
  NoDup (Js.keys l1) -> Permutation l1 l2 ->
  buildEventData (mkEvent i (Js.set e "location" (Js.VObject l1)))
  = buildEventData (mkEvent i (Js.set e "location" (Js.VObject l2))).
Proof.
  intros Hnd Hp. unfold buildEventData. cbn [fields].
  rewrite !HashFacts.get_set. cbn [String.eqb Ascii.eqb Bool.eqb].
  now rewrite (formatLocation_permutation l1 l2) by assumption.
Qed.

(** The two tournaments whose hashes differ. *)
Lemma request_body_ignores_location_order_witness :
  buildEventData (mkEvent "bwf-5222" (tournament locationA))
  = buildEventData (mkEvent "bwf-5222" (tournament locationB))
  /\ HashUtils.calculateEventHash (tournament locationA)
     <> HashUtils.calculateEventHash (tournament locationB).
Proof.
  split.
  - apply (request_body_ignores_location_order "bwf-5222" (tournament []) locationA locationB).
    + cbn. repeat constructor; cbn; intuition discriminate.
    + unfold locationA, locationB.
      apply Permutation_sym, (Permutation_cons_app [_; _] []). reflexivity.
  - vm_compute. intros H. discriminate H.
Defined.

End AdapterExtras.

(* ================================================================== *)
(** ** The run over the sports *)

Module MainExtras.

Import Effects Data World SyncService Main.
Local Open Scope list_scope.

Section WithPipeline.

Context {W : Type} {env : Env W}.
Variables Raw Local Adapter : Type.
Variable fetchSportIds : Eff W (list string).
Variable fetchTournamentData : string -> Eff W Raw.
Variable saveRawTournamentData : string -> Raw -> Eff W unit.
Variable getAdapter : string -> result (option Adapter).
Variable loadLocalTournamentData : string -> Eff W Local.
Variable standardize : Adapter -> Local -> result (list Event).

Local Abbreviation sport :=
  (@processSport W env Raw Local Adapter fetchTournamentData saveRawTournamentData getAdapter
     loadLocalTournamentData standardize).
Local Abbreviation sports :=
  (@processSports W env Raw Local Adapter fetchTournamentData saveRawTournamentData getAdapter
     loadLocalTournamentData standardize).

Lemma processSport_returns (sportId : string) (w : W) :
  exists w' outcome, sport sportId w = (w', inr outcome).
Proof.
  unfold processSport, try_catch.
  match goal with |- context [match ?c w with _ => _ end] => destruct (c w) as [w' [e|o]] end;
    unfold ret; eauto.
Qed.

Lemma processSports_returns (sportIds : list string) :
  forall w, exists w' outcomes,
    sports sportIds w = (w', inr outcomes) /\ map fst outcomes = sportIds.
Proof.
  induction sportIds as [|sportId rest IH]; intros w; cbn [processSports].
  - exists w, []. split; reflexivity.
  - unfold bind. destruct (processSport_returns sportId w) as (w1 & outcome & ->).
    destruct (IH w1) as (w2 & outcomes & -> & Hids).
    exists w2, ((sportId, outcome) :: outcomes). unfold ret. cbn [map fst].
    split; [reflexivity | now rewrite Hids].
Qed.

(** X16.  Nothing that fails while a sport is processed (fetching, saving,
    standardising, the whole calendar pass) stops the run or the sports
    after it: [main] returns, having gone through every sport in order,
    unless it was given no sport and the index of sports cannot be fetched,
    the one error it throws. *)
Theorem main_isolates_sport_failures (sportIds : list string) (w : W) :
  let run :=
    main fetchSportIds fetchTournamentData saveRawTournamentData getAdapter
      loadLocalTournamentData standardize in
  (exists w' outcomes,
     run sportIds w = (w', inr outcomes)
     /\ (sportIds <> [] -> map fst outcomes = sportIds))
  \/ (sportIds = []
      /\ exists w' error,
           fetchSportIds w = (w', inl error) /\ run sportIds w = (w', inl error)).
Proof.
  cbv zeta. unfold main, bind. destruct sportIds as [|sportId rest].
  - destruct (fetchSportIds w) as [w1 [error|ids]].
    + right. split; [reflexivity|]. eauto.
    + left. destruct (processSports_returns ids w1) as (w2 & outcomes & -> & _).
      exists w2, outcomes. split; [reflexivity|]. intros H. now contradiction H.
  - left. unfold ret.
    destruct (processSports_returns (sportId :: rest) w) as (w2 & outcomes & -> & Hids).
    exists w2, outcomes. split; [reflexivity|]. intros _. exact Hids.
Qed.

End WithPipeline.

End MainExtras.

(* ================================================================== *)
(** ** A pass and the state document *)

Module PassExtras.

Import Effects Data World SyncStateManager SyncService Logged.
Local Open Scope string_scope.
Local Open Scope list_scope.

Section WithEnv.

Context {W : Type} {base : Env W}.

Local Abbreviation logged := (Logged.env base).

(** X17.  A state file that is there but does not parse stops the pass
    before it looks at any event: the pass throws the parse error after
    authorising, finding the calendar and reading the file, without a call
    on an event and without writing the file, which is left as it is. *)
Theorem unparsable_state_stops_the_pass sportId (E : list Event) (w w1 w2 w3 : W)
    (log : list Step) (calId data : string) (error : JsError) :
  authorize w = (w1, inr tt) ->
  getOrCreateCalendar sportId w1 = (w2, inr calId) ->
  fs_readFile w2 = (w3, inr data) ->
  JSON_parse data = inl error ->
  code_is error (StrCode "ENOENT") = false ->
  @syncWithCalendar _ logged sportId E (w, log)
  = ((w3, log ++ [Authorize; GetOrCreateCalendar sportId; ReadFile]), inl error).
Proof.
  intros Hauth Hcal Hread Hparse Hcode.
  unfold syncWithCalendar, syncWithCalendar_traced, bind.
  cbn [authorize getOrCreateCalendar Logged.env]. unfold logging. cbn [fst snd].
  rewrite Hauth. cbv beta iota; cbn [fst snd]. rewrite Hcal. cbv beta iota; cbn [fst snd].
  rewrite LogExtras.load_log.
  rewrite (StoreFacts.loadSyncState_read w2 w3 data Hread), Hparse, Hcode.
  now rewrite <- !app_assoc.
Qed.

End WithEnv.

Section WithAny.

Context {W : Type} {env : Env W}.

(** X18.  A pass that returns has saved the state it loaded with the entry
    of its sport replaced and nothing else changed: the version and the
    entries of the other sports are as loaded.  The calendar id stored for
    the sport is set by the first pass and kept by every later one, also
    when the pass itself worked on another calendar id; the event count
    stored is the length of the list of local events. *)
Theorem pass_changes_only_its_sport sportId (E : list Event) (w w1 w2 w3 w' : W)
    (calId : string) (syncState syncState' : SyncState) (res : SyncResult) (tr : Trace) :
  authorize w = (w1, inr tt) ->
  getOrCreateCalendar sportId w1 = (w2, inr calId) ->
  loadSyncState w2 = (w3, inr syncState) ->
  syncWithCalendar_traced sportId E w = (w', inr (res, syncState', tr)) ->
  version syncState' = version syncState
  /\ (forall s, s <> sportId ->
        Dict.get (sports syncState') s = Dict.get (sports syncState) s)
  /\ exists sportSyncState',
       Dict.get (sports syncState') sportId = Some sportSyncState'
       /\ calendarId sportSyncState'
          = match Dict.get (sports syncState) sportId with
            | Some sportSyncState => calendarId sportSyncState
            | None => Some calId
            end
       /\ totalEvents (stats sportSyncState') = Some (List.length E).
Proof.
  intros Hauth Hcal Hload. unfold syncWithCalendar_traced, bind.
  rewrite Hauth, Hcal, Hload.
  match goal with
  | |- context [match ?sel with (w, evs) => _ end] => destruct sel as [w4 evs]
  end.
  destruct (now (loopWorld (reconcile calId evs E w4))) as [w5 ts1].
  destruct (now w5) as [w6 ts2].
  match goal with
  | |- context [saveSyncState ?s w6] =>
      destruct (saveSyncState s w6) as [w7 [err|[]]]
  end; [intros H; discriminate H|].
  intros H. injection H as _ _ <- _. cbn [version sports].
  split; [reflexivity|]. split.
  - intros s Hs. apply DictFacts.get_set_neq. congruence.
  - eexists. rewrite DictFacts.get_set_eq. split; [reflexivity|].
    cbn [calendarId stats totalEvents]. split; reflexivity.
Qed.

End WithAny.

Import Scripted.

(** A state file that holds text that is not JSON. *)
Lemma unparsable_state_stops_the_pass_witness :
  let syntaxError := mkError NoCode "SyntaxError" in
  let w := mkWorld 0 (inr "{") [] in
  @syncWithCalendar _ (Logged.env (holding (inl syntaxError))) "bwf" [eventA] (w, [])
  = ((w, [Authorize; GetOrCreateCalendar "bwf"; ReadFile]), inl syntaxError).
Proof.
  intros syntaxError w.
  apply (unparsable_state_stops_the_pass (base := holding (inl syntaxError))
           "bwf" [eventA] w w w w [] "cal-bwf" "{" syntaxError); reflexivity.
Defined.

(** A second sport is synced for the first time; the entry of the first
    is kept. *)
Lemma pass_changes_only_its_sport_witness :
  let bwf := mkSportSyncState (Some "cal-old") [("A", synced "g1" eventA)]
               (mkSportStats (Some 1%nat) None) in
  let state := mkSyncState "1.0" None [("bwf", bwf)] in
  let w := mkWorld 0 (inr "{}") [] in
  exists w' res syncState' tr,
    syncWithCalendar_traced (env := holding (inr state)) "tennis" [eventB] w
    = (w', inr (res, syncState', tr))
    /\ Dict.get (sports syncState') "bwf" = Some bwf.
Proof.
  intros bwf state w.
  destruct (syncWithCalendar_traced (env := holding (inr state)) "tennis" [eventB] w)
    as [w' [err|[[res syncState'] tr]]] eqn:Hrun; [vm_compute in Hrun; discriminate Hrun|].
  exists w', res, syncState', tr. split; [reflexivity|].
  destruct (pass_changes_only_its_sport (env := holding (inr state)) "tennis" [eventB]
              w w w w w' "cal-tennis" state syncState' res tr
              eq_refl eq_refl eq_refl Hrun) as (_ & Hothers & _).
  rewrite Hothers by (intros H; discriminate H). reflexivity.
Defined.

End PassExtras.

(* ================================================================== *)
(** ** Writing a data file *)

Module StorageExtras.

Import Effects World StorageManager Logged ExtraSpec.
Local Open Scope string_scope.
Local Open Scope list_scope.

Section WithFiles.

Context {W : Type} {base : Env W}.
Variable Data : Type.
Variable fs_writeFile : string -> Data -> Eff W unit.

Lemma saveWithRetry_loop_log (filePath : string) (data : Data) (retries : Z) (n : nat) :
  forall (i : Z) (w : W) (log : list Step) (wl' : W * list Step) (r : result unit),
  (i + Z.of_nat n = retries)%Z -> 0 < n ->
  saveWithRetry_loop (env := Logged.env base) (logged_writeFile fs_writeFile)
    n i retries filePath data (w, log) = (wl', r) ->
  exists k,
    k < n
    /\ snd wl' = log ++ failed_attempts filePath i k ++ [WriteFile filePath (is_ok r)]
    /\ (is_ok r = false -> S k = n).
Proof.
  set (write := logged_writeFile fs_writeFile).
  induction n as [|n IH]; intros i w log wl' r Hi Hn; [lia|].
  cbn [saveWithRetry_loop]. unfold try_catch, throw.
  unfold write at 1. unfold logged_writeFile, logging. cbn [fst snd].
  destruct (fs_writeFile filePath data w) as [w1 [error|[]]]; cbv beta iota; cbn [is_ok].
  - destruct (Z.eqb_spec i (retries - 1)) as [Hlast|Hmore].
    + intros Hrun. assert (Hwl : wl' = (w1, log ++ [WriteFile filePath false])) by congruence.
      assert (Hr : r = inl error) by congruence. rewrite Hwl, Hr.
      exists 0. cbn [fst snd is_ok failed_attempts app].
      split; [lia|]. split; [reflexivity|]. intros _. lia.
    + cbn [sleep Logged.env fst snd]. intros Hrun.
      destruct (IH (i + 1)%Z _ _ _ _ ltac:(lia) ltac:(lia) Hrun) as (k & Hk & Hlog & Hfail).
      exists (S k). split; [lia|].
      split; [|intros H; specialize (Hfail H); lia].
      rewrite Hlog. cbn [failed_attempts]. rewrite <- !app_assoc. reflexivity.
  - intros Hrun. assert (Hwl : wl' = (w1, log ++ [WriteFile filePath true])) by congruence.
    assert (Hr : r = inr tt) by congruence. rewrite Hwl, Hr.
    exists 0. cbn [fst snd is_ok failed_attempts app].
    split; [lia|]. split; [reflexivity|]. intros H; discriminate H.
Qed.

(** X20.  [saveWithRetry(filePath, data, retries)] with [retries >= 1]
    writes the file at most [retries] times: every write but the last one
    it makes has failed and is followed by a wait of 1000 ms times its
    rank; it returns after the first write that succeeds and throws after
    the write of rank [retries] has failed, without a further wait.  With
    [retries <= 0] it returns without having written anything. *)
Theorem saveWithRetry_attempts (filePath : string) (data : Data) (retries : Z)
    (w : W) (log : list Step) :
  let out := saveWithRetry (env := Logged.env base) (logged_writeFile fs_writeFile)
               filePath data retries (w, log) in
  ((retries <= 0)%Z -> out = ((w, log), inr tt))
  /\ ((0 < retries)%Z ->
      exists k,
        k < Z.to_nat retries
        /\ snd (fst out)
           = log ++ failed_attempts filePath 0 k ++ [WriteFile filePath (is_ok (snd out))]
        /\ (is_ok (snd out) = false -> S k = Z.to_nat retries)).
Proof.
  cbv zeta. unfold saveWithRetry. split.
  - intros H. replace (Z.to_nat retries) with 0 by lia. reflexivity.
  - intros H.
    destruct (saveWithRetry_loop _ _ _ _ _ _ _) as [wl' r] eqn:Hrun. cbn [fst snd].
    apply (saveWithRetry_loop_log filePath data retries (Z.to_nat retries) 0%Z w log wl' r
             ltac:(lia) ltac:(lia) Hrun).
Qed.

End WithFiles.

End StorageExtras.

(* ================================================================== *)
(** ** The hash input loses nothing *)

Module JsonExtras.

Import Js HashUtils HashSpec ExtraSpec.
Local Open Scope string_scope.

(** *** Strings *)

Lemma string_app_assoc (a b c : string) : (a ++ b) ++ c = a ++ (b ++ c).
Proof. induction a as [|x a IH]; cbn [append]; [reflexivity | now rewrite IH]. Qed.

Lemma string_app_nil (a : string) : a ++ "" = a.
Proof. induction a as [|x a IH]; cbn [append]; [reflexivity | now rewrite IH]. Qed.

Lemma string_tail (c : ascii) (a b : string) : String c a = String c b -> a = b.
Proof. intros H. now injection H. Qed.

Lemma unescape_escape_char (c : ascii) (r : string) :
  unescape (escape_char c ++ r) = Some (c, r).
Proof. destruct c as [[] [] [] [] [] [] [] []]; reflexivity. Qed.

Lemma unescape_dquote (r : string) : unescape (String dquote r) = None.
Proof. reflexivity. Qed.

Lemma escape_prefix (a : string) :
  forall b r1 r2,
  escape a ++ String dquote r1 = escape b ++ String dquote r2 -> a = b /\ r1 = r2.
Proof.
  induction a as [|c a IH]; intros [|c' b] r1 r2; cbn [escape append];
    rewrite ?string_app_assoc; intros H.
  - injection H as ->. split; reflexivity.
  - apply (f_equal unescape) in H.
    rewrite unescape_dquote, unescape_escape_char in H. discriminate H.
  - apply (f_equal unescape) in H.
    rewrite unescape_dquote, unescape_escape_char in H. discriminate H.
  - apply (f_equal unescape) in H. rewrite !unescape_escape_char in H.
    injection H as -> H. destruct (IH _ _ _ H) as [-> ->]. split; reflexivity.
Qed.

Lemma quote_prefix (a b r1 r2 : string) :
  quote a ++ r1 = quote b ++ r2 -> a = b /\ r1 = r2.
Proof.
  unfold quote. cbn [append]. rewrite !string_app_assoc. cbn [append].
  intros H. injection H as H. now apply escape_prefix.
Qed.

Lemma quote_head (a r : string) : exists t, quote a ++ r = String dquote t.
Proof. unfold quote. cbn [append]. eauto. Qed.

(** *** Values *)

Lemma value_nested_ind (P : value -> Prop) :
  P VUndefined -> P VNull -> (forall b, P (VBool b)) -> (forall s, P (VString s)) ->
  (forall ps, Forall (fun kv => P (snd kv)) ps -> P (VObject ps)) ->
  forall v, P v.
Proof.
  intros HU HN HB HS HO. fix IH 1.
  intros [| |b|s|ps]; [exact HU | exact HN | apply HB | apply HS |].
  apply HO. induction ps as [|[k v] ps IHps]; constructor; [apply IH | exact IHps].
Qed.

Lemma stringify_object (ps : list (string * value)) :
  stringify (VObject ps) = Some ("{" ++ String.concat "," (members ps) ++ "}").
Proof.
  reflexivity.
Qed.

Lemma defined_cons (k : string) (v : value) (ps : list (string * value)) :
  defined (VObject ((k, v) :: ps)) = defined v && defined (VObject ps).
Proof. reflexivity. Qed.

Lemma defined_stringify (v : value) : defined v = true -> exists s, stringify v = Some s.
Proof.
  destruct v as [| |[]|s|ps]; intros H; try discriminate H; eexists; reflexivity.
Qed.

Lemma concat_rest (m : string) (ms : list string) :
  String.concat "," (m :: ms) = m ++ rest_of ms.
Proof. destruct ms; cbn [String.concat rest_of]; [now rewrite string_app_nil | reflexivity]. Qed.

(** The serialisation of a value without [undefined] inside is a prefix of
    no other: what follows it can be read off. *)
Definition prefix_free (v : value) : Prop :=
  defined v = true ->
  forall v' s s' r r',
  defined v' = true -> stringify v = Some s -> stringify v' = Some s' ->
  s ++ r = s' ++ r' -> v = v' /\ r = r'.

Ltac heads H :=
  apply (f_equal (fun t => match t with
                           | String c _ => N_of_ascii c
                           | EmptyString => 0%N
                           end)) in H;
  vm_compute in H; discriminate H.

Lemma members_prefix (ps : list (string * value)) :
  Forall (fun kv => prefix_free (snd kv)) ps ->
  defined (VObject ps) = true ->
  forall ps' r r',
  defined (VObject ps') = true ->
  (rest_of (members ps) ++ "}" ++ r = rest_of (members ps') ++ "}" ++ r'
   \/ String.concat "," (members ps) ++ "}" ++ r
      = String.concat "," (members ps') ++ "}" ++ r') ->
  ps = ps' /\ r = r'.
Proof.
  induction 1 as [|[k v] ps Hv Hps IH]; intros Hd [|[k' v'] ps'] r r' Hd' H.
  - destruct H as [H|H]; cbn in H; injection H as ->; split; reflexivity.
  - exfalso. rewrite defined_cons in Hd'. apply andb_true_iff in Hd'. destruct Hd' as [Hv' _].
    destruct (defined_stringify v' Hv') as [s' Hs'].
    cbn [members] in H. rewrite Hs' in H. cbn [rest_of] in H.
    destruct H as [H|H].
    + cbn [append] in H. heads H.
    + rewrite concat_rest, !string_app_assoc in H.
      destruct (quote_head k' (":" ++ s' ++ rest_of (members ps') ++ "}" ++ r')) as [t Ht].
      cbn [append] in H, Ht. rewrite Ht in H. heads H.
  - exfalso. rewrite defined_cons in Hd. apply andb_true_iff in Hd. destruct Hd as [Hv0 _].
    destruct (defined_stringify v Hv0) as [s Hs].
    cbn [members] in H. rewrite Hs in H. cbn [rest_of] in H.
    destruct H as [H|H].
    + cbn [append] in H. heads H.
    + rewrite concat_rest, !string_app_assoc in H.
      destruct (quote_head k (":" ++ s ++ rest_of (members ps) ++ "}" ++ r)) as [t Ht].
      cbn [append] in H, Ht. rewrite Ht in H. heads H.
  - cbn [snd] in Hv. rewrite defined_cons in Hd, Hd'.
    apply andb_true_iff in Hd, Hd'. destruct Hd as [Hv0 Hps0], Hd' as [Hv' Hps'].
    destruct (defined_stringify v Hv0) as [s Hs], (defined_stringify v' Hv') as [s' Hs'].
    cbn [members] in H. rewrite Hs, Hs' in H. cbn [rest_of] in H.
    assert (H' : quote k ++ ":" ++ s ++ rest_of (members ps) ++ "}" ++ r
                 = quote k' ++ ":" ++ s' ++ rest_of (members ps') ++ "}" ++ r').
    { destruct H as [H|H]; rewrite !concat_rest, !string_app_assoc in H.
      - apply (string_tail ","). exact H.
      - exact H. }
    apply quote_prefix in H'. destruct H' as [-> H']. apply (string_tail ":") in H'.
    destruct (Hv Hv0 v' s s' _ _ Hv' Hs Hs' H') as [-> Hrest].
    destruct (IH Hps0 ps' r r' Hps' (or_introl Hrest)) as [-> ->].
    split; reflexivity.
Qed.

Lemma stringify_prefix_free (v : value) : prefix_free v.
Proof.
  induction v as [| |b|a|ps IH] using value_nested_ind; intros Hd v' s s' r r' Hd' Hs Hs' H.
  - discriminate Hd.
  - destruct v' as [| |[]|a'|ps']; try discriminate Hd';
      try rewrite stringify_object in Hs'; cbn [stringify] in Hs, Hs';
      injection Hs as <-; injection Hs' as <-.
    + cbn [append] in H. injection H as ->. split; reflexivity.
    + heads H.
    + heads H.
    + destruct (quote_head a' r') as [t Ht]. rewrite Ht in H. heads H.
    + cbn [append] in H. heads H.
  - destruct v' as [| |b'|a'|ps']; try discriminate Hd';
      try rewrite stringify_object in Hs'; cbn [stringify] in Hs, Hs'.
    + destruct b; injection Hs as <-; injection Hs' as <-; heads H.
    + destruct b, b'; injection Hs as <-; injection Hs' as <-;
        try (cbn [append] in H; injection H as ->; split; reflexivity); heads H.
    + destruct b; injection Hs as <-; injection Hs' as <-;
        destruct (quote_head a' r') as [t Ht]; rewrite Ht in H; heads H.
    + destruct b; injection Hs as <-; injection Hs' as <-; cbn [append] in H; heads H.
  - destruct (quote_head a r) as [t Ht].
    destruct v' as [| |[]|a'|ps']; try discriminate Hd';
      try rewrite stringify_object in Hs'; cbn [stringify] in Hs, Hs';
      injection Hs as <-; injection Hs' as <-.
    + rewrite Ht in H. heads H.
    + rewrite Ht in H. heads H.
    + rewrite Ht in H. heads H.
    + apply quote_prefix in H. destruct H as [-> ->]. split; reflexivity.
    + rewrite Ht in H. cbn [append] in H. heads H.
  - rewrite stringify_object in Hs. injection Hs as <-.
    destruct v' as [| |[]|a'|ps']; try discriminate Hd';
      try rewrite stringify_object in Hs'; cbn [stringify] in Hs';
      injection Hs' as <-.
    + cbn [append] in H. heads H.
    + cbn [append] in H. heads H.
    + cbn [append] in H. heads H.
    + destruct (quote_head a' r') as [t Ht]. rewrite Ht in H. cbn [append] in H. heads H.
    + cbn [append] in H. injection H as H. rewrite !string_app_assoc in H.
      destruct (members_prefix ps IH Hd ps' r r' Hd' (or_intror H)) as [-> ->].
      split; reflexivity.
Qed.

(** X21.  The hash input is a faithful writing of the eight projected
    values: when no [undefined] occurs inside them (a property
    [JSON.stringify] would leave out), two events with the same hash input
    agree on [event.f || default] for each of the eight fields.  Events
    that differ there can share a hash only through a collision of the
    truncated MD5. *)
Theorem hashInput_injective (e1 e2 : object) :
  (forall f, In f projectedFields -> defined (or (get e1 f) (absentDefault f)) = true) ->
  (forall f, In f projectedFields -> defined (or (get e2 f) (absentDefault f)) = true) ->
  hashInput e1 = hashInput e2 ->
  forall f, In f projectedFields ->
  or (get e1 f) (absentDefault f) = or (get e2 f) (absentDefault f).
Proof.
  intros H1 H2 Heq.
  assert (Hs : forall e, sortedFields e
            = [ ("category", or (get e "category") (absentDefault "category"));
                ("dateEnd", or (get e "dateEnd") (absentDefault "dateEnd"));
                ("dateStart", or (get e "dateStart") (absentDefault "dateStart"));
                ("level", or (get e "level") (absentDefault "level"));
                ("location", or (get e "location") (absentDefault "location"));
                ("name", or (get e "name") (absentDefault "name"));
                ("prize", or (get e "prize") (absentDefault "prize"));
                ("url", or (get e "url") (absentDefault "url")) ]) by reflexivity.
  assert (Hd : forall e,
            (forall f, In f projectedFields -> defined (or (get e f) (absentDefault f)) = true) ->
            defined (VObject (sortedFields e)) = true).
  { intros e H. rewrite Hs. rewrite !defined_cons.
    rewrite !H by (unfold projectedFields; cbn [In]; auto 10). reflexivity. }
  unfold hashInput in Heq. rewrite !stringify_object in Heq.
  destruct (stringify_prefix_free (VObject (sortedFields e1)) (Hd e1 H1)
              (VObject (sortedFields e2)) _ _ "" "" (Hd e2 H2)
              (stringify_object _) (stringify_object _)) as [Hobj _].
  { now rewrite Heq. }
  rewrite !Hs in Hobj.
  injection Hobj as Hc He Hst Hl Hloc Hn Hp Hu.
  intros f Hf. unfold projectedFields in Hf. cbn [In] in Hf.
  repeat (destruct Hf as [<-|Hf]; [assumption|]). destruct Hf.
Qed.

Lemma hashInput_injective_witness :
  hashInput [("name", VString "X"); ("prize", VNull)] = hashInput [("name", VString "X")]
  /\ or (get [("name", VString "X"); ("prize", VNull)] "prize") (absentDefault "prize")
     = or (get [("name", VString "X")] "prize") (absentDefault "prize").
Proof.
  split; [vm_compute; reflexivity|].
  apply (hashInput_injective [("name", VString "X"); ("prize", VNull)] [("name", VString "X")]).
  - intros f Hf. unfold projectedFields in Hf. cbn [In] in Hf.
    repeat (destruct Hf as [<-|Hf]; [reflexivity|]). destruct Hf.
  - intros f Hf. unfold projectedFields in Hf. cbn [In] in Hf.
    repeat (destruct Hf as [<-|Hf]; [reflexivity|]). destruct Hf.
  - vm_compute. reflexivity.
  - unfold projectedFields. cbn [In]. auto 10.
Defined.

End JsonExtras.
